(** * Enterprise Agentic Platform: plan orchestration and retrieval

    A shallow embedding of the orchestration and retrieval code of
    [src/App.js] (the [App] component): the text chunker, the in-memory
    vector store and its similarity query, the planner's response parsing,
    the plan executor with its placeholder substitution, the agent
    dispatcher and its handlers, the ingestion of uploaded files, and the
    renderer of a message's text ([_MessageContent]).

    Conventions of the embedding.
    - A JavaScript string is the list of its UTF-16 code units ([jsstring]).
    - JavaScript numbers that the code uses as indices and sizes are
      integers ([nat] for array indices and lengths, [Z] for the chunker's
      parameters); embedding components and similarity scores are IEEE 754
      doubles ([float], with the rounding, the infinities and the [NaN] of
      the language's numbers), a missing component reading as [NaN].
    - An array holds at most [2^32 - 1] elements; [push] beyond that throws
      a [RangeError].
    - The component's React state is a record ([AppState]).  A handler reads
      the [const] bindings of the render that created it (the argument
      [snap]) and writes through the setters, which act on the stored state
      of the [World] it runs in.
    - The collaborators (the hosted language model, the embedding model, the
      document text extraction) are functions of the interaction so far.
    - An [async] function is a computation in the monad [M]: it threads the
      [World] and ends with a value or a thrown error. *)

From Stdlib Require Import Bool Arith ZArith Lia.
From Stdlib Require Import Floats.
From Stdlib Require Import Ascii String DecimalString DecimalNat.
From Stdlib Require Import List Permutation Sorted.
Import ListNotations.

Set Warnings "-register-all".

Local Open Scope nat_scope.
Local Open Scope list_scope.

(* ================================================================== *)
(** * JavaScript strings *)
(* ================================================================== *)

Module JSString.

(** A string value: its sequence of 16-bit code units. *)
Definition jsstring : Type := list N.

(** The code units of an ASCII literal. *)
Definition js (s : string) : jsstring :=
  map N_of_ascii (list_ascii_of_string s).

(** The double quote, as a one-unit string. *)
Definition dq : jsstring := [34%N].

(** The line feed, as a one-unit string. *)
Definition nl : jsstring := [10%N].

(** Strict equality [===] of two strings. *)
Fixpoint str_eqb (a b : jsstring) : bool :=
  match a, b with
  | [], [] => true
  | x :: a', y :: b' => N.eqb x y && str_eqb a' b'
  | _, _ => false
  end.

(** [strip_prefix pat s]: the rest of [s] after [pat] when [s] starts with
    [pat]. *)
Fixpoint strip_prefix (pat s : jsstring) : option jsstring :=
  match pat, s with
  | [], _ => Some s
  | p :: pat', c :: s' => if N.eqb p c then strip_prefix pat' s' else None
  | _ :: _, [] => None
  end.

(** [split_first pat s]: the text before and after the leftmost occurrence
    of [pat] in [s] (the position [StringIndexOf(s, pat, 0)] finds). *)
Fixpoint split_first (pat s : jsstring) : option (jsstring * jsstring) :=
  match strip_prefix pat s with
  | Some rest => Some ([], rest)
  | None =>
      match s with
      | [] => None
      | c :: s' =>
          match split_first pat s' with
          | Some (before, after) => Some (c :: before, after)
          | None => None
          end
      end
  end.

Definition dollar : N := 36%N.
Definition ampersand : N := 38%N.
Definition backtick : N := 96%N.
Definition apostrophe : N := 39%N.

(** ECMAScript's [GetSubstitution] for a string pattern (no capture groups):
    in the replacement template [$$] stands for a dollar sign, [$&] for the
    matched text, [$`] for the text before the match and [$'] for the text
    after it; a dollar sign followed by anything else (a digit or [<]
    included, as there is no capture to refer to) is copied as it is. *)
Fixpoint GetSubstitution (matched before after template : jsstring) : jsstring :=
  match template with
  | [] => []
  | c :: t =>
      if N.eqb c dollar then
        match t with
        | [] => [c]
        | d :: t' =>
            if N.eqb d dollar then dollar :: GetSubstitution matched before after t'
            else if N.eqb d backtick then before ++ GetSubstitution matched before after t'
            else if N.eqb d ampersand then matched ++ GetSubstitution matched before after t'
            else if N.eqb d apostrophe then after ++ GetSubstitution matched before after t'
            else c :: GetSubstitution matched before after t
        end
      else c :: GetSubstitution matched before after t
  end.

(** [String.prototype.replace(searchString, replaceValue)] with a string
    pattern: only the leftmost occurrence is replaced. *)
Definition replace (s searchString replaceValue : jsstring) : jsstring :=
  match split_first searchString s with
  | None => s
  | Some (before, after) =>
      before ++ GetSubstitution searchString before after replaceValue ++ after
  end.

(** An index argument clamped to [0 .. len]. *)
Definition clamp (x : Z) (len : nat) : nat :=
  Z.to_nat (Z.min (Z.max x 0) (Z.of_nat len)).

(** [String.prototype.substring(start, end)]: both ends are clamped to the
    string and swapped when [start > end]. *)
Definition substring (s : jsstring) (start end_ : Z) : jsstring :=
  let finalStart := clamp start (length s) in
  let finalEnd := clamp end_ (length s) in
  let from := Nat.min finalStart finalEnd in
  let to := Nat.max finalStart finalEnd in
  firstn (to - from) (skipn from s).

(** [String(n)] for a non-negative integer: its decimal digits. *)
Definition Number_toString (n : nat) : jsstring :=
  js (NilEmpty.string_of_uint (Nat.to_uint n)).

End JSString.
Import JSString.


(* ================================================================== *)
(** * JSON values and [JSON.parse] *)
(* ================================================================== *)

Module Json.

(** The values [JSON.parse] produces.  A number keeps its source text; an
    object keeps its members in source order. *)
Inductive JSValue : Type :=
| JNull
| JBool (b : bool)
| JNumber (lexeme : jsstring)
| JString (s : jsstring)
| JArray (elems : list JSValue)
| JObject (members : list (jsstring * JSValue)).

Local Open Scope N_scope.

Definition is_ws (c : N) : bool :=
  N.eqb c 32 || N.eqb c 9 || N.eqb c 10 || N.eqb c 13.

Definition is_digit (c : N) : bool := (48 <=? c) && (c <=? 57).

Definition hex_value (c : N) : option N :=
  if is_digit c then Some (c - 48)
  else if (97 <=? c) && (c <=? 102) then Some (c - 87)
  else if (65 <=? c) && (c <=? 70) then Some (c - 55)
  else None.

(** The character a one-letter escape stands for. *)
Definition escape_char (e : N) : option N :=
  if N.eqb e 34 then Some 34          (* quote *)
  else if N.eqb e 92 then Some 92     (* backslash *)
  else if N.eqb e 47 then Some 47     (* slash *)
  else if N.eqb e 98 then Some 8      (* b *)
  else if N.eqb e 102 then Some 12    (* f *)
  else if N.eqb e 110 then Some 10    (* n *)
  else if N.eqb e 114 then Some 13    (* r *)
  else if N.eqb e 116 then Some 9     (* t *)
  else None.

Fixpoint skip_ws (s : jsstring) : jsstring :=
  match s with
  | c :: s' => if is_ws c then skip_ws s' else s
  | [] => []
  end.

Fixpoint take_digits (s : jsstring) : jsstring * jsstring :=
  match s with
  | c :: s' =>
      if is_digit c then let (d, r) := take_digits s' in (c :: d, r)
      else ([], s)
  | [] => ([], [])
  end.

(** At least one digit. *)
Definition take_digits1 (s : jsstring) : option (jsstring * jsstring) :=
  match take_digits s with
  | ([], _) => None
  | (d, r) => Some (d, r)
  end.

(** A JSON number: an optional minus sign; the integer part, a single zero
    or a non-zero digit followed by digits; an optional fraction, a point
    and at least one digit; an optional exponent, [e] or [E], an optional
    sign and at least one digit. *)
Definition lex_number (s : jsstring) : option (jsstring * jsstring) :=
  let (sign, s1) :=
    match s with
    | c :: r => if N.eqb c 45 then ([c], r) else ([], s)
    | [] => ([], s)
    end in
  let int_part :=
    match s1 with
    | [] => None
    | c :: r =>
        if N.eqb c 48 then Some ([c], r)
        else if is_digit c then Some (take_digits s1)
        else None
    end in
  match int_part with
  | None => None
  | Some (ip, s2) =>
      let frac :=
        match s2 with
        | d :: r2 =>
            if N.eqb d 46 then
              match take_digits1 r2 with
              | Some (fd, s3) => Some (d :: fd, s3)
              | None => None
              end
            else Some ([], s2)
        | [] => Some ([], s2)
        end in
      match frac with
      | None => None
      | Some (fp, s3) =>
          let expo :=
            match s3 with
            | e :: r3 =>
                if N.eqb e 101 || N.eqb e 69 then
                  let (sg, r4) :=
                    match r3 with
                    | x :: r4 => if N.eqb x 43 || N.eqb x 45 then ([x], r4) else ([], r3)
                    | [] => ([], r3)
                    end in
                  match take_digits1 r4 with
                  | Some (ed, s4) => Some (e :: sg ++ ed, s4)
                  | None => None
                  end
                else Some ([], s3)
            | [] => Some ([], s3)
            end in
          match expo with
          | None => None
          | Some (ep, s4) => Some (sign ++ ip ++ fp ++ ep, s4)
          end
      end
  end.

Definition cons_unit (c : N) (r : option (jsstring * jsstring)) : option (jsstring * jsstring) :=
  match r with
  | Some (body, rest) => Some (c :: body, rest)
  | None => None
  end.

(** The body of a JSON string, after its opening quote, up to and including
    the closing quote. *)
Fixpoint lex_string (s : jsstring) : option (jsstring * jsstring) :=
  match s with
  | [] => None
  | c :: r =>
      if N.eqb c 34 then Some ([], r)
      else if N.eqb c 92 then
        match r with
        | [] => None
        | e :: r' =>
            if N.eqb e 117 then
              match r' with
              | h1 :: h2 :: h3 :: h4 :: r'' =>
                  match hex_value h1, hex_value h2, hex_value h3, hex_value h4 with
                  | Some a, Some b, Some c', Some d =>
                      cons_unit (((a * 16 + b) * 16 + c') * 16 + d) (lex_string r'')
                  | _, _, _, _ => None
                  end
              | _ => None
              end
            else
              match escape_char e with
              | Some x => cons_unit x (lex_string r')
              | None => None
              end
        end
      else if c <? 32 then None
      else cons_unit c (lex_string r)
  end.

(** A literal name ([null], [true], [false]). *)
Definition lex_literal (name : jsstring) (v : JSValue) (s : jsstring) : option (JSValue * jsstring) :=
  match strip_prefix name s with
  | Some rest => Some (v, rest)
  | None => None
  end.

(** One JSON value, by recursive descent; [fuel] bounds the nesting and the
    number of elements.  A budget of [2 * length s + 2] is always enough, as
    every second call consumes a character ([JSON_parse_budget] below). *)
Fixpoint parse_value (fuel : nat) (s : jsstring) : option (JSValue * jsstring) :=
  match fuel with
  | O => None
  | S fuel' =>
      match skip_ws s with
      | [] => None
      | c :: r =>
          if N.eqb c 110 then lex_literal (js "null") JNull (c :: r)
          else if N.eqb c 116 then lex_literal (js "true") (JBool true) (c :: r)
          else if N.eqb c 102 then lex_literal (js "false") (JBool false) (c :: r)
          else if N.eqb c 34 then
            match lex_string r with
            | Some (body, rest) => Some (JString body, rest)
            | None => None
            end
          else if N.eqb c 91 then
            match skip_ws r with
            | c' :: r' =>
                if N.eqb c' 93 then Some (JArray [], r')
                else
                  match parse_elements fuel' r with
                  | Some (vs, rest) => Some (JArray vs, rest)
                  | None => None
                  end
            | [] => None
            end
          else if N.eqb c 123 then
            match skip_ws r with
            | c' :: r' =>
                if N.eqb c' 125 then Some (JObject [], r')
                else
                  match parse_members fuel' r with
                  | Some (ms, rest) => Some (JObject ms, rest)
                  | None => None
                  end
            | [] => None
            end
          else
            match lex_number (c :: r) with
            | Some (lexeme, rest) => Some (JNumber lexeme, rest)
            | None => None
            end
      end
  end

with parse_elements (fuel : nat) (s : jsstring) : option (list JSValue * jsstring) :=
  match fuel with
  | O => None
  | S fuel' =>
      match parse_value fuel' s with
      | None => None
      | Some (v, r) =>
          match skip_ws r with
          | c :: r' =>
              if N.eqb c 44 then
                match parse_elements fuel' r' with
                | Some (vs, rest) => Some (v :: vs, rest)
                | None => None
                end
              else if N.eqb c 93 then Some ([v], r')
              else None
          | [] => None
          end
      end
  end

with parse_members (fuel : nat) (s : jsstring) : option (list (jsstring * JSValue) * jsstring) :=
  match fuel with
  | O => None
  | S fuel' =>
      match skip_ws s with
      | q :: r0 =>
          if N.eqb q 34 then
            match lex_string r0 with
            | None => None
            | Some (key, r1) =>
                match skip_ws r1 with
                | colon :: r2 =>
                    if N.eqb colon 58 then
                      match parse_value fuel' r2 with
                      | None => None
                      | Some (v, r3) =>
                          match skip_ws r3 with
                          | c :: r4 =>
                              if N.eqb c 44 then
                                match parse_members fuel' r4 with
                                | Some (ms, rest) => Some ((key, v) :: ms, rest)
                                | None => None
                                end
                              else if N.eqb c 125 then Some ([(key, v)], r4)
                              else None
                          | [] => None
                          end
                      end
                    else None
                | [] => None
                end
            end
          else None
      | [] => None
      end
  end.

(** [JSON.parse(text)]: one value between optional white space, nothing
    after it; [None] when the text is not JSON (a [SyntaxError]). *)
Definition JSON_parse (text : jsstring) : option JSValue :=
  match parse_value (2 * length text + 2) text with
  | Some (v, rest) =>
      match skip_ws rest with
      | [] => Some v
      | _ :: _ => None
      end
  | None => None
  end.

(** [obj.key] on a parsed object: the value of the last member of that name
    (a repeated name overwrites), if any. *)
Fixpoint get_member (key : jsstring) (members : list (jsstring * JSValue)) : option JSValue :=
  match members with
  | [] => None
  | (k, v) :: rest =>
      match get_member key rest with
      | Some v' => Some v'
      | None => if str_eqb k key then Some v else None
      end
  end.

End Json.
Import Json.


(* ================================================================== *)
(** * The text chunker and the vector arithmetic *)
(* ================================================================== *)

Module Chunker.

(** The loop of [chunkText]:
    [for (let i = 0; i < text.length; i += chunkSize - overlap)
       chunks.push(text.substring(i, i + chunkSize))],
    run for at most [fuel] tests of its condition; [None] when the loop is
    still running after them. *)
Fixpoint chunkText_loop (fuel : nat) (text : jsstring) (chunkSize overlap : Z)
    (i : Z) (chunks : list jsstring) : option (list jsstring) :=
  match fuel with
  | O => None
  | S fuel' =>
      if (i <? Z.of_nat (length text))%Z then
        chunkText_loop fuel' text chunkSize overlap (i + (chunkSize - overlap))%Z
          (chunks ++ [substring text i (i + chunkSize)%Z])
      else Some chunks
  end.

(** [chunkText(text, chunkSize, overlap)] on arrays without a bound.  A loop
    that ends through its condition does so within [length text + 1] tests
    ([chunkText_fuel_enough] below), so [None] means that the condition of
    the loop never fails; what ends the call then is the bound of the array
    ([chunkText_run]). *)
Definition chunkText (text : jsstring) (chunkSize overlap : Z) : option (list jsstring) :=
  chunkText_loop (S (length text)) text chunkSize overlap 0%Z [].

(** An array holds at most [2^32 - 1] elements: [push] on an array of that
    length throws [RangeError: Invalid array length]. *)
Definition maxArrayLength : N := 4294967295%N.

(** How a call of [chunkText] ends: it returns its chunks, or a [push]
    throws [RangeError] (the chunks pushed before it are lost with the
    call). *)
Inductive LoopEnd : Type :=
| Returns (chunks : list jsstring)
| ThrowsRangeError (pushed : list jsstring).

(** The loop of [chunkText] on an array that takes [capacity] elements:
    [maxArrayLength] by the language, fewer in an engine that bounds its
    arrays more tightly; [None] when the loop is still running after
    [fuel] tests of its condition. *)
Fixpoint chunkText_run (capacity : N) (fuel : nat) (text : jsstring) (chunkSize overlap : Z)
    (i : Z) (chunks : list jsstring) : option LoopEnd :=
  match fuel with
  | O => None
  | S fuel' =>
      if (i <? Z.of_nat (length text))%Z then
        if (N.of_nat (length chunks) <? capacity)%N then
          chunkText_run capacity fuel' text chunkSize overlap (i + (chunkSize - overlap))%Z
            (chunks ++ [substring text i (i + chunkSize)%Z])
        else Some (ThrowsRangeError chunks)
      else Some (Returns chunks)
  end.

(** The default parameters: [chunkSize = 1000, overlap = 200]. *)
Definition default_chunkSize : Z := 1000%Z.
Definition default_overlap : Z := 200%Z.

(** [ceil(a / b)] for [b > 0]. *)
Definition ceil_div (a b : Z) : Z := ((a + b - 1) / b)%Z.

End Chunker.
Import Chunker.

Module Vectors.

(** A JavaScript number of the similarity computation: an IEEE 754 double. *)
Definition Num : Type := float.

(** The loop of [dotProduct]: [p += vecA[i] * vecB[i]] for every index of
    [vecA], each product and each sum rounded to a double; an index past the
    end of [vecB] reads [undefined], which the product turns into [NaN]. *)
Fixpoint dotProduct_from (p : Num) (vecA vecB : list float) : Num :=
  match vecA with
  | [] => p
  | a :: vecA' =>
      match vecB with
      | b :: vecB' => dotProduct_from (p + a * b)%float vecA' vecB'
      | [] => dotProduct_from (p + a * nan)%float vecA' []
      end
  end.

Definition dotProduct (vecA vecB : list float) : Num :=
  dotProduct_from 0%float vecA vecB.

(** How [Array.prototype.sort] reads a comparator's result [v]: [v < 0]
    puts the first argument first, [v > 0] the second, and zero or [NaN]
    leaves the two unordered. *)
Definition sign_of (v : Num) : comparison :=
  if (v <? 0)%float then Lt
  else if (0 <? v)%float then Gt
  else Eq.

Section Sort.
Context {A : Type}.
Variable comparefn : A -> A -> Num.

(** [insert x l]: [x] goes after the elements that the comparator puts
    strictly before it, and before everything else. *)
Fixpoint insert (x : A) (l : list A) : list A :=
  match l with
  | [] => [x]
  | y :: l' =>
      match sign_of (comparefn y x) with
      | Lt => y :: insert x l'
      | _ => x :: y :: l'
      end
  end.

(** [Array.prototype.sort(comparefn)].  The language requires the sort to
    be stable; for a consistent comparator every stable sort returns this
    list (an earlier element stays before a later one that compares equal).
    A comparator that returns [NaN] for some pairs and a sign for others is
    not consistent, and the language then leaves the order to the engine:
    what is proved of the order below is proved for comparators that are
    consistent on the list. *)
Fixpoint sort (l : list A) : list A :=
  match l with
  | [] => []
  | x :: l' => insert x (sort l')
  end.

End Sort.

End Vectors.
Import Vectors.

(* ================================================================== *)
(** * The application state and its collaborators *)
(* ================================================================== *)

Module App.

(** The text a language-model call hands back: a string, [undefined] (the
    response carries no text) or [null] (the call failed). *)
Inductive JSText : Type :=
| TStr (s : jsstring)
| TUndefined
| TNull.

(** [String(t)], as a template literal and [replace] apply it. *)
Definition ToString (t : JSText) : jsstring :=
  match t with
  | TStr s => s
  | TUndefined => js "undefined"
  | TNull => js "null"
  end.

(** The browser's [File] object. *)
Record BrowserFile : Type := mkBrowserFile {
  bf_name : jsstring;
  bf_type : jsstring;
  bf_bytes : list N
}.

(** An entry of [uploadedFiles]: [{ name, type, fileObject }], with
    [content] (base64) once an image is read and [textContent] once a
    document is parsed. *)
Record FileData : Type := mkFileData {
  name : jsstring;
  type_ : jsstring;
  fileObject : BrowserFile;
  content : option jsstring;
  textContent : option jsstring
}.

(** An entry of [vectorStore]: [{ fileName, chunk, embedding }]. *)
Record VectorRecord : Type := mkVectorRecord {
  fileName : jsstring;
  chunk : jsstring;
  embedding : option (list float)
}.

(** A ranked entry: [{ ...v, similarity }]. *)
Record SimilarChunk : Type := mkSimilarChunk {
  stored : VectorRecord;
  similarity : Num
}.

(** A step of a plan: [{ agent, prompt }]. *)
Record PlanStep : Type := mkPlanStep {
  agent : jsstring;
  prompt : jsstring
}.

Record Part : Type := mkPart { text : JSText }.

Record StepInfo : Type := mkStepInfo {
  current : nat;
  total : nat;
  task : jsstring
}.

Record Source : Type := mkSource {
  source_fileName : jsstring;
  source_chunk : jsstring
}.

(** An entry of [chatHistory].  The code builds several shapes of message;
    a field a shape does not have is [None] (or [false]). *)
Record Message : Type := mkMessage {
  role : jsstring;
  msg_agent : option jsstring;
  parts : option (list Part);
  image : option FileData;
  msg_plan : option JSValue;
  thinking : bool;
  step : option StepInfo;
  sources : option (list Source);
  finalStep : option bool
}.

Record ModelStatus : Type := mkModelStatus {
  ready : bool;
  message : jsstring
}.

(** The [useState] cells of the component. *)
Record AppState : Type := mkAppState {
  chatHistory : list Message;
  userInput : jsstring;
  uploadedFiles : list FileData;
  vectorStore : list VectorRecord;
  attachedImage : option FileData;
  isLoading : bool;
  isIndexing : bool;
  error : option jsstring;
  isDarkMode : bool;
  modelStatus : ModelStatus
}.

(** What the component does to the outside, in order: requests to the
    language model and to the embedding model, [console.error] lines, and
    (for the statements below) every call of [callAgent]. *)
Inductive Event : Type :=
| EvGenerate (request : jsstring) (attachment : option FileData)
| EvEmbed (input : jsstring)
| EvConsoleError (label : jsstring)
| EvDispatch (agentName resolvedPrompt : jsstring).

Record World : Type := mkWorld {
  state : AppState;
  trace : list Event
}.

(** How a request to the language model ends. *)
Inductive ApiOutcome : Type :=
| ApiText (s : jsstring)
| ApiNoText
| ApiError (errMessage : jsstring).

(** ** The monad of [async] functions *)

Inductive Error : Type :=
| TypeError (what : jsstring).

Inductive Outcome (A : Type) : Type :=
| Ok (a : A)
| Throw (e : Error)
| Hang.

Arguments Ok {A} a.
Arguments Throw {A} e.
Arguments Hang {A}.

Definition M (A : Type) : Type := World -> Outcome A * World.

Definition ret {A : Type} (a : A) : M A := fun w => (Ok a, w).

Definition bind {A B : Type} (c : M A) (k : A -> M B) : M B :=
  fun w =>
    match c w with
    | (Ok a, w') => k a w'
    | (Throw e, w') => (Throw e, w')
    | (Hang, w') => (Hang, w')
    end.

Definition throw {A : Type} (e : Error) : M A := fun w => (Throw e, w).

Definition hang {A : Type} : M A := fun w => (Hang, w).

Declare Scope async_scope.
Delimit Scope async_scope with async.
Notation "x <- c ;; k" := (bind c (fun x => k))
  (at level 61, c at next level, right associativity) : async_scope.
Notation "c ;; k" := (bind c (fun _ => k))
  (at level 61, right associativity) : async_scope.
Local Open Scope async_scope.

(** [for (const x of xs) acc = body(x, acc)], awaited in order. *)
Fixpoint forM {A B : Type} (xs : list A) (acc : B) (body : A -> B -> M B) : M B :=
  match xs with
  | [] => ret acc
  | x :: xs' => acc' <- body x acc ;; forM xs' acc' body
  end.

(** [xs.map(f)] for an [f] that may throw, and [Promise.all(xs.map(f))]. *)
Fixpoint mapM {A B : Type} (f : A -> M B) (xs : list A) : M (list B) :=
  match xs with
  | [] => ret []
  | x :: xs' => y <- f x ;; ys <- mapM f xs' ;; ret (y :: ys)
  end.

Definition emit (e : Event) : M unit :=
  fun w => (Ok tt, mkWorld (state w) (trace w ++ [e])).

Definition update (f : AppState -> AppState) : M unit :=
  fun w => (Ok tt, mkWorld (f (state w)) (trace w)).

(** ** The state setters *)

Definition with_chatHistory (f : list Message -> list Message) (s : AppState) : AppState :=
  mkAppState (f (chatHistory s)) (userInput s) (uploadedFiles s) (vectorStore s)
    (attachedImage s) (isLoading s) (isIndexing s) (error s) (isDarkMode s) (modelStatus s).

Definition with_uploadedFiles (f : list FileData -> list FileData) (s : AppState) : AppState :=
  mkAppState (chatHistory s) (userInput s) (f (uploadedFiles s)) (vectorStore s)
    (attachedImage s) (isLoading s) (isIndexing s) (error s) (isDarkMode s) (modelStatus s).

Definition with_vectorStore (f : list VectorRecord -> list VectorRecord) (s : AppState) : AppState :=
  mkAppState (chatHistory s) (userInput s) (uploadedFiles s) (f (vectorStore s))
    (attachedImage s) (isLoading s) (isIndexing s) (error s) (isDarkMode s) (modelStatus s).

Definition with_attachedImage (v : option FileData) (s : AppState) : AppState :=
  mkAppState (chatHistory s) (userInput s) (uploadedFiles s) (vectorStore s)
    v (isLoading s) (isIndexing s) (error s) (isDarkMode s) (modelStatus s).

Definition with_isLoading (v : bool) (s : AppState) : AppState :=
  mkAppState (chatHistory s) (userInput s) (uploadedFiles s) (vectorStore s)
    (attachedImage s) v (isIndexing s) (error s) (isDarkMode s) (modelStatus s).

Definition with_isIndexing (v : bool) (s : AppState) : AppState :=
  mkAppState (chatHistory s) (userInput s) (uploadedFiles s) (vectorStore s)
    (attachedImage s) (isLoading s) v (error s) (isDarkMode s) (modelStatus s).

Definition with_error (v : option jsstring) (s : AppState) : AppState :=
  mkAppState (chatHistory s) (userInput s) (uploadedFiles s) (vectorStore s)
    (attachedImage s) (isLoading s) (isIndexing s) v (isDarkMode s) (modelStatus s).

Definition setChatHistory (f : list Message -> list Message) : M unit :=
  update (with_chatHistory f).
Definition setUploadedFiles (f : list FileData -> list FileData) : M unit :=
  update (with_uploadedFiles f).
Definition setVectorStore (f : list VectorRecord -> list VectorRecord) : M unit :=
  update (with_vectorStore f).
Definition setAttachedImage (v : option FileData) : M unit :=
  update (with_attachedImage v).
Definition setIsLoading (v : bool) : M unit := update (with_isLoading v).
Definition setIsIndexing (v : bool) : M unit := update (with_isIndexing v).
Definition setError (v : option jsstring) : M unit := update (with_error v).

(** ** Small helpers of the handlers *)

(** [xs.join(sep)]. *)
Fixpoint join (sep : jsstring) (xs : list jsstring) : jsstring :=
  match xs with
  | [] => []
  | [x] => x
  | x :: xs' => x ++ sep ++ join sep xs'
  end.

(** [xs.find(p)]. *)
Definition find_file (p : FileData -> bool) (xs : list FileData) : option FileData :=
  List.find p xs.

(** A handler's answer: [{ role: 'model', agent, parts: [{ text }] }], with
    [sources] when given. *)
Definition agentMessage (agentName : jsstring) (t : JSText) (srcs : option (list Source)) : Message :=
  mkMessage (js "model") (Some agentName) (Some [mkPart t]) None None false None srcs None.

(** [m.parts[0].text]: a [TypeError] when [parts] is missing or empty. *)
Definition first_text (m : Message) : M JSText :=
  match parts m with
  | Some (p :: _) => ret (text p)
  | Some [] => throw (TypeError (js "Cannot read properties of undefined (reading 'text')"))
  | None => throw (TypeError (js "Cannot read properties of undefined (reading '0')"))
  end.

(** The object [stepOutputs]: its keys in insertion order, as [for ... in]
    visits them. *)
Definition StepOutputs : Type := list (jsstring * JSText).

(** [stepOutputs[key] = value]: a new key goes last, a known key keeps its
    place. *)
Fixpoint obj_set (o : StepOutputs) (key : jsstring) (value : JSText) : StepOutputs :=
  match o with
  | [] => [(key, value)]
  | (k, v) :: o' =>
      if str_eqb k key then (k, value) :: o' else (k, v) :: obj_set o' key value
  end.

(** The key [`step_${n}_output`]. *)
Definition stepKey (n : nat) : jsstring :=
  js "step_" ++ Number_toString n ++ js "_output".

(** The placeholder [`{{${key}}}`]. *)
Definition placeholder (key : jsstring) : jsstring :=
  js "{{" ++ key ++ js "}}".

(** The substitution loop of [executePlan]:
    [for (const key in stepOutputs)
       currentPrompt = currentPrompt.replace(`{{${key}}}`, stepOutputs[key])]. *)
Definition substitute (stepOutputs : StepOutputs) (currentPrompt : jsstring) : jsstring :=
  fold_left
    (fun cur kv => replace cur (placeholder (fst kv)) (ToString (snd kv)))
    stepOutputs currentPrompt.

(** [file.type.startsWith('image/')]. *)
Definition isImageType (t : jsstring) : bool :=
  match strip_prefix (js "image/") t with
  | Some _ => true
  | None => false
  end.

(** The regular expression of [callPlanner], [```json\n([\s\S]*?)\n```],
    matched against [s]: the capture of the leftmost match, the capture
    being as short as possible. *)
Fixpoint fence_match (s : jsstring) : option jsstring :=
  let here :=
    match strip_prefix (js "```json" ++ nl) s with
    | Some rest =>
        match split_first (nl ++ js "```") rest with
        | Some (captured, _) => Some captured
        | None => None
        end
    | None => None
    end in
  match here with
  | Some captured => Some captured
  | None =>
      match s with
      | [] => None
      | _ :: s' => fence_match s'
      end
  end.

(** The plan of the planner's [catch] branch: [[{ agent: 'WebSearchAgent', prompt }]]. *)
Definition fallbackPlan (request : jsstring) : JSValue :=
  JArray [JObject [(js "agent", JString (js "WebSearchAgent")); (js "prompt", JString request)]].

(** A step as the executor reads it: an object whose [agent] and [prompt]
    are strings. *)
Definition step_of_json (v : JSValue) : option PlanStep :=
  match v with
  | JObject members =>
      match get_member (js "agent") members, get_member (js "prompt") members with
      | Some (JString a), Some (JString p) => Some (mkPlanStep a p)
      | _, _ => None
      end
  | _ => None
  end.

Fixpoint steps_of_json (vs : list JSValue) : option (list PlanStep) :=
  match vs with
  | [] => Some []
  | v :: vs' =>
      match step_of_json v, steps_of_json vs' with
      | Some st, Some sts => Some (st :: sts)
      | _, _ => None
      end
  end.

(** A plan in the sense of the data model: an array of at least one step. *)
Definition plan_of_json (v : JSValue) : option (list PlanStep) :=
  match v with
  | JArray (v0 :: vs) => steps_of_json (v0 :: vs)
  | _ => None
  end.

Definition is_valid_plan (v : JSValue) : bool :=
  match plan_of_json v with
  | Some _ => true
  | None => false
  end.

(* ================================================================== *)
(** * The handlers of the component *)
(* ================================================================== *)

Section Handlers.

(** The hosted language model: how the request made after the interaction
    [trace] ends. *)
Variable generate : list Event -> jsstring -> option FileData -> ApiOutcome.

(** Modelled from the spec: [getClientSideEmbedding], which [App.js] calls
    and does not define.  The embedding collaborator is
    [embed(text) -> vector | fails]; a failure is the falsy value that the
    callers test for ([if (!queryEmbedding)], [.filter(v => v.embedding)]). *)
Variable embed : list Event -> jsstring -> option (list float).

(** The text extraction of [parseFileContent] (pdf.js, mammoth, xlsx or
    [TextDecoder], by the file's type); [None] when it throws. *)
Variable extractText : list Event -> BrowserFile -> option jsstring.

(** The [const] bindings of the render whose handlers run. *)
Variable snap : AppState.

Definition callGeminiAPI (request : jsstring) (attachment : option FileData) : M JSText :=
  fun w =>
    let w1 := mkWorld (state w) (trace w ++ [EvGenerate request attachment]) in
    match generate (trace w) request attachment with
    | ApiText s => (Ok (TStr s), w1)
    | ApiNoText => (Ok TUndefined, w1)
    | ApiError errMessage =>
        (setError (Some (js "Generation failed: " ++ errMessage)) ;;
         setIsLoading false ;;
         ret TNull) w1
    end.

Definition getClientSideEmbedding (input : jsstring) : M (option (list float)) :=
  fun w => (Ok (embed (trace w) input), mkWorld (state w) (trace w ++ [EvEmbed input])).

(** [{ ...v, similarity: dotProduct(queryEmbedding, v.embedding) }]; reading
    a component of a missing embedding throws. *)
Definition score (queryEmbedding : list float) (v : VectorRecord) : M SimilarChunk :=
  match embedding v with
  | Some e => ret (mkSimilarChunk v (dotProduct queryEmbedding e))
  | None =>
      match queryEmbedding with
      | [] => ret (mkSimilarChunk v 0%float)
      | _ :: _ => throw (TypeError (js "Cannot read properties of null (reading '0')"))
      end
  end.

(** The comparator [(a, b) => b.similarity - a.similarity]. *)
Definition bySimilarityDesc (a b : SimilarChunk) : Num :=
  (similarity b - similarity a)%float.

Definition findSimilarChunks (query : jsstring) : M (list SimilarChunk) :=
  if (length (vectorStore snap) =? 0) || negb (ready (modelStatus snap)) then ret []
  else
    queryEmbedding <- getClientSideEmbedding query ;;
    match queryEmbedding with
    | None => ret []
    | Some q =>
        similarities <- mapM (score q) (vectorStore snap) ;;
        ret (firstn 3 (sort bySimilarityDesc similarities))
    end.

Definition handleKnowledgeQuery (prompt : jsstring) : M Message :=
  similarChunks <- findSimilarChunks prompt ;;
  if length similarChunks =? 0 then
    ret (agentMessage (js "KnowledgeAgent")
           (TStr (js "I couldn't find any relevant information in the uploaded documents to answer that."))
           None)
  else
    let context :=
      join (nl ++ nl ++ js "---" ++ nl ++ nl)
        (map (fun c => js "Source: " ++ fileName (stored c) ++ nl ++ js "Content:" ++ nl ++ chunk (stored c))
           similarChunks) in
    let augmentedPrompt :=
      js "Based *only* on the context below, answer the user's question." ++ nl ++ nl
      ++ js "--- CONTEXT ---" ++ nl ++ context ++ nl ++ js "--- END CONTEXT ---" ++ nl ++ nl
      ++ js "User Question: " ++ dq ++ prompt ++ dq in
    t <- callGeminiAPI augmentedPrompt None ;;
    let srcs := map (fun c => mkSource (fileName (stored c)) (chunk (stored c))) similarChunks in
    ret (agentMessage (js "KnowledgeAgent") t (Some srcs)).

Definition handleWebSearchQuery (prompt : jsstring) : M Message :=
  let searchPrompt :=
    js "You are a web search agent. Find relevant information for the query and provide a concise answer with 2-3 simulated markdown links. Query: "
    ++ dq ++ prompt ++ dq in
  t <- callGeminiAPI searchPrompt None ;;
  ret (agentMessage (js "WebSearchAgent") t None).

Definition handleCodeGenerationQuery (prompt : jsstring) : M Message :=
  let codePrompt :=
    js "You are a code generation agent. Generate a code snippet for the request. Provide only the code in a markdown block. Request: "
    ++ dq ++ prompt ++ dq in
  t <- callGeminiAPI codePrompt None ;;
  ret (agentMessage (js "CodeGenerationAgent") t None).

Definition handleSummarizationQuery (prompt : jsstring) : M Message :=
  let file := find_file (fun f => str_eqb (name f) prompt) (uploadedFiles snap) in
  let textToSummarize :=
    match file with
    | Some f => textContent f
    | None => Some prompt
    end in
  match textToSummarize with
  | Some (c :: rest) =>
      let summaryPrompt :=
        js "Provide a concise, professional summary of the following text:" ++ nl ++ nl
        ++ js "--- TEXT ---" ++ nl ++ (c :: rest) ++ nl ++ js "--- END TEXT ---" in
      t <- callGeminiAPI summaryPrompt None ;;
      ret (agentMessage (js "SummarizationAgent") t None)
  | _ =>
      ret (agentMessage (js "SummarizationAgent")
             (TStr (js "Error: Could not find document or text to summarize for " ++ dq ++ prompt ++ dq ++ js "."))
             None)
  end.

Definition handleImageAnalysisQuery (prompt : jsstring) : M Message :=
  match attachedImage snap with
  | None =>
      ret (agentMessage (js "ImageAnalysisAgent") (TStr (js "Error: No image was attached.")) None)
  | Some img =>
      t <- callGeminiAPI prompt (Some img) ;;
      setAttachedImage None ;;
      ret (agentMessage (js "ImageAnalysisAgent") t None)
  end.

Definition callAgent (agentName prompt : jsstring) : M Message :=
  emit (EvDispatch agentName prompt) ;;
  if str_eqb agentName (js "KnowledgeAgent") then handleKnowledgeQuery prompt
  else if str_eqb agentName (js "WebSearchAgent") then handleWebSearchQuery prompt
  else if str_eqb agentName (js "CodeGenerationAgent") then handleCodeGenerationQuery prompt
  else if str_eqb agentName (js "SummarizationAgent") then handleSummarizationQuery prompt
  else if str_eqb agentName (js "ImageAnalysisAgent") then handleImageAnalysisQuery prompt
  else
    ret (agentMessage agentName
           (TStr (js "Error: Unknown agent " ++ dq ++ agentName ++ dq ++ js "."))
           None).

(** The message shown while a step runs. *)
Definition thinkingMessage (st : PlanStep) (i n : nat) (currentPrompt : jsstring) : Message :=
  mkMessage (js "model") (Some (agent st)) None None None true
    (Some (mkStepInfo (i + 1) n currentPrompt)) None None.

(** [{ ...agentResponse, finalStep }]. *)
Definition withFinalStep (m : Message) (b : bool) : Message :=
  mkMessage (role m) (msg_agent m) (parts m) (image m) (msg_plan m) (thinking m)
    (step m) (sources m) (Some b).

(** The body of [executePlan]'s loop from index [i] on, [steps] being
    [plan.slice(i)] and [n] being [plan.length]. *)
Fixpoint executePlan_from (n : nat) (steps : list PlanStep) (i : nat)
    (stepOutputs : StepOutputs) : M unit :=
  match steps with
  | [] => ret tt
  | st :: rest =>
      let currentPrompt := substitute stepOutputs (prompt st) in
      setChatHistory (fun prev => prev ++ [thinkingMessage st i n currentPrompt]) ;;
      agentResponse <- callAgent (agent st) currentPrompt ;;
      t <- first_text agentResponse ;;
      let stepOutputs' := obj_set stepOutputs (stepKey (i + 1)) t in
      setChatHistory (fun prev => removelast prev ++ [withFinalStep agentResponse (i =? n - 1)]) ;;
      executePlan_from n rest (S i) stepOutputs'
  end.

Definition executePlan (plan : list PlanStep) : M unit :=
  executePlan_from (length plan) plan 0 [].

(** [conversationHistory.map(m => `${m.role}: ${m.parts[0].text}`).join('\n')]. *)
Definition historyString (conversationHistory : list Message) : M jsstring :=
  lines <- mapM (fun m => t <- first_text m ;; ret (role m ++ js ": " ++ ToString t))
             conversationHistory ;;
  ret (join nl lines).

Definition plannerPrompt (historyStr request : jsstring) : jsstring :=
  nl
  ++ js "You are an expert planning agent. Your job is to analyze a user's prompt and the recent conversation history, then create a step-by-step plan to fulfill the request." ++ nl
  ++ js "You have access to the following agents:" ++ nl
  ++ js "- KnowledgeAgent: Searches through uploaded documents to answer questions." ++ nl
  ++ js "- WebSearchAgent: Searches the web for real-time information." ++ nl
  ++ js "- CodeGenerationAgent: Writes code in various programming languages." ++ nl
  ++ js "- ImageAnalysisAgent: Analyzes an attached image." ++ nl
  ++ js "- SummarizationAgent: Summarizes a given text or document." ++ nl
  ++ nl
  ++ js "Based on the user's prompt, create a JSON plan. The plan should be an array of steps. Each step must have an "
  ++ dq ++ js "agent" ++ dq ++ js " and a " ++ dq ++ js "prompt" ++ dq ++ js "." ++ nl
  ++ js "The " ++ dq ++ js "prompt" ++ dq
  ++ js " for a step can be the original user prompt, or it can be the output of a previous step, which you can represent with the placeholder "
  ++ dq ++ js "{{step_1_output}}" ++ dq ++ js ", " ++ dq ++ js "{{step_2_output}}" ++ dq ++ js ", etc." ++ nl
  ++ nl
  ++ js "Conversation History:" ++ nl
  ++ historyStr ++ nl
  ++ nl
  ++ js "User Prompt: " ++ dq ++ request ++ dq ++ nl
  ++ nl
  ++ js "Generate the JSON plan now." ++ nl.

(** The [try] block of [callPlanner]: [None] when it throws ([match] on a
    response that is no string, or [JSON.parse] on text that is no JSON). *)
Definition parsePlan (planJsonString : JSText) : option JSValue :=
  match planJsonString with
  | TStr s =>
      match fence_match s with
      | Some (c :: captured) => JSON_parse (c :: captured)
      | _ => JSON_parse s
      end
  | _ => None
  end.

Definition callPlanner (request : jsstring) (conversationHistory : list Message) : M JSValue :=
  historyStr <- historyString conversationHistory ;;
  planJsonString <- callGeminiAPI (plannerPrompt historyStr request) None ;;
  match parsePlan planJsonString with
  | Some plan => ret plan
  | None =>
      emit (EvConsoleError (js "Failed to parse plan:")) ;;
      ret (fallbackPlan request)
  end.

(** [parseFileContent(file)]: the extracted text, or [null] (with the error
    shown) when the extraction throws. *)
Definition parseFileContent (file : BrowserFile) : M (option jsstring) :=
  fun w =>
    match extractText (trace w) file with
    | Some t => (Ok (Some t), w)
    | None =>
        (emit (EvConsoleError (js "Failed to parse " ++ bf_name file ++ js ":")) ;;
         setError (Some (js "Could not parse " ++ bf_name file ++ js ".")) ;;
         ret None) w
    end.

(** [chunkText(textContent)] with the default parameters.  With them the
    loop returns within [length textContent + 1] tests
    ([chunkText_default_returns]): the second branch is never taken. *)
Definition chunkText_default (textContent : jsstring) : M (list jsstring) :=
  match chunkText textContent default_chunkSize default_overlap with
  | Some chunks => ret chunks
  | None => hang
  end.

(** [chunks.map((chunk, i) => ({ fileName, chunk, embedding: embeddings[i] }))]. *)
Definition zipRecords (fname : jsstring) (chunks : list jsstring)
    (embeddings : list (option (list float))) : list VectorRecord :=
  map (fun ce => mkVectorRecord fname (fst ce) (snd ce)) (combine chunks embeddings).

(** [.filter(v => v.embedding)]. *)
Definition hasEmbedding (v : VectorRecord) : bool :=
  match embedding v with
  | Some _ => true
  | None => false
  end.

(** [{ ...f, textContent }]. *)
Definition withTextContent (f : FileData) (t : jsstring) : FileData :=
  mkFileData (name f) (type_ f) (fileObject f) (content f) (Some t).

(** One turn of the loop over [files] in [processAndEmbedFiles]. *)
Definition embedFile (file : FileData) (newVectors : list VectorRecord) : M (list VectorRecord) :=
  if isImageType (type_ file) then ret newVectors
  else
    parsed <- parseFileContent (fileObject file) ;;
    match parsed with
    | Some (c :: rest) =>
        let t := c :: rest in
        setUploadedFiles (map (fun f => if str_eqb (name f) (name file) then withTextContent f t else f)) ;;
        chunks <- chunkText_default t ;;
        embeddings <- mapM getClientSideEmbedding chunks ;;
        ret (newVectors ++ filter hasEmbedding (zipRecords (name file) chunks embeddings))
    | _ => ret newVectors
    end.

Definition processAndEmbedFiles (files : list FileData) : M unit :=
  if negb (ready (modelStatus snap)) then setError (Some (js "Document model not ready."))
  else
    setIsIndexing true ;;
    newVectors <- forM files [] embedFile ;;
    setVectorStore (fun prev => prev ++ newVectors) ;;
    setIsIndexing false.

Definition removeFile (fname : jsstring) : M unit :=
  setUploadedFiles (filter (fun f => negb (str_eqb (name f) fname))) ;;
  setVectorStore (filter (fun v => negb (str_eqb (fileName v) fname))) ;;
  match attachedImage snap with
  | Some img => if str_eqb (name img) fname then setAttachedImage None else ret tt
  | None => ret tt
  end.

End Handlers.

End App.
Import App.

(* ================================================================== *)
(** * The message renderer [_MessageContent] *)
(* ================================================================== *)

Module Render.

Definition lbracket : N := 91%N.
Definition rbracket : N := 93%N.
Definition lparen : N := 40%N.
Definition rparen : N := 41%N.

(** The three backticks of a fence. *)
Definition ticks : jsstring := js "```".

(** The class [\w]: a letter, a digit or the underscore. *)
Definition isWord (c : N) : bool :=
  ((48 <=? c) && (c <=? 57) || (65 <=? c) && (c <=? 90) || (c =? 95)
   || (97 <=? c) && (c <=? 122))%N.

(** The longest prefix of [s] whose units satisfy [p], and the rest. *)
Fixpoint span (p : N -> bool) (s : jsstring) : jsstring * jsstring :=
  match s with
  | [] => ([], [])
  | c :: s' =>
      if p c then let (run, rest) := span p s' in (c :: run, rest)
      else ([], s)
  end.

(** [text.includes(pat)]. *)
Definition includes (pat s : jsstring) : bool :=
  match split_first pat s with
  | Some _ => true
  | None => false
  end.

(** [text.match(/```(\w+)/)?.[1]]: the capture of the leftmost match, the
    run of word characters after the leftmost fence that has one. *)
Fixpoint match_lang (s : jsstring) : option jsstring :=
  let here :=
    match strip_prefix ticks s with
    | Some rest =>
        match span isWord rest with
        | (c :: run, _) => Some (c :: run)
        | ([], _) => None
        end
    | None => None
    end in
  match here with
  | Some lang => Some lang
  | None =>
      match s with
      | [] => None
      | _ :: s' => match_lang s'
      end
  end.

(** [text.replace(/```\w*\n?/, '')]: the leftmost fence goes, with the word
    characters after it and one line feed if there is one. *)
Definition strip_fence_open (s : jsstring) : jsstring :=
  match split_first ticks s with
  | None => s
  | Some (before, after) =>
      let (_, rest) := span isWord after in
      before ++ match rest with
                | c :: rest' => if N.eqb c 10 then rest' else rest
                | [] => []
                end
  end.

(** [s.replace(/```$/, '')]: a fence at the very end of the text goes. *)
Fixpoint strip_fence_end (s : jsstring) : jsstring :=
  match strip_prefix ticks s with
  | Some [] => []
  | _ =>
      match s with
      | [] => []
      | c :: s' => c :: strip_fence_end s'
      end
  end.

(** The regular expression of the links, [\[([^\]]+)\]\(([^)]+)\)], matched
    at the start of [s]: the two captures and the text after the match.
    Each class is followed by the one character it excludes, so the greedy
    run is the only way to match. *)
Definition match_link (s : jsstring) : option (jsstring * jsstring * jsstring) :=
  match s with
  | c :: s1 =>
      if N.eqb c lbracket then
        let (label, r1) := span (fun c => negb (N.eqb c rbracket)) s1 in
        match label, r1 with
        | _ :: _, c1 :: c2 :: r2 =>
            if N.eqb c1 rbracket && N.eqb c2 lparen then
              let (href, r3) := span (fun c => negb (N.eqb c rparen)) r2 in
              match href, r3 with
              | _ :: _, c3 :: rest => if N.eqb c3 rparen then Some (label, href, rest) else None
              | _, _ => None
              end
            else None
        | _, _ => None
        end
      else None
  | [] => None
  end.

(** The loop of [text.split(linkRegex)] on a text that is not empty: [cur]
    is the text since the end of the last match, [s] the text from the
    place tried next; a match puts [cur] and the two captures in the array.
    Every turn uses up a character of [s], so [length s] turns are enough
    ([split_from_enough] below). *)
Fixpoint split_from (fuel : nat) (cur s : jsstring) : list jsstring :=
  match fuel with
  | O => [cur ++ s]
  | S fuel' =>
      match s with
      | [] => [cur]
      | c :: s' =>
          match match_link s with
          | Some (label, href, rest) => cur :: label :: href :: split_from fuel' [] rest
          | None => split_from fuel' (cur ++ [c]) s'
          end
      end
  end.

Definition split_links (s : jsstring) : list jsstring :=
  split_from (length s) [] s.

(** What is rendered: nothing, a code block, or a paragraph whose children
    are strings, anchors and [null]s. *)
Inductive Inline : Type :=
| Plain (s : jsstring)
| Anchor (label : jsstring) (href : option jsstring)
| Null.

Inductive Rendered : Type :=
| RNothing
| RCodeBlock (language code : jsstring)
| RParagraph (children : list Inline).

(** [parts.map((part, i) => ...)] from index [i] on. *)
Fixpoint render_parts (parts rest : list jsstring) (i : nat) : list Inline :=
  match rest with
  | [] => []
  | part :: rest' =>
      (if i mod 3 =? 1 then Anchor part (nth_error parts (i + 1))
       else if i mod 3 =? 0 then Plain part
       else Null)
      :: render_parts parts rest' (S i)
  end.

Definition _MessageContent (text : JSText) (agent : option jsstring) : Rendered :=
  match text with
  | TStr (c :: t) =>
      let text := c :: t in
      let isCode :=
        match agent with
        | Some a => str_eqb a (js "CodeGenerationAgent")
        | None => false
        end in
      if isCode && includes ticks text then
        let lang := match match_lang text with Some l => l | None => [] end in
        let code := strip_fence_end (strip_fence_open text) in
        RCodeBlock lang code
      else
        let parts := split_links text in
        RParagraph (render_parts parts parts 0)
  | _ => RNothing
  end.

End Render.
Import Render.


(* ================================================================== *)
(** * Facts about the chunker *)
(* ================================================================== *)

Lemma firstn_min_length {A} (n : nat) (l : list A) : firstn (Nat.min n (length l)) l = firstn n l.
Proof.
  destruct (Nat.le_ge_cases n (length l)).
  - now rewrite Nat.min_l.
  - rewrite Nat.min_r by assumption. rewrite firstn_all. symmetry. now apply firstn_all2.
Qed.

Lemma substring_window (s : jsstring) (a b : Z) :
  (0 <= a <= b)%Z ->
  substring s a b = firstn (Z.to_nat (b - a)) (skipn (Z.to_nat a) s).
Proof.
  intros H. unfold substring, clamp.
  set (L := length s).
  assert (Ha : Z.to_nat (Z.min (Z.max a 0) (Z.of_nat L)) = Nat.min (Z.to_nat a) L) by lia.
  assert (Hb : Z.to_nat (Z.min (Z.max b 0) (Z.of_nat L)) = Nat.min (Z.to_nat b) L) by lia.
  rewrite Ha, Hb.
  replace (Nat.min (Nat.min (Z.to_nat a) L) (Nat.min (Z.to_nat b) L)) with (Nat.min (Z.to_nat a) L) by lia.
  replace (Nat.max (Nat.min (Z.to_nat a) L) (Nat.min (Z.to_nat b) L)) with (Nat.min (Z.to_nat b) L) by lia.
  destruct (Nat.le_ge_cases (Z.to_nat a) L) as [Hle | Hge].
  - rewrite (Nat.min_l (Z.to_nat a) L) by assumption.
    replace (Nat.min (Z.to_nat b) L - Z.to_nat a) with (Nat.min (Z.to_nat (b - a)) (length (skipn (Z.to_nat a) s))).
    + apply firstn_min_length.
    + rewrite length_skipn. fold L. lia.
  - rewrite (Nat.min_r (Z.to_nat a) L) by assumption.
    rewrite !skipn_all2 by (fold L; lia). now rewrite !firstn_nil.
Qed.

Lemma ceil_div_nonpos (a d : Z) : (0 < d)%Z -> (a <= 0)%Z -> (ceil_div a d <= 0)%Z.
Proof.
  intros Hd Ha. unfold ceil_div.
  destruct (Z.eq_dec (a + d - 1) (d - 1)%Z) as [E | E].
  - rewrite E. rewrite Z.div_small; lia.
  - assert ((a + d - 1) / d < 1)%Z; [ apply Z.div_lt_upper_bound; lia | lia ].
Qed.

Lemma ceil_div_step (a d : Z) :
  (0 < d)%Z -> (0 < a)%Z ->
  (ceil_div a d = 1 + ceil_div (a - d) d)%Z /\ (0 <= ceil_div (a - d) d)%Z.
Proof.
  intros Hd Ha. unfold ceil_div. split.
  - replace (a + d - 1)%Z with ((a - d + d - 1) + 1 * d)%Z by lia.
    rewrite Z.div_add by lia. lia.
  - apply Z.div_pos; lia.
Qed.

Lemma ceil_div_le (a d : Z) : (0 < d)%Z -> (0 <= a)%Z -> (ceil_div a d <= a)%Z.
Proof.
  intros Hd Ha. unfold ceil_div.
  destruct (Z.eq_dec a 0) as [-> | Hn].
  - rewrite Z.div_small; lia.
  - apply Z.lt_succ_r. apply Z.div_lt_upper_bound; nia.
Qed.

Section ChunkerFacts.

Variable text : jsstring.
Variables chunkSize overlap : Z.

(** The chunks read off the text directly: [n] windows from offset [i] on. *)
Fixpoint windows (n : nat) (i : Z) : list jsstring :=
  match n with
  | O => []
  | S n' => substring text i (i + chunkSize) :: windows n' (i + (chunkSize - overlap))
  end.

Lemma chunkText_loop_acc (fuel : nat) : forall i chunks,
  chunkText_loop fuel text chunkSize overlap i chunks
  = option_map (app chunks) (chunkText_loop fuel text chunkSize overlap i []).
Proof.
  induction fuel as [| fuel IH]; intros i chunks; simpl.
  - reflexivity.
  - destruct (i <? Z.of_nat (length text))%Z.
    + rewrite IH. rewrite (IH _ [_]).
      destruct (chunkText_loop fuel text chunkSize overlap _ []); simpl.
      * now rewrite <- app_assoc.
      * reflexivity.
    + simpl. now rewrite app_nil_r.
Qed.

Lemma chunkText_loop_windows (fuel : nat) : forall i,
  (0 < chunkSize - overlap)%Z ->
  Z.to_nat (ceil_div (Z.of_nat (length text) - i) (chunkSize - overlap)) < fuel ->
  chunkText_loop fuel text chunkSize overlap i []
  = Some (windows (Z.to_nat (ceil_div (Z.of_nat (length text) - i) (chunkSize - overlap))) i).
Proof.
  induction fuel as [| fuel IH]; intros i Hd Hfuel; [lia |].
  simpl. destruct (Z.ltb_spec i (Z.of_nat (length text))) as [Hlt | Hge].
  - destruct (ceil_div_step (Z.of_nat (length text) - i) (chunkSize - overlap)) as [E Hpos]; [lia .. |].
    rewrite chunkText_loop_acc.
    replace (Z.of_nat (length text) - i - (chunkSize - overlap))%Z
      with (Z.of_nat (length text) - (i + (chunkSize - overlap)))%Z in * by lia.
    rewrite IH by lia.
    rewrite E. rewrite Z2Nat.inj_add by lia. simpl. reflexivity.
  - pose proof (ceil_div_nonpos (Z.of_nat (length text) - i) (chunkSize - overlap) Hd).
    replace (Z.to_nat _) with 0 by lia. reflexivity.
Qed.

Lemma chunkText_loop_stuck (fuel : nat) : forall i chunks,
  (chunkSize - overlap <= 0)%Z -> (i < Z.of_nat (length text))%Z ->
  chunkText_loop fuel text chunkSize overlap i chunks = None.
Proof.
  induction fuel as [| fuel IH]; intros i chunks Hd Hi; simpl; [reflexivity |].
  destruct (Z.ltb_spec i (Z.of_nat (length text))); [| lia].
  apply IH; lia.
Qed.

Lemma chunkText_loop_mono (fuel : nat) : forall i chunks r,
  chunkText_loop fuel text chunkSize overlap i chunks = Some r ->
  chunkText_loop (S fuel) text chunkSize overlap i chunks = Some r.
Proof.
  induction fuel as [| fuel IH]; intros i chunks r H; [discriminate |].
  simpl in H. cbn [chunkText_loop].
  destruct (i <? Z.of_nat (length text))%Z; [| exact H].
  apply IH in H. exact H.
Qed.

Lemma chunkText_loop_mono_le (fuel fuel' : nat) i chunks r :
  fuel <= fuel' ->
  chunkText_loop fuel text chunkSize overlap i chunks = Some r ->
  chunkText_loop fuel' text chunkSize overlap i chunks = Some r.
Proof.
  intros Hle. induction Hle as [| m Hle IH]; [trivial |].
  intros Hr. apply chunkText_loop_mono. auto.
Qed.

Lemma chunkText_windows :
  (0 < chunkSize - overlap)%Z ->
  chunkText text chunkSize overlap
  = Some (windows (Z.to_nat (ceil_div (Z.of_nat (length text)) (chunkSize - overlap))) 0).
Proof.
  intros Hd. unfold chunkText.
  rewrite chunkText_loop_windows; rewrite ?Z.sub_0_r; try assumption; [reflexivity |].
  pose proof (ceil_div_le (Z.of_nat (length text)) _ Hd). lia.
Qed.

(** A loop that ends for some budget ends within [length text + 1] tests. *)
Lemma chunkText_fuel_enough (fuel : nat) (r : list jsstring) :
  chunkText_loop fuel text chunkSize overlap 0 [] = Some r ->
  chunkText text chunkSize overlap = Some r.
Proof.
  intros H.
  destruct (Z.lt_ge_cases 0 (chunkSize - overlap)) as [Hd | Hd].
  - rewrite chunkText_windows by assumption.
    rewrite <- (chunkText_loop_mono_le fuel (Nat.max fuel (S (length text))) 0 [] r (Nat.le_max_l _ _) H).
    rewrite chunkText_loop_windows; rewrite ?Z.sub_0_r; try assumption; [reflexivity |].
    pose proof (ceil_div_le (Z.of_nat (length text)) _ Hd). lia.
  - destruct (Z.ltb_spec 0 (Z.of_nat (length text))) as [Hlt | Hge].
    + rewrite chunkText_loop_stuck in H; [discriminate | lia | lia].
    + destruct fuel; [discriminate |]. unfold chunkText. cbn [chunkText_loop] in *.
      destruct (Z.ltb_spec 0 (Z.of_nat (length text))); [lia | exact H].
Qed.

Lemma windows_length (n : nat) : forall i, length (windows n i) = n.
Proof. induction n; intros; simpl; auto. Qed.

Lemma windows_nth (n : nat) : forall i k,
  k < n ->
  nth_error (windows n i) k
  = Some (substring text (i + Z.of_nat k * (chunkSize - overlap))
            (i + Z.of_nat k * (chunkSize - overlap) + chunkSize)).
Proof.
  induction n as [| n IH]; intros i k Hk; [lia |].
  destruct k as [| k]; simpl windows; cbn [nth_error].
  - f_equal. f_equal; lia.
  - rewrite IH by lia. f_equal. f_equal; lia.
Qed.

End ChunkerFacts.

Lemma firstn_plus {A} (a b : nat) (l : list A) :
  firstn (a + b) l = firstn a l ++ firstn b (skipn a l).
Proof.
  revert l. induction a as [| a IH]; intros l; simpl; [reflexivity |].
  destruct l as [| x l]; simpl.
  - now rewrite firstn_nil.
  - now rewrite IH.
Qed.

Lemma ceil_div_nonneg (a d : Z) : (0 < d)%Z -> (0 <= a)%Z -> (0 <= ceil_div a d)%Z.
Proof. intros. unfold ceil_div. apply Z.div_pos; lia. Qed.

Lemma ceil_div_covers (a d k : Z) :
  (0 < d)%Z -> (k < ceil_div a d)%Z -> (k * d < a)%Z.
Proof.
  intros Hd Hk. unfold ceil_div in Hk.
  pose proof (Z.mul_div_le (a + d - 1) d Hd). nia.
Qed.

Lemma window_as_list (text : jsstring) (chunkSize d : Z) (k : nat) :
  (0 <= d)%Z -> (0 <= chunkSize)%Z ->
  substring text (0 + Z.of_nat k * d) (0 + Z.of_nat k * d + chunkSize)
  = firstn (Z.to_nat chunkSize) (skipn (k * Z.to_nat d) text).
Proof.
  intros Hd Hs. rewrite substring_window by nia.
  f_equal; [f_equal; lia |]. f_equal.
  rewrite Z.add_0_l, Z2Nat.inj_mul, Nat2Z.id by lia. reflexivity.
Qed.

(** C5.  For [0 <= overlap < chunkSize], [chunkText] returns, and it
    returns [ceil(L / (chunkSize - overlap))] chunks for a text of length
    [L].  The chunk at position [k] is the text from offset
    [k * (chunkSize - overlap)] on, cut after [chunkSize] characters: it is
    never empty and never longer than [chunkSize].  Two adjacent chunks agree
    on their overlap (what is left of a chunk after its first
    [chunkSize - overlap] characters is the first [overlap] characters of the
    next), and the first [chunkSize - overlap] characters of a chunk followed
    by the next chunk are the text at that place.  The result is empty
    exactly when the text is. *)
Theorem chunkText_correct (text : jsstring) (chunkSize overlap : Z) :
  (0 <= overlap < chunkSize)%Z ->
  exists chunks,
    chunkText text chunkSize overlap = Some chunks /\
    Z.of_nat (length chunks)
      = ceil_div (Z.of_nat (length text)) (chunkSize - overlap) /\
    (forall k c, nth_error chunks k = Some c ->
       c = firstn (Z.to_nat chunkSize) (skipn (k * Z.to_nat (chunkSize - overlap)) text) /\
       (Z.of_nat (length c) <= chunkSize)%Z /\
       c <> []) /\
    (forall k c c', nth_error chunks k = Some c -> nth_error chunks (S k) = Some c' ->
       skipn (Z.to_nat (chunkSize - overlap)) c = firstn (Z.to_nat overlap) c' /\
       firstn (Z.to_nat (chunkSize - overlap)) c ++ c'
       = firstn (Z.to_nat (chunkSize - overlap) + Z.to_nat chunkSize)
           (skipn (k * Z.to_nat (chunkSize - overlap)) text)) /\
    (chunks = [] <-> text = []).
Proof.
  intros Hso.
  set (d := (chunkSize - overlap)%Z) in *.
  assert (Hd : (0 < d)%Z) by (unfold d; lia).
  set (n := Z.to_nat (ceil_div (Z.of_nat (length text)) d)).
  pose proof (ceil_div_nonneg (Z.of_nat (length text)) d Hd (Nat2Z.is_nonneg _)) as Hn0.
  assert (Hnth : forall k c, nth_error (windows text chunkSize overlap n 0) k = Some c ->
            k < n /\ c = firstn (Z.to_nat chunkSize) (skipn (k * Z.to_nat d) text)).
  { intros k c Hk.
    assert (Hlt : k < n).
    { rewrite <- (windows_length text chunkSize overlap n 0). apply nth_error_Some. congruence. }
    split; [exact Hlt |].
    rewrite windows_nth in Hk by exact Hlt. fold d in Hk.
    rewrite window_as_list in Hk by lia. congruence. }
  exists (windows text chunkSize overlap n 0).
  split; [apply chunkText_windows; exact Hd |].
  split; [rewrite windows_length; unfold n; lia |].
  split; [| split].
  - intros k c Hk. destruct (Hnth k c Hk) as [Hlt ->].
    split; [reflexivity |]. split.
    + rewrite length_firstn. lia.
    + assert (Hcov : (Z.of_nat k * d < Z.of_nat (length text))%Z)
        by (apply (ceil_div_covers _ d _ Hd); unfold n in Hlt; lia).
      intros Hnil. apply (f_equal (@length N)) in Hnil.
      rewrite length_firstn, length_skipn in Hnil. simpl in Hnil.
      assert (k * Z.to_nat d < length text) by nia. lia.
  - intros k c c' Hk Hk'.
    destruct (Hnth k c Hk) as [_ ->]. destruct (Hnth (S k) c' Hk') as [_ ->].
    assert (Hskip : skipn (S k * Z.to_nat d) text
                    = skipn (Z.to_nat d) (skipn (k * Z.to_nat d) text)).
    { rewrite skipn_skipn. f_equal; lia. }
    rewrite Hskip.
    set (X := skipn (k * Z.to_nat d) text).
    replace (Z.to_nat chunkSize) with (Z.to_nat d + Z.to_nat overlap) at 1 2 by (unfold d; lia).
    split.
    + rewrite firstn_plus, skipn_app, skipn_firstn_comm.
      rewrite length_firstn.
      rewrite firstn_firstn.
      destruct (Nat.le_ge_cases (Z.to_nat d) (length X)) as [Hle | Hge].
      * rewrite Nat.min_l by exact Hle. rewrite Nat.sub_diag. simpl.
        replace (Z.to_nat d - Z.to_nat d) with 0 by lia. simpl.
        f_equal. unfold d. lia.
      * rewrite (skipn_all2 X) by exact Hge. now rewrite !firstn_nil, !skipn_nil.
    + rewrite firstn_firstn. rewrite Nat.min_l by lia.
      rewrite <- firstn_plus. reflexivity.
  - split.
    + intros Hnil. apply (f_equal (@length jsstring)) in Hnil.
      rewrite windows_length in Hnil. simpl in Hnil.
      destruct text as [| c t]; [reflexivity | exfalso].
      destruct (ceil_div_step (Z.of_nat (length (c :: t))) d Hd) as [E Hp]; [simpl; lia |].
      unfold n in Hnil. lia.
    + intros ->. unfold n. simpl. unfold ceil_div.
      replace (Z.to_nat _) with 0; [reflexivity |].
      rewrite Z.div_small by lia. reflexivity.
Qed.

Lemma chunkText_correct_witness :
  exists chunks,
    chunkText (js "The sky is blue. Grass is green.") 20 5 = Some chunks /\
    Z.of_nat (length chunks) = ceil_div 32 15 /\
    chunks = [js "The sky is blue. Gra"; js ". Grass is green."; js "n."].
Proof.
  destruct (chunkText_correct (js "The sky is blue. Grass is green.") 20 5 ltac:(lia))
    as (chunks & Hrun & Hlen & _).
  exists chunks. split; [exact Hrun |]. split; [exact Hlen |].
  vm_compute in Hrun. injection Hrun as <-. vm_compute. reflexivity.
Defined.

(** The bounded array changes nothing for a call whose chunks fit in it. *)
Lemma chunkText_run_agrees (capacity : N) (text : jsstring) (chunkSize overlap : Z)
    (fuel : nat) : forall i chunks r,
  chunkText_loop fuel text chunkSize overlap i chunks = Some r ->
  (N.of_nat (length r) <= capacity)%N ->
  chunkText_run capacity fuel text chunkSize overlap i chunks = Some (Returns r).
Proof.
  induction fuel as [| fuel IH]; intros i chunks r Hr Hcap; [discriminate |].
  cbn [chunkText_loop chunkText_run] in *.
  destruct (i <? Z.of_nat (length text))%Z; [| congruence].
  assert (Hlen : length chunks < length r).
  { pose proof (chunkText_loop_acc text chunkSize overlap fuel
                  (i + (chunkSize - overlap))%Z (chunks ++ [substring text i (i + chunkSize)%Z])) as Hacc.
    rewrite Hr in Hacc.
    destruct (chunkText_loop fuel text chunkSize overlap (i + (chunkSize - overlap)) [])
      as [tl |] eqn:E; [| discriminate].
    injection Hacc as ->. rewrite !length_app. simpl. lia. }
  destruct (N.ltb_spec (N.of_nat (length chunks)) capacity); [| lia].
  apply IH; assumption.
Qed.

(** With a step that is not positive the condition of the loop never fails:
    the array fills up, and the [push] that finds it full throws. *)
Lemma chunkText_run_full (capacity : N) (text : jsstring) (chunkSize overlap : Z)
    (fuel : nat) : forall i chunks,
  (chunkSize - overlap <= 0)%Z -> (i < Z.of_nat (length text))%Z ->
  (N.of_nat (length chunks) <= capacity)%N ->
  ((N.of_nat (length chunks + fuel) <= capacity)%N ->
     chunkText_run capacity fuel text chunkSize overlap i chunks = None)
  /\ ((capacity < N.of_nat (length chunks + fuel))%N ->
      exists pushed,
        chunkText_run capacity fuel text chunkSize overlap i chunks
        = Some (ThrowsRangeError pushed)
        /\ N.of_nat (length pushed) = capacity).
Proof.
  induction fuel as [| fuel IH]; intros i chunks Hd Hi Hc.
  - split; [reflexivity | intros H; lia].
  - cbn [chunkText_run].
    destruct (Z.ltb_spec i (Z.of_nat (length text))); [| lia].
    destruct (N.ltb_spec (N.of_nat (length chunks)) capacity) as [Hlt | Hge].
    + destruct (IH (i + (chunkSize - overlap))%Z
                  (chunks ++ [substring text i (i + chunkSize)%Z])) as [IH1 IH2];
        [lia | lia | rewrite length_app; simpl; lia |].
      rewrite length_app in IH1, IH2. simpl in IH1, IH2.
      split; intros H1; [apply IH1 | apply IH2]; lia.
    + split; [intros H1; lia |].
      intros _. exists chunks. split; [reflexivity | lia].
Qed.

(** C6 (as amended).  [chunkText] does not check its parameters and reports
    no configuration error.  For [overlap >= chunkSize] it returns the empty
    list on the empty text.  On any other text the offset never gets past
    the first character, so the loop never ends through its condition: it
    pushes a chunk at every turn until the array is full, and the [push]
    that finds it full throws [RangeError]; the call returns no chunks.
    This holds for every bound of the array: the language's
    [maxArrayLength], or the smaller one of an engine. *)
Theorem chunkText_unchecked_overlap (text : jsstring) (chunkSize overlap : Z) :
  (chunkSize <= overlap)%Z ->
  (text = [] ->
     forall capacity fuel,
       chunkText_run capacity (S fuel) text chunkSize overlap 0 [] = Some (Returns [])) /\
  (text <> [] ->
     forall capacity fuel,
       ((N.of_nat fuel <= capacity)%N ->
          chunkText_run capacity fuel text chunkSize overlap 0 [] = None)
       /\ ((capacity < N.of_nat fuel)%N ->
           exists pushed,
             chunkText_run capacity fuel text chunkSize overlap 0 []
             = Some (ThrowsRangeError pushed)
             /\ N.of_nat (length pushed) = capacity)).
Proof.
  intros Hso. split.
  - intros -> capacity fuel. reflexivity.
  - intros Hne capacity fuel.
    assert (Hlen : (0 < Z.of_nat (length text))%Z) by (destruct text; [congruence | simpl; lia]).
    apply (chunkText_run_full capacity text chunkSize overlap fuel 0%Z []); simpl; lia.
Qed.

Lemma chunkText_unchecked_overlap_witness :
  chunkText_run maxArrayLength 1 [] 2 2 0 [] = Some (Returns [])
  /\ chunkText_run maxArrayLength 1000 (js "abc") 2 2 0 [] = None
  /\ exists pushed,
       chunkText_run 3 4 (js "abc") 2 2 0 [] = Some (ThrowsRangeError pushed)
       /\ N.of_nat (length pushed) = 3%N.
Proof.
  destruct (chunkText_unchecked_overlap (js "abc") 2 2 ltac:(lia)) as [_ Hne].
  destruct (chunkText_unchecked_overlap [] 2 2 ltac:(lia)) as [He _].
  split; [apply He; reflexivity |].
  split.
  - apply (Hne ltac:(discriminate) maxArrayLength 1000). vm_compute. discriminate.
  - apply (Hne ltac:(discriminate) 3%N 4). reflexivity.
Defined.

(** With [overlap >= chunkSize] no configuration error is reported and the
    call is not stopped before it acts: on the empty text it returns the
    empty list; on ["abc"] it is still pushing chunks after a thousand
    turns, and with room for three chunks only it pushes the three (here
    ["ab"] three times) before the fourth [push] throws [RangeError]. *)
Lemma chunkText_overlap_not_rejected :
  chunkText_run maxArrayLength 1 [] 5 5 0 [] = Some (Returns [])
  /\ chunkText_run maxArrayLength 1000 (js "abc") 2 2 0 [] = None
  /\ chunkText_run 3 1000 (js "abc") 2 2 0 []
     = Some (ThrowsRangeError [js "ab"; js "ab"; js "ab"]).
Proof. vm_compute. repeat split. Qed.

(** With the default parameters the call returns for every text. *)
Lemma chunkText_default_returns (text : jsstring) :
  exists chunks, chunkText text default_chunkSize default_overlap = Some chunks.
Proof.
  eexists. apply chunkText_windows. unfold default_chunkSize, default_overlap. lia.
Qed.
(* ================================================================== *)
(** * IEEE doubles: the facts the similarity ranking rests on *)
(* ================================================================== *)

(** JavaScript numbers are IEEE 754 doubles.  The facts below are about the
    doubles themselves: their order, how [NaN] spreads through the
    arithmetic, and the sign of a difference, on which the comparator of
    [findSimilarChunks] relies. *)

Module FloatFacts.
Import SpecFloat FloatOps FloatAxioms PrimFloat.

(** ** The order of [SFcompare] *)

Definition notNaN (x : spec_float) : Prop := x <> S754_nan.

Ltac cmp_cases :=
  repeat match goal with
         | |- context [Z.compare ?a ?b] => destruct (Z.compare_spec a b)
         | H : context [Z.compare ?a ?b] |- _ => destruct (Z.compare_spec a b)
         | |- context [Pos.compare_cont Eq ?a ?b] =>
             change (Pos.compare_cont Eq a b) with (Pos.compare a b);
             destruct (Pos.compare_spec a b)
         | H : context [Pos.compare_cont Eq ?a ?b] |- _ =>
             change (Pos.compare_cont Eq a b) with (Pos.compare a b) in H;
             destruct (Pos.compare_spec a b)
         end.

Lemma SFcompare_total (x y : spec_float) :
  notNaN x -> notNaN y -> exists c, SFcompare x y = Some c.
Proof.
  unfold notNaN. destruct x, y; cbn; intros; try congruence; eauto;
    repeat match goal with s : bool |- _ => destruct s end; eauto.
Qed.

Lemma SFcompare_opp (x y : spec_float) :
  SFcompare y x = option_map CompOpp (SFcompare x y).
Proof.
  destruct x as [sx | sx | | sx mx ex], y as [sy | sy | | sy my ey]; cbn;
    try reflexivity;
    repeat match goal with s : bool |- _ => destruct s end; cbn; try reflexivity;
    cmp_cases; cbn; try reflexivity; try lia.
Qed.

Definition isLe (c : option comparison) : Prop := c = Some Lt \/ c = Some Eq.

Lemma SFcompare_trans (x y z : spec_float) :
  isLe (SFcompare x y) -> isLe (SFcompare y z) ->
  isLe (SFcompare x z)
  /\ (SFcompare x y = Some Lt \/ SFcompare y z = Some Lt -> SFcompare x z = Some Lt).
Proof.
  unfold isLe.
  destruct x as [sx | sx | | sx mx ex], y as [sy | sy | | sy my ey], z as [sz | sz | | sz mz ez];
    cbn; intros H1 H2;
    repeat match goal with s : bool |- _ => destruct s end; cbn in *;
    try (destruct H1 as [H1 | H1]; discriminate H1);
    try (destruct H2 as [H2 | H2]; discriminate H2);
    try (split; [auto | intros [H | H]; (discriminate H || auto)]; fail);
    cmp_cases; cbn in *;
    try (destruct H1 as [H1 | H1]; discriminate H1);
    try (destruct H2 as [H2 | H2]; discriminate H2);
    try lia;
    try (split; [auto | intros [H | H]; (discriminate H || auto)]).
  all: intuition congruence.
Qed.

(** ** The sign of a difference *)

Lemma digits2_bounds (p : positive) :
  (2 ^ (Zpos (digits2_pos p) - 1) <= Zpos p < 2 ^ Zpos (digits2_pos p))%Z.
Proof.
  induction p as [p IH | p IH |]; cbn [digits2_pos].
  - rewrite Pos2Z.inj_succ. change (Zpos p~1) with (2 * Zpos p + 1)%Z.
    replace (Z.succ (Zpos (digits2_pos p)) - 1)%Z with (Z.succ (Zpos (digits2_pos p) - 1))%Z by lia.
    rewrite !Z.pow_succ_r by lia.
    generalize dependent (2 ^ (Zpos (digits2_pos p) - 1))%Z.
    generalize (2 ^ Zpos (digits2_pos p))%Z. intros; lia.
  - rewrite Pos2Z.inj_succ. change (Zpos p~0) with (2 * Zpos p)%Z.
    replace (Z.succ (Zpos (digits2_pos p)) - 1)%Z with (Z.succ (Zpos (digits2_pos p) - 1))%Z by lia.
    rewrite !Z.pow_succ_r by lia.
    generalize dependent (2 ^ (Zpos (digits2_pos p) - 1))%Z.
    generalize (2 ^ Zpos (digits2_pos p))%Z. intros; lia.
  - cbn. lia.
Qed.

Lemma bounded_spec (m : positive) (e : Z) :
  bounded prec emax m e = true ->
  (-1074 <= e <= 971)%Z /\ (Zpos (digits2_pos m) <= 53)%Z
  /\ ((-1074 < e)%Z -> Zpos (digits2_pos m) = 53%Z).
Proof.
  unfold bounded, canonical_mantissa, fexp, SpecFloat.emin, prec, emax.
  intros H. apply andb_prop in H as [H1 H2].
  apply Z.eqb_eq in H1. apply Z.leb_le in H2. lia.
Qed.

Lemma iter_xO (m d : positive) : Zpos (Pos.iter xO m d) = (Zpos m * 2 ^ Zpos d)%Z.
Proof.
  induction d as [| d IH] using Pos.peano_ind.
  - cbn. lia.
  - rewrite Pos.iter_succ, Pos2Z.inj_xO, IH, Pos2Z.inj_succ, Z.pow_succ_r by lia. lia.
Qed.

Lemma shl_align_value (m : positive) (e e' : Z) :
  (e' <= e)%Z -> Zpos (fst (shl_align m e e')) = (Zpos m * 2 ^ (e - e'))%Z.
Proof.
  intros Hle. unfold shl_align.
  destruct (e' - e)%Z as [| d | d] eqn:E; cbn [fst].
  - replace (e - e')%Z with 0%Z by lia. lia.
  - lia.
  - rewrite iter_xO. f_equal. f_equal. lia.
Qed.

Lemma shr_m_shr_1 (r : shr_record) :
  (0 <= shr_m r)%Z -> shr_m (shr_1 r) = Z.div2 (shr_m r).
Proof.
  destruct r as [m r s]. cbn [shr_m]. intros Hm.
  destruct m as [| [p | p |] | p]; cbn; try reflexivity; lia.
Qed.

Lemma shr_m_iter (p : positive) : forall r : shr_record,
  (0 <= shr_m r)%Z -> shr_m (iter_pos shr_1 p r) = (shr_m r / 2 ^ Zpos p)%Z.
Proof.
  assert (Hpos : forall q, (0 < 2 ^ Zpos q)%Z) by (intros; apply Z.pow_pos_nonneg; lia).
  induction p as [p IH | p IH |]; intros r Hr; cbn [iter_pos].
  - assert (E : (2 ^ Zpos p~1 = 2 * (2 ^ Zpos p * 2 ^ Zpos p))%Z).
    { replace (Zpos p~1) with (1 + (Zpos p + Zpos p))%Z by lia.
      rewrite !Z.pow_add_r by lia. reflexivity. }
    assert (H1 : (0 <= shr_m (shr_1 r))%Z).
    { rewrite shr_m_shr_1 by exact Hr. rewrite Z.div2_div. apply Z.div_pos; lia. }
    assert (H2 : (0 <= shr_m (iter_pos shr_1 p (shr_1 r)))%Z).
    { rewrite IH by exact H1. apply Z.div_pos; [exact H1 | apply Hpos]. }
    rewrite IH by exact H2. rewrite IH by exact H1. rewrite shr_m_shr_1 by exact Hr.
    pose proof (Hpos p) as Hp.
    rewrite Z.div2_div, E.
    rewrite (Z.div_div (shr_m r / 2)) by lia.
    rewrite (Z.div_div (shr_m r) 2) by lia. reflexivity.
  - assert (E : (2 ^ Zpos p~0 = 2 ^ Zpos p * 2 ^ Zpos p)%Z).
    { replace (Zpos p~0) with (Zpos p + Zpos p)%Z by lia.
      rewrite !Z.pow_add_r by lia. reflexivity. }
    assert (H2 : (0 <= shr_m (iter_pos shr_1 p r))%Z).
    { rewrite IH by exact Hr. apply Z.div_pos; [exact Hr | apply Hpos]. }
    rewrite IH by exact H2. rewrite IH by exact Hr.
    pose proof (Hpos p) as Hp.
    rewrite E, Z.div_div by lia. reflexivity.
  - rewrite shr_m_shr_1 by exact Hr. now rewrite Z.div2_div.
Qed.

Lemma shr_record_of_loc_m (m : Z) (l : location) : shr_m (shr_record_of_loc m l) = m.
Proof. destruct l as [| []]; reflexivity. Qed.

(** Shifting a mantissa to its place never empties it, from the smallest
    exponent on. *)
Lemma shr_fexp_positive (m : positive) (e : Z) (l : location) :
  (-1074 <= e)%Z ->
  exists m' e',
    shr_fexp prec emax (Zpos m) e l = ({| shr_m := Zpos m'; shr_r := shr_r (fst (shr_fexp prec emax (Zpos m) e l));
                                         shr_s := shr_s (fst (shr_fexp prec emax (Zpos m) e l)) |}, e')
    /\ (-1074 <= e')%Z.
Proof.
  intros He. unfold shr_fexp, shr, fexp, SpecFloat.emin, prec, emax.
  cbn [Zdigits2].
  pose proof (digits2_bounds m) as Hd.
  set (d := Zpos (digits2_pos m)) in *.
  destruct (Z.max (d + e - 53) (3 - 1024 - 53) - e)%Z as [| n | n] eqn:En.
  - destruct (shr_record_of_loc (Zpos m) l) as [m0 r0 s0] eqn:Er.
    pose proof (shr_record_of_loc_m (Zpos m) l) as Hm. rewrite Er in Hm. cbn in Hm. subst m0.
    exists m, e. cbn. split; [reflexivity | exact He].
  - pose proof (shr_m_iter n (shr_record_of_loc (Zpos m) l)) as Hs.
    rewrite shr_record_of_loc_m in Hs. specialize (Hs ltac:(lia)).
    destruct (iter_pos shr_1 n (shr_record_of_loc (Zpos m) l)) as [m0 r0 s0] eqn:Er.
    cbn [shr_m] in Hs.
    assert (Hn : (Zpos n <= d - 1)%Z) by lia.
    assert (Hpow : (2 ^ Zpos n <= 2 ^ (d - 1))%Z) by (apply Z.pow_le_mono_r; lia).
    assert (Hq : (0 < Zpos m / 2 ^ Zpos n)%Z).
    { apply Z.div_str_pos. split; [apply Z.pow_pos_nonneg; lia | lia]. }
    destruct m0 as [| m0 | m0]; try lia.
    exists m0, (e + Zpos n)%Z. cbn. split; [reflexivity | lia].
  - destruct (shr_record_of_loc (Zpos m) l) as [m0 r0 s0] eqn:Er.
    pose proof (shr_record_of_loc_m (Zpos m) l) as Hm. rewrite Er in Hm. cbn in Hm. subst m0.
    exists m, e. cbn. split; [reflexivity | exact He].
Qed.

Lemma round_nearest_even_positive (m : positive) (l : location) :
  exists m', round_nearest_even (Zpos m) l = Zpos m'.
Proof.
  destruct l as [| []]; cbn [round_nearest_even].
  - now exists m.
  - destruct (Z.even (Zpos m)); [now exists m | now exists (m + 1)%positive].
  - now exists m.
  - now exists (m + 1)%positive.
Qed.

(** A float is negative, zero or positive. *)
Definition SFsign (x : spec_float) : option comparison := SFcompare x (S754_zero false).

Lemma binary_round_aux_sign (s : bool) (m : positive) (e : Z) (l : location) :
  (-1074 <= e)%Z ->
  SFsign (binary_round_aux prec emax s (Zpos m) e l) = Some (if s then Lt else Gt).
Proof.
  intros He. unfold binary_round_aux.
  destruct (shr_fexp_positive m e l He) as (m1 & e1 & -> & He1).
  cbn [shr_m loc_of_shr_record].
  match goal with |- context [round_nearest_even (Zpos m1) ?l1] =>
    destruct (round_nearest_even_positive m1 l1) as [m2 ->] end.
  destruct (shr_fexp_positive m2 e1 loc_Exact He1) as (m3 & e3 & -> & He3).
  cbn [shr_m]. destruct (e3 <=? emax - prec)%Z; reflexivity.
Qed.

Lemma binary_round_sign (s : bool) (m : positive) (e : Z) :
  (-1074 <= e)%Z ->
  SFsign (binary_round prec emax s m e) = Some (if s then Lt else Gt).
Proof.
  intros He. unfold binary_round.
  destruct (shl_align m e (fexp prec emax (Zpos (digits2_pos m) + e))) as [mz ez] eqn:Ea.
  apply binary_round_aux_sign.
  unfold shl_align in Ea.
  destruct (fexp prec emax (Zpos (digits2_pos m) + e) - e)%Z eqn:En;
    injection Ea as <- <-; try exact He.
  unfold fexp, SpecFloat.emin, prec, emax. lia.
Qed.

Lemma binary_normalize_sign (D e : Z) :
  (-1074 <= e)%Z ->
  SFsign (binary_normalize prec emax D e false) = Some (Z.compare D 0).
Proof.
  intros He. destruct D as [| p | p]; cbn [binary_normalize Z.compare].
  - reflexivity.
  - now rewrite binary_round_sign.
  - now rewrite binary_round_sign.
Qed.

(** Of two floats in canonical form the one with the smaller exponent has
    the smaller magnitude. *)
Lemma smaller_exponent (mx my : positive) (ex ey : Z) :
  bounded prec emax mx ex = true -> bounded prec emax my ey = true ->
  (ex < ey)%Z -> (Zpos mx < Zpos my * 2 ^ (ey - ex))%Z.
Proof.
  intros Hx Hy Hlt.
  destruct (bounded_spec mx ex Hx) as (Hex & Hdx & _).
  destruct (bounded_spec my ey Hy) as (Hey & _ & Hdy).
  specialize (Hdy ltac:(lia)).
  pose proof (digits2_bounds mx) as Bx. pose proof (digits2_bounds my) as By.
  rewrite Hdy in By.
  assert (H53 : (Zpos mx < 2 ^ 53)%Z).
  { eapply Z.lt_le_trans; [apply Bx |]. apply Z.pow_le_mono_r; lia. }
  assert (H2 : (2 ^ 1 <= 2 ^ (ey - ex))%Z) by (apply Z.pow_le_mono_r; lia).
  change (2 ^ (53 - 1))%Z with 4503599627370496%Z in By.
  change (2 ^ 53)%Z with 9007199254740992%Z in H53.
  change (2 ^ 1)%Z with 2%Z in H2. nia.
Qed.

Lemma SFsub_finite_sign (sx sy : bool) (mx my : positive) (ex ey : Z) :
  bounded prec emax mx ex = true -> bounded prec emax my ey = true ->
  SFsign (SFsub prec emax (S754_finite sx mx ex) (S754_finite sy my ey))
  = SFcompare (S754_finite sx mx ex) (S754_finite sy my ey).
Proof.
  intros Hx Hy. cbn [SFsub].
  destruct (bounded_spec mx ex Hx) as (Hex & _). destruct (bounded_spec my ey Hy) as (Hey & _).
  rewrite binary_normalize_sign by lia.
  rewrite !shl_align_value by lia.
  cbn [SFcompare]. f_equal.
  assert (Hp : forall a, (0 < 2 ^ (a - Z.min ex ey))%Z -> True) by trivial.
  destruct (Z.compare_spec ex ey) as [E | E | E].
  - subst ey. rewrite Z.min_id, Z.sub_diag. change (2 ^ 0)%Z with 1%Z. rewrite !Z.mul_1_r.
    change (Pos.compare_cont Eq mx my) with (Pos.compare mx my).
    destruct sx, sy; cbn [cond_Zopp]; destruct (Pos.compare_spec mx my); cbn [CompOpp];
      first [apply Z.compare_eq_iff | apply Z.compare_lt_iff | apply Z.compare_gt_iff]; lia.
  - pose proof (smaller_exponent mx my ex ey Hx Hy E) as Hlt.
    rewrite Z.min_l by lia. rewrite Z.sub_diag. change (2 ^ 0)%Z with 1%Z. rewrite Z.mul_1_r.
    destruct sx, sy; cbn [cond_Zopp];
      first [apply Z.compare_eq_iff | apply Z.compare_lt_iff | apply Z.compare_gt_iff]; lia.
  - pose proof (smaller_exponent my mx ey ex Hy Hx E) as Hlt.
    rewrite Z.min_r by lia. rewrite Z.sub_diag. change (2 ^ 0)%Z with 1%Z. rewrite Z.mul_1_r.
    destruct sx, sy; cbn [cond_Zopp];
      first [apply Z.compare_eq_iff | apply Z.compare_lt_iff | apply Z.compare_gt_iff]; lia.
Qed.

(** The difference of two floats that are no [NaN] is negative exactly when
    the first is the smaller one. *)
Lemma SFsub_negative (x y : spec_float) :
  valid_binary x = true -> valid_binary y = true -> notNaN x -> notNaN y ->
  (SFsign (SFsub prec emax x y) = Some Lt <-> SFcompare x y = Some Lt).
Proof.
  unfold notNaN. intros Vx Vy Nx Ny.
  destruct x as [sx | sx | | sx mx ex], y as [sy | sy | | sy my ey]; try congruence;
    try (rewrite SFsub_finite_sign by assumption; reflexivity).
  all: cbn; repeat match goal with s : bool |- _ => destruct s end; cbn;
    split; intros H; try discriminate H; try reflexivity.
Qed.

(** ** Doubles *)

Local Open Scope float_scope.

Lemma float_is_nan_Prim2SF (x : float) : is_nan x = true <-> Prim2SF x = S754_nan.
Proof.
  unfold Prim2SF. split.
  - intros ->. reflexivity.
  - destruct (is_nan x); [reflexivity |].
    destruct (is_zero x); [discriminate |].
    destruct (is_infinity x); [discriminate |].
    destruct (Z.frexp x) as [r e].
    destruct (shr_fexp prec emax _ _ _) as [mrs e'].
    destruct (shr_m mrs); discriminate.
Qed.

Lemma float_notNaN_Prim2SF (x : float) : is_nan x = false -> notNaN (Prim2SF x).
Proof.
  intros H E. apply float_is_nan_Prim2SF in E. congruence.
Qed.

Lemma float_nan_unique (x : float) : Prim2SF x = S754_nan -> x = nan.
Proof.
  intros E. rewrite <- (SF2Prim_Prim2SF x), E. reflexivity.
Qed.

Lemma float_add_nan_r (x : float) : x + nan = nan.
Proof.
  apply float_nan_unique. rewrite add_spec. change (Prim2SF nan) with S754_nan.
  now destruct (Prim2SF x).
Qed.

Lemma float_add_nan_l (x : float) : nan + x = nan.
Proof.
  apply float_nan_unique. rewrite add_spec. change (Prim2SF nan) with S754_nan. reflexivity.
Qed.

Lemma float_mul_nan_r (x : float) : x * nan = nan.
Proof.
  apply float_nan_unique. rewrite mul_spec. change (Prim2SF nan) with S754_nan.
  now destruct (Prim2SF x).
Qed.

Lemma float_sub_nan_r (x : float) : x - nan = nan.
Proof.
  apply float_nan_unique. rewrite sub_spec. change (Prim2SF nan) with S754_nan.
  now destruct (Prim2SF x).
Qed.

Lemma float_sub_nan_l (x : float) : nan - x = nan.
Proof.
  apply float_nan_unique. rewrite sub_spec. change (Prim2SF nan) with S754_nan. reflexivity.
Qed.

Lemma float_mul_comm (x y : float) : x * y = y * x.
Proof.
  apply Prim2SF_inj. rewrite !mul_spec. unfold SF64mul.
  destruct (Prim2SF x) as [sx | sx | | sx mx ex], (Prim2SF y) as [sy | sy | | sy my ey];
    cbn [SFmul]; try reflexivity; try (now rewrite xorb_comm).
  now rewrite xorb_comm, Pos.mul_comm, Z.add_comm.
Qed.

(** The comparator's difference is negative exactly when its first operand
    is the smaller one. *)
Lemma float_ltb_sub (x y : float) :
  is_nan x = false -> is_nan y = false -> (x - y <? 0) = (x <? y).
Proof.
  intros Nx Ny. rewrite !ltb_spec, sub_spec. change (Prim2SF 0) with (S754_zero false).
  pose proof (SFsub_negative (Prim2SF x) (Prim2SF y) (Prim2SF_valid x) (Prim2SF_valid y)
                (float_notNaN_Prim2SF x Nx) (float_notNaN_Prim2SF y Ny)) as H.
  unfold SFsign, SF64sub in *. unfold SFltb.
  destruct (SFcompare (SFsub prec emax (Prim2SF x) (Prim2SF y)) (S754_zero false)) as [[] |],
           (SFcompare (Prim2SF x) (Prim2SF y)) as [[] |];
    try reflexivity; destruct H as [H1 H2];
    try (specialize (H1 eq_refl); discriminate H1);
    try (specialize (H2 eq_refl); discriminate H2).
Qed.

Lemma float_leb_trans (x y z : float) : (x <=? y) = true -> (y <=? z) = true -> (x <=? z) = true.
Proof.
  rewrite !leb_spec. unfold SFleb. intros H1 H2.
  destruct (SFcompare_trans (Prim2SF x) (Prim2SF y) (Prim2SF z)) as [[H | H] _].
  - unfold isLe. destruct (SFcompare (Prim2SF x) (Prim2SF y)) as [[] |]; try discriminate; auto.
  - unfold isLe. destruct (SFcompare (Prim2SF y) (Prim2SF z)) as [[] |]; try discriminate; auto.
  - now rewrite H.
  - now rewrite H.
Qed.

Lemma float_leb_total (x y : float) :
  is_nan x = false -> is_nan y = false -> (x <? y) = false -> (y <=? x) = true.
Proof.
  intros Nx Ny. rewrite ltb_spec, leb_spec. unfold SFltb, SFleb.
  rewrite (SFcompare_opp (Prim2SF x) (Prim2SF y)).
  destruct (SFcompare_total _ _ (float_notNaN_Prim2SF x Nx) (float_notNaN_Prim2SF y Ny)) as [c ->].
  destruct c; cbn; congruence.
Qed.

Lemma float_leb_antisym (x y : float) : (x <=? y) = true -> (y <=? x) = true -> (x =? y) = true.
Proof.
  rewrite !leb_spec, eqb_spec. unfold SFleb, SFeqb.
  rewrite (SFcompare_opp (Prim2SF x) (Prim2SF y)).
  destruct (SFcompare (Prim2SF x) (Prim2SF y)) as [[] |]; cbn; congruence.
Qed.

Lemma float_ltb_leb (x y : float) : (x <? y) = true -> (x <=? y) = true /\ (y <=? x) = false.
Proof.
  rewrite ltb_spec, !leb_spec. unfold SFltb, SFleb.
  rewrite (SFcompare_opp (Prim2SF x) (Prim2SF y)).
  destruct (SFcompare (Prim2SF x) (Prim2SF y)) as [[] |]; cbn; intros; try discriminate; auto.
Qed.

Lemma float_eqb_leb (x y : float) : (x =? y) = true -> (x <=? y) = true /\ (y <=? x) = true.
Proof.
  rewrite eqb_spec, !leb_spec. unfold SFeqb, SFleb.
  rewrite (SFcompare_opp (Prim2SF x) (Prim2SF y)).
  destruct (SFcompare (Prim2SF x) (Prim2SF y)) as [[] |]; cbn; intros; try discriminate; auto.
Qed.

Lemma float_leb_cases (x y : float) : (x <=? y) = true -> (x <? y) = true \/ (x =? y) = true.
Proof.
  rewrite leb_spec, ltb_spec, eqb_spec. unfold SFeqb, SFleb, SFltb.
  destruct (SFcompare (Prim2SF x) (Prim2SF y)) as [[] |]; cbn; intros; try discriminate; auto.
Qed.

Lemma float_leb_not_nan (x y : float) : (x <=? y) = true -> is_nan x = false /\ is_nan y = false.
Proof.
  rewrite leb_spec. unfold SFleb. intros H.
  split; apply not_true_is_false; intros E; apply float_is_nan_Prim2SF in E; rewrite E in H;
    [| destruct (Prim2SF x)]; discriminate.
Qed.
End FloatFacts.
Import FloatFacts.



(* ================================================================== *)
(** * Facts about sorting *)
(* ================================================================== *)

Section SortFacts.
Context {A : Type}.
Variable comparefn : A -> A -> Num.

Lemma insert_perm (x : A) (l : list A) : Permutation (insert comparefn x l) (x :: l).
Proof.
  induction l as [| y l IH]; simpl; [reflexivity |].
  destruct (sign_of (comparefn y x)); try reflexivity.
  rewrite IH. apply perm_swap.
Qed.

Lemma sort_perm (l : list A) : Permutation (sort comparefn l) l.
Proof.
  induction l as [| x l IH]; simpl; [reflexivity |].
  rewrite insert_perm. now constructor.
Qed.

End SortFacts.

Lemma insert_map {A B : Type} (f : B -> A) (comparefn : A -> A -> Num) (x : B) (l : list B) :
  map f (insert (fun a b => comparefn (f a) (f b)) x l) = insert comparefn (f x) (map f l).
Proof.
  induction l as [| y l IH]; simpl; [reflexivity |].
  destruct (sign_of (comparefn (f y) (f x))); simpl; try reflexivity.
  now rewrite IH.
Qed.

Lemma sort_map {A B : Type} (f : B -> A) (comparefn : A -> A -> Num) (l : list B) :
  map f (sort (fun a b => comparefn (f a) (f b)) l) = sort comparefn (map f l).
Proof.
  induction l as [| x l IH]; simpl; [reflexivity |].
  now rewrite insert_map, IH.
Qed.

(** The order of the ranking on chunks tagged with their position in the
    store: a higher score first, and of two equal scores the earlier
    position first.  A [NaN] score is neither higher nor equal. *)
Definition rankedBefore (x y : nat * SimilarChunk) : Prop :=
  (similarity (snd y) <? similarity (snd x))%float = true
  \/ ((similarity (snd x) =? similarity (snd y))%float = true /\ fst x < fst y).

(** The score is a number: finite or infinite, not [NaN]. *)
Definition numericScore (x : nat * SimilarChunk) : Prop :=
  is_nan (similarity (snd x)) = false.

Definition byTaggedSimilarity (x y : nat * SimilarChunk) : Num :=
  bySimilarityDesc (snd x) (snd y).

(** On scores that are numbers the comparator's difference, rounded as it
    is, is negative exactly when its first operand is the smaller one. *)
Lemma sign_of_sub_Lt (a b : Num) :
  is_nan a = false -> is_nan b = false ->
  (sign_of (a - b)%float = Lt <-> (a <? b)%float = true).
Proof.
  intros Na Nb. unfold sign_of. rewrite (float_ltb_sub a b Na Nb).
  destruct (a <? b)%float; [split; reflexivity |].
  destruct (0 <? a - b)%float; split; discriminate.
Qed.

Lemma float_eqb_sym (a b : float) : (a =? b)%float = true -> (b =? a)%float = true.
Proof.
  intros H. apply float_eqb_leb in H. destruct H. now apply float_leb_antisym.
Qed.

Lemma ranked_of_leb (x z : nat * SimilarChunk) :
  (similarity (snd z) <=? similarity (snd x))%float = true -> fst x < fst z ->
  rankedBefore x z.
Proof.
  intros Hle Hidx. unfold rankedBefore.
  destruct (float_leb_cases _ _ Hle) as [H | H]; [left; exact H |].
  right. split; [now apply float_eqb_sym | exact Hidx].
Qed.

Lemma rankedBefore_leb (y z : nat * SimilarChunk) :
  rankedBefore y z -> (similarity (snd z) <=? similarity (snd y))%float = true.
Proof.
  intros [H | [H _]].
  - now apply float_ltb_leb in H.
  - now apply float_eqb_leb in H.
Qed.

Lemma insert_ranked (x : nat * SimilarChunk) (l : list (nat * SimilarChunk)) :
  numericScore x -> Forall numericScore l ->
  Forall (fun y => fst x < fst y) l ->
  StronglySorted rankedBefore l ->
  StronglySorted rankedBefore (insert byTaggedSimilarity x l).
Proof.
  intros Hx Hfin Hidx Hsorted.
  induction Hsorted as [| y l Hs IH Hy]; simpl.
  - constructor; constructor.
  - inversion Hfin as [| ? ? Hy' Hfin']; subst.
    inversion Hidx as [| ? ? Hxy Hidx']; subst.
    unfold byTaggedSimilarity at 1, bySimilarityDesc.
    pose proof (sign_of_sub_Lt _ _ Hx Hy') as Hsign.
    assert (Hfirst : sign_of (similarity (snd x) - similarity (snd y))%float <> Lt ->
                     StronglySorted rankedBefore (x :: y :: l)).
    { intros E.
      assert (Hle : (similarity (snd y) <=? similarity (snd x))%float = true).
      { apply float_leb_total; try assumption.
        destruct (similarity (snd x) <? similarity (snd y))%float eqn:El; [| reflexivity].
        exfalso. apply E. now apply Hsign. }
      constructor; [constructor; assumption |].
      constructor; [now apply ranked_of_leb |].
      rewrite Forall_forall in *. intros z Hz.
      apply ranked_of_leb; [| now apply Hidx'].
      apply (float_leb_trans _ (similarity (snd y))); [| exact Hle].
      apply rankedBefore_leb. now apply Hy. }
    destruct (sign_of (similarity (snd x) - similarity (snd y))%float) eqn:E.
    + apply Hfirst. discriminate.
    + (* y scores higher: it stays first *)
      pose proof (proj1 Hsign eq_refl) as Hlt.
      constructor; [apply IH; assumption |].
      rewrite Forall_forall. intros z Hz.
      apply (Permutation_in _ (insert_perm byTaggedSimilarity x l)) in Hz.
      destruct Hz as [<- | Hz].
      * left. exact Hlt.
      * rewrite Forall_forall in Hy. auto.
    + apply Hfirst. discriminate.
Qed.

Lemma sort_ranked (l : list SimilarChunk) : forall k,
  Forall (fun c => is_nan (similarity c) = false) l ->
  StronglySorted rankedBefore (sort byTaggedSimilarity (combine (seq k (length l)) l))
  /\ Forall (fun y => k <= fst y) (combine (seq k (length l)) l).
Proof.
  induction l as [| c l IH]; intros k Hfin; simpl.
  - split; constructor.
  - inversion Hfin as [| ? ? Hc Hfin']; subst.
    destruct (IH (S k) Hfin') as [Hs Hk].
    split.
    + apply insert_ranked.
      * exact Hc.
      * rewrite Forall_forall. intros z Hz.
        apply (Permutation_in _ (sort_perm byTaggedSimilarity _)) in Hz.
        destruct z as [i cz]. apply in_combine_r in Hz.
        rewrite Forall_forall in Hfin'. apply Hfin'. exact Hz.
      * rewrite Forall_forall in *. intros z Hz.
        apply (Permutation_in _ (sort_perm byTaggedSimilarity _)) in Hz.
        specialize (Hk z Hz). simpl. lia.
      * exact Hs.
    + constructor; [simpl; lia |].
      rewrite Forall_forall in *. intros z Hz. specialize (Hk z Hz). lia.
Qed.

Lemma rankedBefore_asym (x y : nat * SimilarChunk) :
  rankedBefore x y -> rankedBefore y x -> False.
Proof.
  intros [H1 | [H1 H1']] [H2 | [H2 H2']].
  - apply float_ltb_leb in H1, H2. destruct H1, H2. congruence.
  - apply float_ltb_leb in H1. apply float_eqb_leb in H2. destruct H1, H2. congruence.
  - apply float_eqb_leb in H1. apply float_ltb_leb in H2. destruct H1, H2. congruence.
  - lia.
Qed.

(** The ranking order leaves no choice: two arrangements of the same tagged
    chunks that both follow it are the same list. *)
Lemma ranked_unique (l1 : list (nat * SimilarChunk)) : forall l2,
  StronglySorted rankedBefore l1 -> StronglySorted rankedBefore l2 ->
  Permutation l1 l2 -> l1 = l2.
Proof.
  induction l1 as [| x l1 IH]; intros l2 H1 H2 Hp.
  - apply Permutation_nil in Hp. now subst.
  - destruct l2 as [| y l2]; [apply Permutation_sym, Permutation_nil in Hp; discriminate |].
    inversion H1 as [| ? ? H1' Hx]; subst. inversion H2 as [| ? ? H2' Hy]; subst.
    rewrite Forall_forall in Hx, Hy.
    assert (Exy : x = y).
    { assert (Hin1 : In x (y :: l2)) by (apply (Permutation_in _ Hp); now left).
      assert (Hin2 : In y (x :: l1))
        by (apply (Permutation_in _ (Permutation_sym Hp)); now left).
      destruct Hin1 as [-> | Hin1]; [reflexivity |].
      destruct Hin2 as [-> | Hin2]; [reflexivity |].
      exfalso. exact (rankedBefore_asym x y (Hx y Hin2) (Hy x Hin1)). }
    subst y. f_equal. apply IH; try assumption.
    now apply Permutation_cons_inv in Hp.
Qed.

(* ================================================================== *)
(** * Facts about strings and placeholders *)
(* ================================================================== *)

Lemma str_eqb_eq (a b : jsstring) : str_eqb a b = true <-> a = b.
Proof.
  revert b. induction a as [| x a IH]; intros [| y b]; simpl; split; intros H;
    try reflexivity; try discriminate.
  - apply andb_prop in H as [Hx Hab]. apply N.eqb_eq in Hx. apply IH in Hab. congruence.
  - injection H as -> ->. rewrite N.eqb_refl. simpl. now apply IH.
Qed.

Lemma str_eqb_refl (a : jsstring) : str_eqb a a = true.
Proof. now apply str_eqb_eq. Qed.

Lemma str_eqb_neq (a b : jsstring) : str_eqb a b = false <-> a <> b.
Proof.
  split.
  - intros H E. apply str_eqb_eq in E. congruence.
  - intros H. destruct (str_eqb a b) eqn:E; [apply str_eqb_eq in E; contradiction | reflexivity].
Qed.

Lemma strip_prefix_sound (pat : jsstring) : forall s rest,
  strip_prefix pat s = Some rest -> s = pat ++ rest.
Proof.
  induction pat as [| p pat IH]; intros s rest H; simpl in H.
  - now injection H as ->.
  - destruct s as [| c s]; [discriminate |].
    destruct (N.eqb_spec p c) as [-> |]; [| discriminate].
    simpl. f_equal. now apply IH.
Qed.

Lemma strip_prefix_app (pat rest : jsstring) : strip_prefix pat (pat ++ rest) = Some rest.
Proof.
  induction pat as [| p pat IH]; simpl; [reflexivity |].
  now rewrite N.eqb_refl.
Qed.

(** [split_first] cuts the string around an occurrence of the pattern. *)
Lemma split_first_sound (pat : jsstring) : forall s before after,
  split_first pat s = Some (before, after) -> s = before ++ pat ++ after.
Proof.
  intros s. induction s as [| c s IH]; intros before after H.
  - simpl in H. destruct (strip_prefix pat []) eqn:E; [| discriminate].
    injection H as <- <-. apply strip_prefix_sound in E. exact E.
  - cbn [split_first] in H. destruct (strip_prefix pat (c :: s)) eqn:E.
    + injection H as <- <-. apply strip_prefix_sound in E. exact E.
    + destruct (split_first pat s) as [[b a] |] eqn:E'; [| discriminate].
      injection H as <- <-. simpl. f_equal. now apply IH.
Qed.

(** No occurrence at all when [split_first] finds none. *)
Lemma split_first_none (pat : jsstring) : forall s a b,
  split_first pat s = None -> s <> a ++ pat ++ b.
Proof.
  intros s. induction s as [| c s IH]; intros a b H E.
  - simpl in H. destruct a; simpl in E.
    + rewrite E, strip_prefix_app in H. discriminate.
    + discriminate.
  - cbn [split_first] in H. destruct (strip_prefix pat (c :: s)) eqn:E1; [discriminate |].
    destruct (split_first pat s) as [[b' a'] |] eqn:E2; [discriminate |].
    destruct a as [| x a]; simpl in E.
    + rewrite E, strip_prefix_app in E1. discriminate.
    + injection E as _ E. exact (IH a b eq_refl E).
Qed.

(** The occurrence [split_first] finds is the leftmost one. *)
Lemma split_first_leftmost (pat : jsstring) : forall s before after a b,
  split_first pat s = Some (before, after) -> s = a ++ pat ++ b ->
  length before <= length a.
Proof.
  intros s. induction s as [| c s IH]; intros before after a b H E.
  - simpl in H. destruct (strip_prefix pat []); [| discriminate].
    injection H as <- <-. simpl. lia.
  - cbn [split_first] in H. destruct (strip_prefix pat (c :: s)) eqn:E1.
    + injection H as <- <-. simpl. lia.
    + destruct (split_first pat s) as [[b' a'] |] eqn:E2; [| discriminate].
      injection H as <- <-.
      destruct a as [| x a]; simpl in E.
      * rewrite E, strip_prefix_app in E1. discriminate.
      * injection E as _ E. simpl. apply le_n_S. eapply IH; eauto.
Qed.

Local Arguments placeholder : simpl never.

Definition lbrace : N := 123%N.
Definition rbrace : N := 125%N.

(** A key with no brace in it. *)
Definition braceFree (k : jsstring) : Prop :=
  Forall (fun c => c <> lbrace /\ c <> rbrace) k.

Lemma placeholder_unfold (k : jsstring) :
  placeholder k = lbrace :: lbrace :: k ++ [rbrace; rbrace].
Proof. reflexivity. Qed.

(** Two placeholders that start at the same place are the same one. *)
Lemma placeholder_same_start (k k' x y : jsstring) :
  braceFree k -> braceFree k' ->
  k ++ [rbrace; rbrace] ++ x = k' ++ [rbrace; rbrace] ++ y -> k = k'.
Proof.
  intros Hk. revert k'. induction Hk as [| c k [Hc1 Hc2] Hk IH]; intros k' Hk' E.
  - destruct Hk' as [| c' k' [_ Hc'] _]; [reflexivity |].
    simpl in E. injection E as E _. congruence.
  - destruct Hk' as [| c' k' _ Hk']; simpl in E.
    + injection E as E _. congruence.
    + injection E as -> E. f_equal. now apply IH.
Qed.

(** Inside a placeholder, a left brace stands only at the first two places. *)
Lemma placeholder_suffix_lbrace (k l l2 : jsstring) :
  braceFree k -> placeholder k = l ++ lbrace :: l2 ->
  l = [] \/ l = [lbrace].
Proof.
  intros Hk E. rewrite placeholder_unfold in E.
  destruct l as [| c1 [| c2 l]]; simpl in E.
  - now left.
  - injection E as <- _. now right.
  - exfalso. injection E as _ _ E.
    assert (Hin : In lbrace (k ++ [rbrace; rbrace])) by (rewrite E; apply in_or_app; right; now left).
    apply in_app_or in Hin as [Hin | Hin].
    + unfold braceFree in Hk. rewrite Forall_forall in Hk. destruct (Hk _ Hin). congruence.
    + simpl in Hin. unfold lbrace, rbrace in Hin. destruct Hin as [Hin | [Hin | []]]; discriminate.
Qed.

(** Occurrences of two different placeholders never overlap: if the string
    is cut around one and around the other, one of them lies wholly before
    the other. *)
Lemma placeholders_apart (k k' a b before after : jsstring) :
  braceFree k -> braceFree k' -> k <> k' ->
  a ++ placeholder k' ++ b = before ++ placeholder k ++ after ->
  (exists m, a = before ++ placeholder k ++ m /\ after = m ++ placeholder k' ++ b)
  \/ (exists m, before = a ++ placeholder k' ++ m /\ b = m ++ placeholder k ++ after).
Proof.
  intros Hk Hk' Hne E.
  assert (Hoverlap : forall (k1 k2 l l2 x y : jsstring),
            braceFree k1 -> braceFree k2 -> k1 <> k2 ->
            placeholder k1 = l ++ l2 -> l2 <> [] ->
            placeholder k2 ++ x = l2 ++ y -> False).
  { intros k1 k2 l l2 x y H1 H2 Hn Ecut Hl2 Epre.
    destruct l2 as [| c l2]; [congruence |].
    assert (c = lbrace) by (rewrite placeholder_unfold in Epre; simpl in Epre; congruence).
    subst c.
    destruct (placeholder_suffix_lbrace k1 l l2 H1 Ecut) as [-> | ->].
    - simpl in Ecut. rewrite <- Ecut in Epre.
      rewrite !placeholder_unfold in Epre. simpl in Epre.
      injection Epre as Epre. rewrite <- !app_assoc in Epre.
      apply Hn. symmetry. eapply placeholder_same_start; eauto.
    - rewrite placeholder_unfold in Ecut. simpl in Ecut. injection Ecut as Ecut.
      subst l2. rewrite placeholder_unfold in Epre. simpl in Epre.
      injection Epre as Epre.
      destruct H1 as [| c k1 [Hc _] _]; simpl in Epre.
      + unfold lbrace, rbrace in Epre. destruct k2; simpl in Epre; discriminate.
      + destruct k2; simpl in Epre; injection Epre as Epre _; congruence. }
  apply app_eq_app in E as [l [[Ea El] | [Eb El]]].
  - (* the occurrence of [k] starts first *)
    symmetry in El. apply app_eq_app in El as [l2 [[E1 E2] | [E1 E2]]].
    + subst l. left. exists l2. split; [exact Ea | exact E2].
    + destruct l2 as [| c l2].
      * rewrite app_nil_r in E1. subst l. left. exists [].
        split; [now rewrite app_nil_r | symmetry; exact E2].
      * exfalso. apply (Hoverlap k k' l (c :: l2) b after); auto. discriminate.
  - (* the occurrence of [k'] starts first *)
    apply app_eq_app in El as [l2 [[E1 E2] | [E1 E2]]].
    + destruct l2 as [| c l2].
      * rewrite app_nil_r in E1. subst l. right. exists [].
        split; [now rewrite app_nil_r | symmetry; exact E2].
      * exfalso. apply (Hoverlap k' k l (c :: l2) after b); auto. discriminate.
    + subst l. right. exists l2. split; [exact Eb | exact E2].
Qed.

(** [s] has an occurrence of [q]. *)
Definition contains (q s : jsstring) : Prop := exists a b, s = a ++ q ++ b.

Lemma replace_keeps_placeholder (k k' r s : jsstring) :
  braceFree k -> braceFree k' -> k <> k' ->
  contains (placeholder k') s -> contains (placeholder k') (replace s (placeholder k) r).
Proof.
  intros Hk Hk' Hne (a & b & ->). unfold replace.
  destruct (split_first (placeholder k) (a ++ placeholder k' ++ b)) as [[before after] |] eqn:E.
  - apply split_first_sound in E.
    destruct (placeholders_apart k k' a b before after Hk Hk' Hne E) as [[m [-> ->]] | [m [-> ->]]].
    + exists (before ++ GetSubstitution (placeholder k) before (m ++ placeholder k' ++ b) r ++ m), b.
      now rewrite <- !app_assoc.
    + exists a, (m ++ GetSubstitution (placeholder k) (a ++ placeholder k' ++ m) after r ++ after).
      now rewrite <- !app_assoc.
  - now exists a, b.
Qed.

Lemma substitute_keeps_placeholder (k' : jsstring) (so : StepOutputs) : forall s,
  braceFree k' ->
  Forall (fun kv => braceFree (fst kv) /\ fst kv <> k') so ->
  contains (placeholder k') s -> contains (placeholder k') (substitute so s).
Proof.
  unfold substitute. induction so as [| [k v] so IH]; intros s Hk' Hso Hs; simpl.
  - exact Hs.
  - inversion Hso as [| ? ? [Hk Hne] Hso']; subst. simpl in *.
    apply IH; auto. apply replace_keeps_placeholder; auto.
Qed.

Lemma substitute_nil (s : jsstring) : substitute [] s = s.
Proof. reflexivity. Qed.

(** ** The keys [step_N_output] *)

Definition isDigit (c : N) : Prop := (48 <= c <= 57)%N.

Lemma string_of_uint_digits (d : Decimal.uint) :
  Forall isDigit (js (NilEmpty.string_of_uint d)).
Proof.
  induction d; simpl; constructor; try assumption; unfold isDigit; simpl; lia.
Qed.

Lemma Number_toString_digits (n : nat) : Forall isDigit (Number_toString n).
Proof. apply string_of_uint_digits. Qed.

Lemma stepKey_braceFree (n : nat) : braceFree (stepKey n).
Proof.
  unfold stepKey, braceFree. rewrite !Forall_app. repeat split.
  - vm_compute. repeat constructor; discriminate.
  - eapply Forall_impl; [| apply Number_toString_digits].
    unfold isDigit, lbrace, rbrace. intros c Hc. lia.
  - vm_compute. repeat constructor; discriminate.
Qed.

Lemma js_inj (s t : string) : js s = js t -> s = t.
Proof.
  revert t. induction s as [| c s IH]; intros [| c' t] H; simpl in H;
    try reflexivity; try discriminate.
  injection H as Hc H. f_equal; [| now apply IH].
  rewrite <- (ascii_N_embedding c), <- (ascii_N_embedding c'). now rewrite Hc.
Qed.

Lemma Number_toString_inj (n m : nat) : Number_toString n = Number_toString m -> n = m.
Proof.
  unfold Number_toString. intros H. apply js_inj in H.
  assert (Hu : Nat.to_uint n = Nat.to_uint m).
  { apply (f_equal NilEmpty.uint_of_string) in H. rewrite !NilEmpty.usu in H. congruence. }
  apply (f_equal Nat.of_uint) in Hu. now rewrite !DecimalNat.Unsigned.of_to in Hu.
Qed.

Lemma stepKey_inj (n m : nat) : stepKey n = stepKey m -> n = m.
Proof.
  unfold stepKey. intros H. apply app_inv_head in H. apply app_inv_tail in H.
  now apply Number_toString_inj.
Qed.

(* ================================================================== *)
(** * The budget of the JSON parser *)
(* ================================================================== *)

Lemma skip_ws_length (s : jsstring) : length (skip_ws s) <= length s.
Proof.
  induction s as [| c s IH]; simpl; [lia |].
  destruct (is_ws c); simpl; lia.
Qed.

Lemma strip_prefix_length (pat : jsstring) : forall s rest,
  strip_prefix pat s = Some rest -> length s = length pat + length rest.
Proof.
  intros s rest H. apply strip_prefix_sound in H. subst. now rewrite length_app.
Qed.

Lemma take_digits_length (s : jsstring) : forall d r,
  take_digits s = (d, r) -> length s = length d + length r.
Proof.
  induction s as [| c s IH]; intros d r H; simpl in H.
  - injection H as <- <-. reflexivity.
  - destruct (is_digit c).
    + destruct (take_digits s) as [d' r'] eqn:E. injection H as <- <-.
      simpl. rewrite (IH d' r' eq_refl). reflexivity.
    + injection H as <- <-. reflexivity.
Qed.

Lemma take_digits1_length (s d r : jsstring) :
  take_digits1 s = Some (d, r) -> length r < length s.
Proof.
  unfold take_digits1. destruct (take_digits s) as [d' r'] eqn:E.
  apply take_digits_length in E. destruct d'; [discriminate |].
  intros H. injection H as <- <-. simpl in E. lia.
Qed.

Lemma lex_string_length_aux (n : nat) : forall s body rest,
  length s <= n ->
  lex_string s = Some (body, rest) -> length rest < length s.
Proof.
  induction n as [| n IHn]; intros s body rest Hn H.
  { destruct s; [discriminate | simpl in Hn; lia]. }
  assert (IH : forall s0 b0 r0, length s0 < length s ->
            lex_string s0 = Some (b0, r0) -> length r0 < length s0)
    by (intros; eapply IHn; eauto; lia).
  clear IHn. destruct s as [| c r]; [discriminate |].
  cbn [lex_string] in H.
  destruct (N.eqb c 34); [injection H as <- <-; simpl; lia |].
  destruct (N.eqb c 92).
  - destruct r as [| e r']; [discriminate |].
    destruct (N.eqb e 117).
    + destruct r' as [| h1 [| h2 [| h3 [| h4 r'']]]]; try discriminate.
      destruct (hex_value h1), (hex_value h2), (hex_value h3), (hex_value h4); try discriminate.
      unfold cons_unit in H. destruct (lex_string r'') as [[b0 r0] |] eqn:E; [| discriminate].
      injection H as <- <-. apply IH in E; simpl in *; lia.
    + destruct (escape_char e); [| discriminate].
      unfold cons_unit in H. destruct (lex_string r') as [[b0 r0] |] eqn:E; [| discriminate].
      injection H as <- <-. apply IH in E; simpl in *; lia.
  - destruct (c <? 32)%N; [discriminate |].
    unfold cons_unit in H. destruct (lex_string r) as [[b0 r0] |] eqn:E; [| discriminate].
    injection H as <- <-. apply IH in E; simpl in *; lia.
Qed.

Lemma lex_string_length (s body rest : jsstring) :
  lex_string s = Some (body, rest) -> length rest < length s.
Proof. apply (lex_string_length_aux (length s)). lia. Qed.

Lemma lex_number_length (s lexeme rest : jsstring) :
  lex_number s = Some (lexeme, rest) -> length rest < length s.
Proof.
  unfold lex_number.
  set (p := match s with c :: r => if N.eqb c 45 then ([c], r) else ([], s) | [] => ([], s) end).
  assert (Hp : length (snd p) <= length s).
  { unfold p. destruct s as [| c r]; simpl; [lia |]. destruct (N.eqb c 45); simpl; lia. }
  destruct p as [sign s1]. simpl in Hp.
  destruct s1 as [| c r]; [discriminate |].
  assert (Hint : forall ip s2,
            (if N.eqb c 48 then Some ([c], r)
             else if is_digit c then Some (take_digits (c :: r)) else None) = Some (ip, s2) ->
            length s2 < length (c :: r)).
  { intros ip s2 H. destruct (N.eqb c 48); [injection H as <- <-; simpl; lia |].
    destruct (is_digit c) eqn:Ed; [| discriminate].
    injection H as H. simpl in H. rewrite Ed in H.
    destruct (take_digits r) as [d' r'] eqn:E. injection H as <- <-.
    apply take_digits_length in E. simpl. lia. }
  destruct (if N.eqb c 48 then _ else _) as [[ip s2] |] eqn:Ei; [| discriminate].
  specialize (Hint ip s2 eq_refl).
  assert (Hfrac : forall fp s3,
            match s2 with
            | d :: r2 =>
                if N.eqb d 46 then
                  match take_digits1 r2 with
                  | Some (fd, s3) => Some (d :: fd, s3)
                  | None => None
                  end
                else Some ([], s2)
            | [] => Some ([], s2)
            end = Some (fp, s3) -> length s3 <= length s2).
  { intros fp s3 H. destruct s2 as [| d r2]; [injection H as <- <-; lia |].
    destruct (N.eqb d 46); [| injection H as <- <-; lia].
    destruct (take_digits1 r2) as [[fd s3'] |] eqn:E; [| discriminate].
    injection H as <- <-. apply take_digits1_length in E. simpl. lia. }
  destruct (match s2 with [] => _ | _ :: _ => _ end) as [[fp s3] |] eqn:Ef; [| discriminate].
  specialize (Hfrac fp s3 eq_refl).
  assert (Hexp : forall ep s4,
            match s3 with
            | e :: r3 =>
                if N.eqb e 101 || N.eqb e 69 then
                  let (sg, r4) :=
                    match r3 with
                    | x :: r4 => if N.eqb x 43 || N.eqb x 45 then ([x], r4) else ([], r3)
                    | [] => ([], r3)
                    end in
                  match take_digits1 r4 with
                  | Some (ed, s4) => Some (e :: sg ++ ed, s4)
                  | None => None
                  end
                else Some ([], s3)
            | [] => Some ([], s3)
            end = Some (ep, s4) -> length s4 <= length s3).
  { intros ep s4 H. destruct s3 as [| e r3]; [injection H as <- <-; lia |].
    destruct (N.eqb e 101 || N.eqb e 69); [| injection H as <- <-; lia].
    set (q := match r3 with x :: r4 => if N.eqb x 43 || N.eqb x 45 then ([x], r4) else ([], r3) | [] => ([], r3) end) in H.
    assert (Hq : length (snd q) <= length r3).
    { unfold q. destruct r3 as [| x r4]; simpl; [lia |].
      destruct (N.eqb x 43 || N.eqb x 45); simpl; lia. }
    destruct q as [sg r4]. simpl in Hq.
    destruct (take_digits1 r4) as [[ed s4'] |] eqn:E; [| discriminate].
    injection H as <- <-. apply take_digits1_length in E. simpl. lia. }
  destruct (match s3 with [] => _ | _ :: _ => _ end) as [[ep s4] |] eqn:Ee; [| discriminate].
  specialize (Hexp ep s4 eq_refl).
  intros H. injection H as <- <-. simpl in *. lia.
Qed.

Ltac parse_step f IHv IHe IHm H :=
  match type of H with
  | context [parse_value f ?x] =>
      let E := fresh "E" in
      destruct (parse_value f x) as [[? ?] |] eqn:E;
      [apply IHv in E; rewrite E | discriminate H]
  | context [parse_elements f ?x] =>
      let E := fresh "E" in
      destruct (parse_elements f x) as [[? ?] |] eqn:E;
      [apply IHe in E; rewrite E | discriminate H]
  | context [parse_members f ?x] =>
      let E := fresh "E" in
      destruct (parse_members f x) as [[? ?] |] eqn:E;
      [apply IHm in E; rewrite E | discriminate H]
  | context [match ?x with _ => _ end] => destruct x eqn:?; try discriminate H
  end.

(** A larger budget does not change a result. *)
Lemma parse_mono (fuel : nat) :
  (forall s r, parse_value fuel s = Some r -> parse_value (S fuel) s = Some r)
  /\ (forall s r, parse_elements fuel s = Some r -> parse_elements (S fuel) s = Some r)
  /\ (forall s r, parse_members fuel s = Some r -> parse_members (S fuel) s = Some r).
Proof.
  induction fuel as [| f (IHv & IHe & IHm)].
  - repeat split; intros; discriminate.
  - repeat split; intros s r H.
    + cbn [parse_value] in H.
      remember (S f) as g eqn:Hg in |- *. rewrite <- Hg in IHv, IHe, IHm. cbn [parse_value].
      repeat parse_step f IHv IHe IHm H; exact H.
    + cbn [parse_elements] in H.
      remember (S f) as g eqn:Hg in |- *. rewrite <- Hg in IHv, IHe, IHm. cbn [parse_elements].
      repeat parse_step f IHv IHe IHm H; exact H.
    + cbn [parse_members] in H.
      remember (S f) as g eqn:Hg in |- *. rewrite <- Hg in IHv, IHe, IHm. cbn [parse_members].
      repeat parse_step f IHv IHe IHm H; exact H.
Qed.

Lemma parse_value_mono (f g : nat) (s : jsstring) (r : JSValue * jsstring) :
  f <= g -> parse_value f s = Some r -> parse_value g s = Some r.
Proof. induction 1; [trivial |]. intros. apply parse_mono. auto. Qed.

Lemma parse_elements_mono (f g : nat) (s : jsstring) (r : list JSValue * jsstring) :
  f <= g -> parse_elements f s = Some r -> parse_elements g s = Some r.
Proof. induction 1; [trivial |]. intros. apply parse_mono. auto. Qed.

Lemma parse_members_mono (f g : nat) (s : jsstring) (r : list (jsstring * JSValue) * jsstring) :
  f <= g -> parse_members f s = Some r -> parse_members g s = Some r.
Proof. induction 1; [trivial |]. intros. apply parse_mono. auto. Qed.

Ltac crack H :=
  repeat match type of H with
         | context [match ?x with _ => _ end] => destruct x eqn:?; try discriminate H
         end.

Ltac length_facts :=
  repeat match goal with
         | E : skip_ws ?x = ?y |- _ =>
             lazymatch goal with
             | _ : length y <= length x |- _ => fail
             | _ => let L := fresh "L" in
                    pose proof (skip_ws_length x) as L; rewrite E in L
             end
         | E : lex_string ?x = Some (_, ?y) |- _ =>
             lazymatch goal with
             | _ : length y < length x |- _ => fail
             | _ => pose proof (lex_string_length _ _ _ E)
             end
         | E : lex_number ?x = Some (_, ?y) |- _ =>
             lazymatch goal with
             | _ : length y < length x |- _ => fail
             | _ => pose proof (lex_number_length _ _ _ E)
             end
         | E : strip_prefix ?p ?x = Some ?y |- _ =>
             lazymatch goal with
             | _ : length x = length p + length y |- _ => fail
             | _ => pose proof (strip_prefix_length _ _ _ E)
             end
         end.

Ltac replay :=
  repeat match goal with
         | E : ?x = _ |- context [match ?x with _ => _ end] => rewrite E; cbv beta iota
         end.

Ltac literal_lengths :=
  repeat match goal with
         | H : context [length (js ?x)] |- _ =>
             let n := eval vm_compute in (length (js x)) in
             change (length (js x)) with n in H
         end.

Ltac use_bounds IHv IHe IHm :=
  repeat match goal with
         | E : parse_value _ _ = Some _ |- _ => apply IHv in E as [? ?]
         | E : parse_elements _ _ = Some _ |- _ => apply IHe in E as [? ?]
         | E : parse_members _ _ = Some _ |- _ => apply IHm in E as [? ?]
         end.

Ltac lift_to g :=
  repeat match goal with
         | E : parse_value ?k _ = Some _ |- _ =>
             tryif constr_eq k g then fail
             else (apply (parse_value_mono k g) in E; [| lia])
         | E : parse_elements ?k _ = Some _ |- _ =>
             tryif constr_eq k g then fail
             else (apply (parse_elements_mono k g) in E; [| lia])
         | E : parse_members ?k _ = Some _ |- _ =>
             tryif constr_eq k g then fail
             else (apply (parse_members_mono k g) in E; [| lia])
         end.

Ltac settle_bound IHv IHe IHm H :=
  unfold lex_literal in H; crack H;
  injection H as <- <-;
  use_bounds IHv IHe IHm;
  length_facts; literal_lengths; cbn [length] in *;
  (split; [lia |]);
  match goal with
  | |- _ ?n _ = _ =>
      let g := fresh "g" in
      let Hg := fresh "Hg" in
      destruct n as [| g] eqn:Hg; [lia |];
      cbn [parse_value parse_elements parse_members]; unfold lex_literal;
      lift_to g; replay; reflexivity
  end.

(** A result is reached within twice the number of characters it consumes. *)
Lemma parse_bound (fuel : nat) :
  (forall s v rest, parse_value fuel s = Some (v, rest) ->
     length rest < length s
     /\ parse_value (2 * (length s - length rest)) s = Some (v, rest))
  /\ (forall s vs rest, parse_elements fuel s = Some (vs, rest) ->
        length rest < length s
        /\ parse_elements (2 * (length s - length rest)) s = Some (vs, rest))
  /\ (forall s ms rest, parse_members fuel s = Some (ms, rest) ->
        length rest < length s
        /\ parse_members (2 * (length s - length rest)) s = Some (ms, rest)).
Proof.
  induction fuel as [| f (IHv & IHe & IHm)].
  - split; [| split]; intros; discriminate.
  - split; [| split]; intros s v rest H.
    + cbn [parse_value] in H. settle_bound IHv IHe IHm H.
    + cbn [parse_elements] in H. settle_bound IHv IHe IHm H.
    + cbn [parse_members] in H. settle_bound IHv IHe IHm H.
Qed.

(** The budget [JSON_parse] gives the parser is enough: a value that any
    budget finds is found within it, so [None] stands for text that is not
    JSON and never for a budget that ran out. *)
Lemma JSON_parse_budget (fuel : nat) (s : jsstring) (r : JSValue * jsstring) :
  parse_value fuel s = Some r -> parse_value (2 * length s + 2) s = Some r.
Proof.
  destruct r as [v rest]. intros H.
  destruct (proj1 (parse_bound fuel) s v rest H) as [Hlen Hrun].
  apply (parse_value_mono (2 * (length s - length rest)) (2 * length s + 2)); [lia | exact Hrun].
Qed.

(* ================================================================== *)
(** * Facts about the handlers *)
(* ================================================================== *)

(** The calls of [callAgent] recorded in a trace, in order. *)
Definition dispatches (tr : list Event) : list (jsstring * jsstring) :=
  flat_map (fun e => match e with EvDispatch a p => [(a, p)] | _ => [] end) tr.

(** The requests to the language model recorded in a trace, in order. *)
Definition requests (tr : list Event) : list (jsstring * option FileData) :=
  flat_map (fun e => match e with EvGenerate r i => [(r, i)] | _ => [] end) tr.

Lemma dispatches_app (t1 t2 : list Event) :
  dispatches (t1 ++ t2) = dispatches t1 ++ dispatches t2.
Proof. unfold dispatches. now rewrite flat_map_app. Qed.

Lemma requests_app (t1 t2 : list Event) :
  requests (t1 ++ t2) = requests t1 ++ requests t2.
Proof. unfold requests. now rewrite flat_map_app. Qed.

(** The state cells that no agent handler writes. *)
Definition frame (s s' : AppState) : Prop :=
  chatHistory s' = chatHistory s /\ userInput s' = userInput s /\
  uploadedFiles s' = uploadedFiles s /\ vectorStore s' = vectorStore s /\
  isIndexing s' = isIndexing s /\ isDarkMode s' = isDarkMode s /\
  modelStatus s' = modelStatus s.

(** A step of a handler: the frame is kept and no agent is dispatched. *)
Definition quiet (w w' : World) : Prop :=
  frame (state w) (state w') /\ dispatches (trace w') = dispatches (trace w).

Ltac frame_tac :=
  unfold quiet, frame in *; simpl in *;
  repeat match goal with H : _ /\ _ |- _ => destruct H end;
  repeat split; try congruence.

Lemma quiet_refl (w : World) : quiet w w.
Proof. frame_tac. Qed.

Lemma quiet_trans (w1 w2 w3 : World) : quiet w1 w2 -> quiet w2 w3 -> quiet w1 w3.
Proof. intros. frame_tac. Qed.

(** Every stored record has its embedding. *)
Definition store_ok (s : AppState) : Prop :=
  Forall (fun v => hasEmbedding v = true) (vectorStore s).

(** The score the query gives a stored record. *)
Definition scored (q : list float) (v : VectorRecord) : SimilarChunk :=
  mkSimilarChunk v
    match embedding v with
    | Some e => dotProduct q e
    | None => nan
    end.

(** The text a language-model outcome is turned into. *)
Definition textOf (o : ApiOutcome) : JSText :=
  match o with
  | ApiText s => TStr s
  | ApiNoText => TUndefined
  | ApiError _ => TNull
  end.

Definition isApiError (o : ApiOutcome) : bool :=
  match o with
  | ApiError _ => true
  | _ => false
  end.

Definition knownAgent (a : jsstring) : bool :=
  str_eqb a (js "KnowledgeAgent") || str_eqb a (js "WebSearchAgent")
  || str_eqb a (js "CodeGenerationAgent") || str_eqb a (js "SummarizationAgent")
  || str_eqb a (js "ImageAnalysisAgent").

(** The text of the dispatcher's [default] branch. *)
Definition unknownAgentText (a : jsstring) : jsstring :=
  js "Error: Unknown agent " ++ dq ++ a ++ dq ++ js ".".

Lemma In_firstn {A : Type} (n : nat) (l : list A) (x : A) : In x (firstn n l) -> In x l.
Proof.
  intros H. rewrite <- (firstn_skipn n l). apply in_or_app. now left.
Qed.

Section HandlerFacts.

Variable generate : list Event -> jsstring -> option FileData -> ApiOutcome.
Variable embed : list Event -> jsstring -> option (list float).
Variable snap : AppState.

Lemma callGeminiAPI_runs (request : jsstring) (attachment : option FileData) (w : World) :
  exists w',
    callGeminiAPI generate request attachment w
    = (Ok (textOf (generate (trace w) request attachment)), w')
    /\ trace w' = trace w ++ [EvGenerate request attachment]
    /\ quiet w w'
    /\ attachedImage (state w') = attachedImage (state w)
    /\ (isApiError (generate (trace w) request attachment) = false -> state w' = state w).
Proof.
  unfold callGeminiAPI.
  destruct (generate (trace w) request attachment); simpl;
    eexists; (split; [reflexivity |]);
    unfold quiet, frame; simpl; rewrite ?dispatches_app; simpl; rewrite ?app_nil_r;
    repeat split; try reflexivity; try discriminate.
Qed.

Lemma mapM_score (q : list float) (store : list VectorRecord) (w : World) :
  Forall (fun v => hasEmbedding v = true) store ->
  mapM (score q) store w = (Ok (map (scored q) store), w).
Proof.
  induction 1 as [| v store Hv _ IH]; simpl; [reflexivity |].
  unfold bind at 1. unfold score at 1, scored at 1.
  unfold hasEmbedding in Hv. destruct (embedding v); [| discriminate].
  unfold ret at 1. unfold bind. rewrite IH. reflexivity.
Qed.

Lemma findSimilarChunks_runs (query : jsstring) (w : World) :
  store_ok snap ->
  exists r w',
    findSimilarChunks embed snap query w = (Ok r, w')
    /\ state w' = state w
    /\ dispatches (trace w') = dispatches (trace w)
    /\ requests (trace w') = requests (trace w)
    /\ Forall (fun c => In (stored c) (vectorStore snap)) r.
Proof.
  intros Hok. unfold findSimilarChunks.
  destruct ((length (vectorStore snap) =? 0) || negb (ready (modelStatus snap))).
  - exists [], w. repeat split; constructor.
  - unfold bind, getClientSideEmbedding.
    destruct (embed (trace w) query) as [q |].
    + rewrite mapM_score by exact Hok. eexists _, _. split; [reflexivity |].
      cbn [state trace]. rewrite dispatches_app, requests_app. cbn [dispatches requests flat_map].
      rewrite !app_nil_r. repeat split.
      rewrite Forall_forall. intros c Hc. apply In_firstn in Hc.
      apply (Permutation_in _ (sort_perm _ _)) in Hc.
      apply in_map_iff in Hc as (v & <- & Hv). exact Hv.
    + eexists _, _. split; [reflexivity |]. simpl.
      rewrite dispatches_app, requests_app, !app_nil_r. repeat split. constructor.
Qed.

(** A handler's run: it returns a message of its agent. *)
Definition handlerRuns (h : M Message) (agentName : jsstring) : Prop :=
  forall w, exists t srcs w',
    h w = (Ok (agentMessage agentName t srcs), w') /\ quiet w w'.

Lemma handleKnowledgeQuery_runs (prompt : jsstring) :
  store_ok snap ->
  handlerRuns (handleKnowledgeQuery generate embed snap prompt) (js "KnowledgeAgent").
Proof.
  intros Hok w. unfold handleKnowledgeQuery, bind.
  destruct (findSimilarChunks_runs prompt w Hok) as (r & w1 & -> & Hs & Hd & _ & _).
  destruct (length r =? 0).
  - eexists _, _, _. split; [reflexivity |]. frame_tac.
  - match goal with |- context [callGeminiAPI generate ?p ?a w1] =>
      destruct (callGeminiAPI_runs p a w1) as (w2 & -> & _ & Hq & _) end.
    eexists _, _, _. split; [reflexivity |]. frame_tac.
Qed.

Lemma handleWebSearchQuery_runs (prompt : jsstring) :
  handlerRuns (handleWebSearchQuery generate prompt) (js "WebSearchAgent").
Proof.
  intros w. unfold handleWebSearchQuery, bind.
  match goal with |- context [callGeminiAPI generate ?p ?a w] =>
    destruct (callGeminiAPI_runs p a w) as (w2 & -> & _ & Hq & _) end.
  eexists _, _, _. split; [reflexivity | exact Hq].
Qed.

Lemma handleCodeGenerationQuery_runs (prompt : jsstring) :
  handlerRuns (handleCodeGenerationQuery generate prompt) (js "CodeGenerationAgent").
Proof.
  intros w. unfold handleCodeGenerationQuery, bind.
  match goal with |- context [callGeminiAPI generate ?p ?a w] =>
    destruct (callGeminiAPI_runs p a w) as (w2 & -> & _ & Hq & _) end.
  eexists _, _, _. split; [reflexivity | exact Hq].
Qed.

Lemma handleSummarizationQuery_runs (prompt : jsstring) :
  handlerRuns (handleSummarizationQuery generate snap prompt) (js "SummarizationAgent").
Proof.
  intros w. unfold handleSummarizationQuery, bind.
  destruct (match find_file _ _ with Some f => textContent f | None => Some prompt end)
    as [[| c rest] |].
  - eexists _, _, _. split; [reflexivity | apply quiet_refl].
  - match goal with |- context [callGeminiAPI generate ?p ?a w] =>
      destruct (callGeminiAPI_runs p a w) as (w2 & -> & _ & Hq & _) end.
    eexists _, _, _. split; [reflexivity | exact Hq].
  - eexists _, _, _. split; [reflexivity | apply quiet_refl].
Qed.

Lemma handleImageAnalysisQuery_runs (prompt : jsstring) :
  handlerRuns (handleImageAnalysisQuery generate snap prompt) (js "ImageAnalysisAgent").
Proof.
  intros w. unfold handleImageAnalysisQuery, bind.
  destruct (attachedImage snap) as [img |].
  - destruct (callGeminiAPI_runs prompt (Some img) w) as (w2 & -> & _ & Hq & _).
    eexists _, _, _. split; [reflexivity |]. frame_tac.
  - eexists _, _, _. split; [reflexivity | apply quiet_refl].
Qed.

Lemma callAgent_runs (agentName prompt : jsstring) (w : World) :
  store_ok snap ->
  exists t srcs w',
    callAgent generate embed snap agentName prompt w
    = (Ok (agentMessage agentName t srcs), w')
    /\ frame (state w) (state w')
    /\ dispatches (trace w') = dispatches (trace w) ++ [(agentName, prompt)]
    /\ (knownAgent agentName = false ->
        t = TStr (unknownAgentText agentName) /\ srcs = None /\ state w' = state w).
Proof.
  intros Hok. unfold callAgent, bind at 1, emit.
  set (w0 := mkWorld (state w) (trace w ++ [EvDispatch agentName prompt])).
  assert (Hd0 : dispatches (trace w0) = dispatches (trace w) ++ [(agentName, prompt)])
    by (unfold w0; simpl; now rewrite dispatches_app).
  assert (Hfin : forall h,
            handlerRuns h agentName ->
            knownAgent agentName = true ->
            exists t srcs w',
              h w0 = (Ok (agentMessage agentName t srcs), w')
              /\ frame (state w) (state w')
              /\ dispatches (trace w') = dispatches (trace w) ++ [(agentName, prompt)]
              /\ (knownAgent agentName = false ->
                  t = TStr (unknownAgentText agentName) /\ srcs = None /\ state w' = state w)).
  { intros h Hh Hknown. destruct (Hh w0) as (t & srcs & w' & E & Hq).
    exists t, srcs, w'. split; [exact E |]. destruct Hq as [Hf Hd].
    repeat split; try (unfold w0 in Hf; frame_tac); try congruence. }
  unfold knownAgent in *.
  destruct (str_eqb agentName (js "KnowledgeAgent")) eqn:E1.
  { apply str_eqb_eq in E1. subst agentName. apply Hfin; [| reflexivity].
    now apply handleKnowledgeQuery_runs. }
  destruct (str_eqb agentName (js "WebSearchAgent")) eqn:E2.
  { apply str_eqb_eq in E2. subst agentName. apply Hfin; [| reflexivity].
    apply handleWebSearchQuery_runs. }
  destruct (str_eqb agentName (js "CodeGenerationAgent")) eqn:E3.
  { apply str_eqb_eq in E3. subst agentName. apply Hfin; [| reflexivity].
    apply handleCodeGenerationQuery_runs. }
  destruct (str_eqb agentName (js "SummarizationAgent")) eqn:E4.
  { apply str_eqb_eq in E4. subst agentName. apply Hfin; [| reflexivity].
    apply handleSummarizationQuery_runs. }
  destruct (str_eqb agentName (js "ImageAnalysisAgent")) eqn:E5.
  { apply str_eqb_eq in E5. subst agentName. apply Hfin; [| reflexivity].
    apply handleImageAnalysisQuery_runs. }
  exists (TStr (unknownAgentText agentName)), None, w0.
  split; [reflexivity |]. split; [unfold w0; frame_tac |]. split; [exact Hd0 |].
  intros _. repeat split.
Qed.

End HandlerFacts.

(* ================================================================== *)
(** * Facts about the plan executor *)
(* ================================================================== *)

(** The calls of [callAgent] a run makes, read off the plan and the texts
    its steps return: step [i + 1] is dispatched with its prompt resolved
    against the outputs recorded so far. *)
Fixpoint plan_dispatches (steps : list PlanStep) (outs : list JSText) (i : nat)
    (so : StepOutputs) : list (jsstring * jsstring) :=
  match steps, outs with
  | st :: rest, t :: outs' =>
      (agent st, substitute so (prompt st))
      :: plan_dispatches rest outs' (S i) (obj_set so (stepKey (i + 1)) t)
  | _, _ => []
  end.

(** The messages a run leaves in the chat, one per step. *)
Fixpoint plan_messages (n : nat) (steps : list PlanStep)
    (outs : list (JSText * option (list Source))) (i : nat) : list Message :=
  match steps, outs with
  | st :: rest, (t, srcs) :: outs' =>
      withFinalStep (agentMessage (agent st) t srcs) (i =? n - 1)
      :: plan_messages n rest outs' (S i)
  | _, _ => []
  end.

Lemma plan_messages_length (n : nat) (steps : list PlanStep) : forall outs i,
  length outs = length steps -> length (plan_messages n steps outs i) = length steps.
Proof.
  induction steps as [| st steps IH]; intros [| [t srcs] outs] i H; simpl in *;
    try reflexivity; try discriminate.
  f_equal. apply IH. lia.
Qed.

Lemma plan_messages_nth (n : nat) (steps : list PlanStep) : forall outs i k st t srcs,
  nth_error steps k = Some st -> nth_error outs k = Some (t, srcs) ->
  nth_error (plan_messages n steps outs i) k
  = Some (withFinalStep (agentMessage (agent st) t srcs) (i + k =? n - 1)).
Proof.
  induction steps as [| st0 steps IH]; intros [| [t0 srcs0] outs] i [| k] st t srcs Hs Ho;
    simpl in *; try discriminate.
  - injection Hs as ->. injection Ho as -> ->. now rewrite Nat.add_0_r.
  - rewrite (IH outs (S i) k st t srcs Hs Ho).
    replace (S i + k) with (i + S k) by lia. reflexivity.
Qed.

Lemma plan_dispatches_agents (steps : list PlanStep) : forall outs i so,
  length outs = length steps ->
  map fst (plan_dispatches steps outs i so) = map agent steps.
Proof.
  induction steps as [| st steps IH]; intros [| t outs] i so H; simpl in *;
    try reflexivity; try discriminate.
  f_equal. apply IH. lia.
Qed.

Section ExecutorFacts.

Variable generate : list Event -> jsstring -> option FileData -> ApiOutcome.
Variable embed : list Event -> jsstring -> option (list float).
Variable snap : AppState.
Hypothesis snap_ok : store_ok snap.

(** A run of the loop never throws; it dispatches every remaining step in
    order and leaves one message per step. *)
Lemma executePlan_from_runs (n : nat) (steps : list PlanStep) : forall i so w,
  exists (outs : list (JSText * option (list Source))) (w' : World),
    executePlan_from generate embed snap n steps i so w = (Ok tt, w')
    /\ length outs = length steps
    /\ dispatches (trace w') = dispatches (trace w) ++ plan_dispatches steps (map fst outs) i so
    /\ chatHistory (state w') = chatHistory (state w) ++ plan_messages n steps outs i
    /\ vectorStore (state w') = vectorStore (state w)
    /\ uploadedFiles (state w') = uploadedFiles (state w)
    /\ (forall k st o, nth_error steps k = Some st -> nth_error outs k = Some o ->
          knownAgent (agent st) = false ->
          o = (TStr (unknownAgentText (agent st)), None)).
Proof.
  induction steps as [| st steps IH]; intros i so w.
  - exists [], w. simpl. rewrite !app_nil_r. repeat split.
    intros [| k] ? ? H; discriminate.
  - cbn [executePlan_from]. unfold bind at 1, setChatHistory at 1, update at 1.
    set (w1 := mkWorld _ (trace w)).
    unfold bind at 1.
    destruct (callAgent_runs generate embed snap (agent st) (substitute so (prompt st)) w1 snap_ok)
      as (t & srcs & w2 & -> & Hf & Hd & Hu).
    unfold bind at 1. cbn [first_text agentMessage parts ret text].
    unfold bind at 1, setChatHistory at 1, update at 1.
    set (w3 := mkWorld _ (trace w2)).
    destruct (IH (S i) (obj_set so (stepKey (i + 1)) t) w3)
      as (outs & w' & -> & Hlen & Hd' & Hc' & Hv' & Hup' & Hu').
    exists ((t, srcs) :: outs), w'.
    split; [reflexivity |]. split; [simpl; lia |].
    assert (Hch2 : chatHistory (state w2) = chatHistory (state w) ++ [thinkingMessage st i n (substitute so (prompt st))])
      by (unfold w1 in Hf; frame_tac).
    split; [| split; [| split; [| split]]].
    + rewrite Hd'. unfold w3. cbn [trace]. rewrite Hd. unfold w1. cbn [trace map fst plan_dispatches].
      now rewrite <- app_assoc.
    + rewrite Hc'. unfold w3. cbn [state with_chatHistory chatHistory].
      rewrite Hch2, removelast_last. cbn [plan_messages]. now rewrite <- app_assoc.
    + rewrite Hv'. unfold w3, w1 in *. frame_tac.
    + rewrite Hup'. unfold w3, w1 in *. frame_tac.
    + intros [| k] st' o Hs Ho Hk; simpl in Hs, Ho.
      * injection Hs as <-. injection Ho as <-.
        destruct (Hu Hk) as (-> & -> & _). reflexivity.
      * eapply Hu'; eauto.
Qed.

End ExecutorFacts.

Lemma obj_set_keys (so : StepOutputs) (key : jsstring) (v : JSText) (x : jsstring) :
  In x (map fst (obj_set so key v)) -> x = key \/ In x (map fst so).
Proof.
  induction so as [| [k0 v0] so IH]; simpl.
  - intros [<- | []]. now left.
  - destruct (str_eqb k0 key) eqn:E; simpl.
    + intros [<- | H]; [right; now left | right; now right].
    + intros [<- | H]; [right; now left |].
      destruct (IH H) as [-> | H']; [now left | right; now right].
Qed.

(** The prompt of the step at position [k] is resolved against outputs
    whose keys are those given at the start and the keys of the [k] steps
    run before it. *)
Lemma plan_dispatches_nth (steps : list PlanStep) : forall outs i so k st,
  nth_error steps k = Some st -> k < length outs ->
  exists so',
    nth_error (plan_dispatches steps outs i so) k = Some (agent st, substitute so' (prompt st))
    /\ (forall key, In key (map fst so') ->
          In key (map fst so) \/ exists j, i < j <= i + k /\ key = stepKey j)
    /\ (k = 0 -> so' = so).
Proof.
  induction steps as [| st0 steps IH]; intros [| t outs] i so [| k] st Hs Hk;
    simpl in *; try discriminate; try lia.
  - injection Hs as ->. exists so. repeat split. intros key H. now left.
  - destruct (IH outs (S i) (obj_set so (stepKey (i + 1)) t) k st Hs ltac:(lia))
      as (so' & E & Hkeys & _).
    exists so'. split; [exact E |]. split; [| intros; discriminate].
    intros key H. destruct (Hkeys key H) as [H' | (j & Hj & ->)].
    + apply obj_set_keys in H' as [-> | H']; [| now left].
      right. exists (i + 1). split; [lia | reflexivity].
    + right. exists j. split; [lia | reflexivity].
Qed.

(* ================================================================== *)
(** * The claims about the executor and the dispatcher *)
(* ================================================================== *)

(** Collaborators and states used to run the code on concrete inputs. *)

(** A language model that answers every request with the same text. *)
Definition answerAlways (s : jsstring) : list Event -> jsstring -> option FileData -> ApiOutcome :=
  fun _ _ _ => ApiText s.

(** An embedding model that fails on every input. *)
Definition embedNever : list Event -> jsstring -> option (list float) :=
  fun _ _ => None.

(** The component before any upload, with the embedding model loaded. *)
Definition freshState : AppState :=
  mkAppState [] [] [] [] None false false None true
    (mkModelStatus true (js "Client-Side AI Ready")).

Definition freshWorld : World := mkWorld freshState [].

Lemma freshState_ok : store_ok freshState.
Proof. constructor. Qed.

(** C8.  A plan step whose agent name is none of the five the dispatcher
    knows does not abort the run: [executePlan] returns normally, every step
    of the plan is dispatched in order and leaves its message in the chat,
    and the message of the unknown step carries the text
    [Error: Unknown agent "<name>".] naming that agent.  (The stored records
    all have their embedding, as they do in every state the component
    reaches; the knowledge handler of the other steps reads them.) *)
Theorem unknown_agent_is_soft_failure
    (generate : list Event -> jsstring -> option FileData -> ApiOutcome)
    (embed : list Event -> jsstring -> option (list float))
    (snap : AppState) (plan : list PlanStep) (w : World) (k : nat) (st : PlanStep) :
  store_ok snap ->
  nth_error plan k = Some st ->
  knownAgent (agent st) = false ->
  exists (w' : World) (results : list Message),
    executePlan generate embed snap plan w = (Ok tt, w')
    /\ chatHistory (state w') = chatHistory (state w) ++ results
    /\ length results = length plan
    /\ nth_error results k
       = Some (withFinalStep
                 (agentMessage (agent st)
                    (TStr (js "Error: Unknown agent " ++ dq ++ agent st ++ dq ++ js ".")) None)
                 (k =? length plan - 1))
    /\ map fst (dispatches (trace w')) = map fst (dispatches (trace w)) ++ map agent plan.
Proof.
  intros Hok Hk Hunknown. unfold executePlan.
  destruct (executePlan_from_runs generate embed snap Hok (length plan) plan 0 [] w)
    as (outs & w' & Hrun & Hlen & Hd & Hc & _ & _ & Hu).
  exists w', (plan_messages (length plan) plan outs 0).
  split; [exact Hrun |]. split; [exact Hc |].
  split; [now apply plan_messages_length |].
  split.
  - assert (Hko : k < length outs).
    { rewrite Hlen. apply nth_error_Some. congruence. }
    destruct (nth_error outs k) as [[t srcs] |] eqn:Eo;
      [| apply nth_error_None in Eo; lia].
    specialize (Hu k st (t, srcs) Hk Eo Hunknown). injection Hu as -> ->.
    rewrite (plan_messages_nth _ _ _ 0 k st _ _ Hk Eo). reflexivity.
  - rewrite Hd, map_app. f_equal. apply plan_dispatches_agents.
    now rewrite length_map.
Qed.

Lemma unknown_agent_is_soft_failure_witness :
  exists (w' : World) (results : list Message),
    executePlan (answerAlways (js "ok")) embedNever freshState
      [mkPlanStep (js "FooAgent") (js "x"); mkPlanStep (js "WebSearchAgent") (js "y")] freshWorld
    = (Ok tt, w')
    /\ chatHistory (state w') = chatHistory (state freshWorld) ++ results
    /\ length results = 2
    /\ nth_error results 0
       = Some (withFinalStep
                 (agentMessage (js "FooAgent")
                    (TStr (js "Error: Unknown agent " ++ dq ++ js "FooAgent" ++ dq ++ js ".")) None)
                 false)
    /\ map fst (dispatches (trace w'))
       = map fst (dispatches (trace freshWorld)) ++ [js "FooAgent"; js "WebSearchAgent"].
Proof.
  exact (unknown_agent_is_soft_failure (answerAlways (js "ok")) embedNever freshState
           [mkPlanStep (js "FooAgent") (js "x"); mkPlanStep (js "WebSearchAgent") (js "y")]
           freshWorld 0 (mkPlanStep (js "FooAgent") (js "x"))
           freshState_ok eq_refl eq_refl).
Defined.

(** C9.  A placeholder [{{step_N_output}}] in the prompt of the step at
    position [k] (step [k + 1]) that refers to no completed step ([N] is
    zero, or [N] is the step's own number or a later one) is still in the
    prompt the step is dispatched with; the prompt of the first step is
    dispatched exactly as written. *)
Theorem unresolved_placeholder_passthrough
    (generate : list Event -> jsstring -> option FileData -> ApiOutcome)
    (embed : list Event -> jsstring -> option (list float))
    (snap : AppState) (plan : list PlanStep) (w : World)
    (k : nat) (st : PlanStep) (a b : jsstring) (N : nat) :
  store_ok snap ->
  nth_error plan k = Some st ->
  prompt st = a ++ placeholder (stepKey N) ++ b ->
  N = 0 \/ k < N ->
  exists (w' : World) (a' b' : jsstring),
    executePlan generate embed snap plan w = (Ok tt, w')
    /\ nth_error (dispatches (trace w')) (length (dispatches (trace w)) + k)
       = Some (agent st, a' ++ placeholder (stepKey N) ++ b')
    /\ (k = 0 -> a' = a /\ b' = b).
Proof.
  intros Hok Hk Hprompt HN. unfold executePlan.
  destruct (executePlan_from_runs generate embed snap Hok (length plan) plan 0 [] w)
    as (outs & w' & Hrun & Hlen & Hd & _).
  assert (Hko : k < length (map fst outs)).
  { rewrite length_map, Hlen. apply nth_error_Some. congruence. }
  destruct (plan_dispatches_nth plan (map fst outs) 0 [] k st Hk Hko) as (so' & E & Hkeys & H0).
  assert (Hkeep : contains (placeholder (stepKey N)) (substitute so' (prompt st))).
  { apply substitute_keeps_placeholder.
    - apply stepKey_braceFree.
    - rewrite Forall_forall. intros [key v] Hin. simpl.
      destruct (Hkeys key) as [[] | (j & Hj & ->)].
      + apply in_map_iff. now exists (key, v).
      + split; [apply stepKey_braceFree |].
        intros Heq. apply stepKey_inj in Heq. lia.
    - rewrite Hprompt. now exists a, b. }
  destruct k as [| k].
  - exists w', a, b. split; [exact Hrun |]. split; [| auto].
    rewrite Hd, nth_error_app2 by lia. replace (_ + 0 - _) with 0 by lia.
    rewrite E, (H0 eq_refl), substitute_nil, Hprompt. reflexivity.
  - destruct Hkeep as (a' & b' & Hkeep).
    exists w', a', b'. split; [exact Hrun |]. split; [| intros; discriminate].
    rewrite Hd, nth_error_app2 by lia.
    replace (_ + S k - _) with (S k) by lia.
    rewrite E, Hkeep. reflexivity.
Qed.

Lemma unresolved_placeholder_passthrough_witness :
  exists w' : World,
    executePlan (answerAlways (js "ok")) embedNever freshState
      [mkPlanStep (js "WebSearchAgent") (js "see {{step_3_output}}!")] freshWorld
    = (Ok tt, w')
    /\ nth_error (dispatches (trace w')) 0
       = Some (js "WebSearchAgent", js "see {{step_3_output}}!").
Proof.
  destruct (unresolved_placeholder_passthrough (answerAlways (js "ok")) embedNever freshState
              [mkPlanStep (js "WebSearchAgent") (js "see {{step_3_output}}!")] freshWorld
              0 (mkPlanStep (js "WebSearchAgent") (js "see {{step_3_output}}!"))
              (js "see ") (js "!") 3
              freshState_ok eq_refl eq_refl (or_intror (Nat.lt_0_succ 2)))
    as (w' & a' & b' & Hrun & Hnth & Hfirst).
  exists w'. split; [exact Hrun |].
  destruct (Hfirst eq_refl) as [-> ->]. exact Hnth.
Defined.

(** C1 (the code departs from the claim).  [executePlan] resolves a
    placeholder with [String.prototype.replace] and a string pattern, which
    replaces the leftmost occurrence only and reads [$]-patterns in the
    output text.  With step 1 answering [RESULT], the prompt
    [{{step_1_output}} and {{step_1_output}}] of step 2 is dispatched as
    [RESULT and {{step_1_output}}]; with step 1 answering [$&], the prompt
    [use {{step_1_output}}] of step 2 is dispatched unchanged.  (The prompt
    [use {{step_1_output}}] with the answer [RESULT] is dispatched as
    [use RESULT].) *)
Theorem repeated_placeholder_replaced_once :
  dispatches (trace (snd (executePlan (answerAlways (js "RESULT")) embedNever freshState
     [mkPlanStep (js "WebSearchAgent") (js "x");
      mkPlanStep (js "WebSearchAgent") (js "{{step_1_output}} and {{step_1_output}}")]
     freshWorld)))
  = [(js "WebSearchAgent", js "x");
     (js "WebSearchAgent", js "RESULT and {{step_1_output}}")]
  /\
  dispatches (trace (snd (executePlan (answerAlways (js "$&")) embedNever freshState
     [mkPlanStep (js "WebSearchAgent") (js "x");
      mkPlanStep (js "WebSearchAgent") (js "use {{step_1_output}}")]
     freshWorld)))
  = [(js "WebSearchAgent", js "x");
     (js "WebSearchAgent", js "use {{step_1_output}}")]
  /\
  dispatches (trace (snd (executePlan (answerAlways (js "RESULT")) embedNever freshState
     [mkPlanStep (js "WebSearchAgent") (js "x");
      mkPlanStep (js "WebSearchAgent") (js "use {{step_1_output}}")]
     freshWorld)))
  = [(js "WebSearchAgent", js "x");
     (js "WebSearchAgent", js "use RESULT")].
Proof. vm_compute. repeat split. Qed.

(* ================================================================== *)
(** * The attached image *)
(* ================================================================== *)

Lemma callAgent_image
    (generate : list Event -> jsstring -> option FileData -> ApiOutcome)
    (embed : list Event -> jsstring -> option (list float))
    (snap : AppState) (p : jsstring) (w : World) :
  callAgent generate embed snap (js "ImageAnalysisAgent") p w
  = handleImageAnalysisQuery generate snap p
      (mkWorld (state w) (trace w ++ [EvDispatch (js "ImageAnalysisAgent") p])).
Proof. reflexivity. Qed.

Section ImageFacts.

Variable generate : list Event -> jsstring -> option FileData -> ApiOutcome.
Variable embed : list Event -> jsstring -> option (list float).
Variable snap : AppState.
Variable img : FileData.
Hypothesis attached : attachedImage snap = Some img.

Lemma handleImageAnalysisQuery_attached (p : jsstring) (w : World) :
  exists w',
    handleImageAnalysisQuery generate snap p w
    = (Ok (agentMessage (js "ImageAnalysisAgent") (textOf (generate (trace w) p (Some img))) None), w')
    /\ trace w' = trace w ++ [EvGenerate p (Some img)]
    /\ attachedImage (state w') = None
    /\ frame (state w) (state w')
    /\ (isApiError (generate (trace w) p (Some img)) = false ->
        state w' = with_attachedImage None (state w)).
Proof.
  unfold handleImageAnalysisQuery. rewrite attached. unfold bind.
  destruct (callGeminiAPI_runs generate p (Some img) w) as (w1 & -> & Ht & Hq & _ & Hs).
  eexists. split; [reflexivity |]. cbn [state trace with_attachedImage attachedImage].
  split; [exact Ht |]. split; [reflexivity |]. split; [frame_tac |].
  intros Hne. now rewrite (Hs Hne).
Qed.

(** In a plan whose steps all go to the image agent, every step sends its
    prompt together with the image of the render, whatever the earlier
    steps did to the stored attachment. *)
Lemma executePlan_from_images (n : nat) (steps : list PlanStep) : forall i so w,
  Forall (fun st => agent st = js "ImageAnalysisAgent") steps ->
  exists (outs : list JSText) (w' : World),
    executePlan_from generate embed snap n steps i so w = (Ok tt, w')
    /\ length outs = length steps
    /\ requests (trace w')
       = requests (trace w) ++ map (fun d => (snd d, Some img)) (plan_dispatches steps outs i so)
    /\ chatHistory (state w')
       = chatHistory (state w) ++ plan_messages n steps (map (fun t => (t, None)) outs) i
    /\ (steps <> [] \/ attachedImage (state w) = None -> attachedImage (state w') = None).
Proof.
  induction steps as [| st steps IH]; intros i so w Hall.
  - exists [], w. simpl. rewrite !app_nil_r. repeat split. intros [H | H]; congruence.
  - inversion Hall as [| ? ? Hst Hall']; subst.
    cbn [executePlan_from]. unfold bind at 1, setChatHistory at 1, update at 1.
    set (w1 := mkWorld _ (trace w)).
    unfold bind at 1. rewrite Hst, callAgent_image.
    match goal with |- context [handleImageAnalysisQuery generate snap ?p ?w0] =>
      destruct (handleImageAnalysisQuery_attached p w0) as (w2 & -> & Ht & Hi & Hf & _);
      set (t := textOf (generate (trace w0) p (Some img))) in * end.
    unfold bind at 1. cbn [first_text agentMessage parts ret text].
    unfold bind at 1, setChatHistory at 1, update at 1.
    set (w3 := mkWorld _ (trace w2)).
    destruct (IH (S i) (obj_set so (stepKey (i + 1)) t) w3 Hall')
      as (outs & w' & -> & Hlen & Hr & Hc & Ha).
    exists (t :: outs), w'.
    split; [reflexivity |]. split; [simpl; lia |].
    split; [| split].
    + rewrite Hr. unfold w3. cbn [trace]. rewrite Ht. cbn [trace].
      rewrite !requests_app. unfold w1. cbn [trace requests flat_map plan_dispatches map snd].
      now rewrite app_nil_r, <- !app_assoc.
    + rewrite Hc. unfold w3. cbn [state with_chatHistory chatHistory].
      assert (Hch2 : chatHistory (state w2)
                     = chatHistory (state w) ++ [thinkingMessage st i n (substitute so (prompt st))])
        by (unfold w1 in Hf; frame_tac).
      rewrite Hch2, removelast_last. cbn [plan_messages map]. rewrite Hst.
      now rewrite <- app_assoc.
    + intros _. apply Ha. right. unfold w3. cbn [state with_attachedImage with_chatHistory attachedImage].
      exact Hi.
Qed.

End ImageFacts.

(** An attached picture, for running the code. *)
Definition picture : FileData :=
  mkFileData (js "cat.png") (js "image/png")
    (mkBrowserFile (js "cat.png") (js "image/png") []) (Some (js "aGk=")) None.

Definition stateWithPicture : AppState :=
  with_attachedImage (Some picture) (with_uploadedFiles (fun _ => [picture]) freshState).

Definition imageStep (p : jsstring) : PlanStep := mkPlanStep (js "ImageAnalysisAgent") p.

(** C10 (as amended).  With an image attached when the handlers were
    created, the image handler sends the prompt with that image and then
    clears the stored attachment, leaving every other state cell as the
    language-model call left it (untouched when the call did not fail).  The
    handler reads the attachment of its render, not the stored one: in a
    plan of image steps every step sends the image again, and the stored
    attachment is cleared when the run ends.  With no image attached when
    the handlers were created, the handler answers with the no-image
    message, sends nothing and changes nothing. *)
Theorem image_attachment_read_from_render
    (generate : list Event -> jsstring -> option FileData -> ApiOutcome)
    (embed : list Event -> jsstring -> option (list float))
    (snap : AppState) :
  (forall img, attachedImage snap = Some img ->
     (forall p w, exists w',
         handleImageAnalysisQuery generate snap p w
         = (Ok (agentMessage (js "ImageAnalysisAgent")
                  (textOf (generate (trace w) p (Some img))) None), w')
         /\ trace w' = trace w ++ [EvGenerate p (Some img)]
         /\ attachedImage (state w') = None
         /\ frame (state w) (state w')
         /\ (isApiError (generate (trace w) p (Some img)) = false ->
             state w' = with_attachedImage None (state w)))
     /\ (forall plan w,
         Forall (fun st => agent st = js "ImageAnalysisAgent") plan ->
         exists (outs : list JSText) (w' : World),
           executePlan generate embed snap plan w = (Ok tt, w')
           /\ length outs = length plan
           /\ requests (trace w')
              = requests (trace w)
                ++ map (fun d => (snd d, Some img)) (plan_dispatches plan outs 0 [])
           /\ chatHistory (state w')
              = chatHistory (state w)
                ++ plan_messages (length plan) plan (map (fun t => (t, None)) outs) 0
           /\ (plan <> [] -> attachedImage (state w') = None)))
  /\ (attachedImage snap = None ->
      forall p w,
        handleImageAnalysisQuery generate snap p w
        = (Ok (agentMessage (js "ImageAnalysisAgent")
                 (TStr (js "Error: No image was attached.")) None), w)).
Proof.
  split.
  - intros img Hatt. split.
    + intros p w. now apply handleImageAnalysisQuery_attached.
    + intros plan w Hall. unfold executePlan.
      destruct (executePlan_from_images generate embed snap img Hatt (length plan) plan 0 [] w Hall)
        as (outs & w' & Hrun & Hlen & Hr & Hc & Ha).
      exists outs, w'. repeat split; try assumption. intros Hne. apply Ha. now left.
  - intros Hnone p w. unfold handleImageAnalysisQuery. now rewrite Hnone.
Qed.

Lemma image_attachment_read_from_render_witness :
  exists (outs : list JSText) (w' : World),
    executePlan (answerAlways (js "a cat")) embedNever stateWithPicture
      [imageStep (js "what is this"); imageStep (js "and now")] (mkWorld stateWithPicture [])
    = (Ok tt, w')
    /\ length outs = 2
    /\ requests (trace w')
       = map (fun d => (snd d, Some picture))
           (plan_dispatches [imageStep (js "what is this"); imageStep (js "and now")] outs 0 [])
    /\ attachedImage (state w') = None.
Proof.
  destruct (image_attachment_read_from_render (answerAlways (js "a cat")) embedNever
              stateWithPicture) as [Hsome _].
  destruct (Hsome picture eq_refl) as [_ Hplan].
  destruct (Hplan [imageStep (js "what is this"); imageStep (js "and now")]
              (mkWorld stateWithPicture [])
              ltac:(repeat constructor)) as (outs & w' & Hrun & Hlen & Hr & _ & Ha).
  exists outs, w'. split; [exact Hrun |]. split; [exact Hlen |]. split; [exact Hr |].
  apply Ha. discriminate.
Defined.

(** A second image step of the same run does not answer with the no-image
    message: it sends the image again and returns the model's text. *)
Lemma second_image_step_sends_image_again :
  requests (trace (snd (executePlan (answerAlways (js "a cat")) embedNever stateWithPicture
      [imageStep (js "what is this"); imageStep (js "and now")] (mkWorld stateWithPicture []))))
  = [(js "what is this", Some picture); (js "and now", Some picture)]
  /\
  nth_error (chatHistory (state (snd (executePlan (answerAlways (js "a cat")) embedNever stateWithPicture
      [imageStep (js "what is this"); imageStep (js "and now")] (mkWorld stateWithPicture []))))) 1
  = Some (withFinalStep (agentMessage (js "ImageAnalysisAgent") (TStr (js "a cat")) None) true)
  /\
  agentMessage (js "ImageAnalysisAgent") (TStr (js "a cat")) None
  <> agentMessage (js "ImageAnalysisAgent") (TStr (js "Error: No image was attached.")) None.
Proof.
  split; [vm_compute; reflexivity |]. split; [vm_compute; reflexivity |].
  intros H. vm_compute in H. discriminate.
Qed.

(* ================================================================== *)
(** * The planner *)
(* ================================================================== *)

(** A message whose text [callPlanner] can read: it has a first part. *)
Definition renderable (m : Message) : Prop :=
  exists p ps, parts m = Some (p :: ps).

Lemma mapM_pure {A B : Type} (f : A -> M B) (g : A -> B) (xs : list A) (w : World) :
  (forall x, In x xs -> f x w = (Ok (g x), w)) ->
  mapM f xs w = (Ok (map g xs), w).
Proof.
  induction xs as [| x xs IH]; intros H; simpl; [reflexivity |].
  unfold bind at 1. rewrite (H x (or_introl eq_refl)).
  unfold bind at 1. rewrite IH by (intros; apply H; now right). reflexivity.
Qed.

(** The line of the history a message gives. *)
Definition historyLine (m : Message) : jsstring :=
  role m ++ js ": "
  ++ ToString match parts m with
              | Some (p :: _) => text p
              | _ => TUndefined
              end.

Lemma historyString_runs (history : list Message) (w : World) :
  Forall renderable history ->
  historyString history w = (Ok (join nl (map historyLine history)), w).
Proof.
  intros Hall. unfold historyString, bind.
  rewrite (mapM_pure _ historyLine); [reflexivity |].
  intros m Hm. rewrite Forall_forall in Hall. destruct (Hall m Hm) as (p & ps & Hp).
  unfold bind, first_text, historyLine. rewrite Hp. reflexivity.
Qed.

Lemma fallbackPlan_valid (request : jsstring) :
  plan_of_json (fallbackPlan request) = Some [mkPlanStep (js "WebSearchAgent") request].
Proof. reflexivity. Qed.

(** C2 (as amended).  Whatever the language model answers, and also when
    the call fails or carries no text, [callPlanner] returns normally as
    long as every message of the history has a text part.  What it returns:
    when the response has a fenced [json] block with a non-empty body, the
    JSON value of that body, or the one-step fallback plan when the body is
    no JSON (the whole response is not tried then); otherwise the JSON
    value of the whole response, or the fallback plan when that is no JSON
    or there is no response text.  The fallback plan is the one valid step
    [WebSearchAgent] with the original request; a parsed value is returned
    as it is, whether or not it is a non-empty list of steps. *)
Theorem callPlanner_always_returns
    (generate : list Event -> jsstring -> option FileData -> ApiOutcome)
    (request : jsstring) (history : list Message) (w : World) :
  Forall renderable history ->
  exists (historyStr : jsstring) (plan : JSValue) (w' : World),
    historyString history w = (Ok historyStr, w)
    /\ callPlanner generate request history w = (Ok plan, w')
    /\ requests (trace w') = requests (trace w) ++ [(plannerPrompt historyStr request, None)]
    /\ match generate (trace w) (plannerPrompt historyStr request) None with
       | ApiText s =>
           match fence_match s with
           | Some (c :: body) =>
               plan = match JSON_parse (c :: body) with
                      | Some v => v
                      | None => fallbackPlan request
                      end
           | _ =>
               plan = match JSON_parse s with
                      | Some v => v
                      | None => fallbackPlan request
                      end
           end
       | _ => plan = fallbackPlan request
       end
    /\ plan_of_json (fallbackPlan request) = Some [mkPlanStep (js "WebSearchAgent") request].
Proof.
  intros Hall. pose proof (historyString_runs history w Hall) as Hhs.
  set (hs := join nl (map historyLine history)) in *.
  exists hs. unfold callPlanner. unfold bind at 1. rewrite Hhs. unfold bind at 1.
  destruct (callGeminiAPI_runs generate (plannerPrompt hs request) None w)
    as (w1 & -> & Ht & _).
  assert (Hreq : requests (trace w1) = requests (trace w) ++ [(plannerPrompt hs request, None)])
    by (rewrite Ht, requests_app; reflexivity).
  assert (Hemit : forall v : JSValue, exists w',
            (bind (emit (EvConsoleError (js "Failed to parse plan:"))) (fun _ => ret v)) w1
            = (Ok v, w')
            /\ requests (trace w') = requests (trace w) ++ [(plannerPrompt hs request, None)]).
  { intros v. eexists. split; [reflexivity |]. cbn [trace]. rewrite requests_app, Hreq.
    cbn [requests flat_map]. now rewrite app_nil_r. }
  destruct (generate (trace w) (plannerPrompt hs request) None) as [s | | e];
    cbn [textOf parsePlan].
  - destruct (fence_match s) as [[| c body] |].
    + destruct (JSON_parse s) as [v |].
      * exists v, w1. repeat split; auto.
      * destruct (Hemit (fallbackPlan request)) as (w' & E & Hr).
        exists (fallbackPlan request), w'. repeat split; auto.
    + destruct (JSON_parse (c :: body)) as [v |].
      * exists v, w1. repeat split; auto.
      * destruct (Hemit (fallbackPlan request)) as (w' & E & Hr).
        exists (fallbackPlan request), w'. repeat split; auto.
    + destruct (JSON_parse s) as [v |].
      * exists v, w1. repeat split; auto.
      * destruct (Hemit (fallbackPlan request)) as (w' & E & Hr).
        exists (fallbackPlan request), w'. repeat split; auto.
  - destruct (Hemit (fallbackPlan request)) as (w' & E & Hr).
    exists (fallbackPlan request), w'. repeat split; auto.
  - destruct (Hemit (fallbackPlan request)) as (w' & E & Hr).
    exists (fallbackPlan request), w'. repeat split; auto.
Qed.

(** A user's message and a model's answer, as the chat keeps them. *)
Definition userMessage (t : jsstring) : Message :=
  mkMessage (js "user") None (Some [mkPart (TStr t)]) None None false None None None.

Lemma renderable_userMessage (t : jsstring) : renderable (userMessage t).
Proof. now exists (mkPart (TStr t)), []. Qed.

Lemma callPlanner_always_returns_witness :
  exists (plan : JSValue) (w' : World),
    callPlanner (answerAlways (js "I cannot plan that."))
      (js "weather in Oslo") [userMessage (js "hi")] freshWorld = (Ok plan, w')
    /\ plan = fallbackPlan (js "weather in Oslo").
Proof.
  destruct (callPlanner_always_returns (answerAlways (js "I cannot plan that."))
              (js "weather in Oslo") [userMessage (js "hi")] freshWorld
              (Forall_cons _ (renderable_userMessage (js "hi")) (Forall_nil _)))
    as (hs & plan & w' & _ & Hrun & _ & Hplan & _).
  exists plan, w'. split; [exact Hrun |].
  unfold answerAlways in Hplan. vm_compute in Hplan. rewrite Hplan. vm_compute. reflexivity.
Defined.

(** The planner hands back a parsed value that is no plan: the response
    [[]] gives the empty array, and [{}] gives an object. *)
Lemma callPlanner_returns_empty_plan :
  fst (callPlanner (answerAlways (js "[]")) (js "hello") [] freshWorld) = Ok (JArray [])
  /\ is_valid_plan (JArray []) = false
  /\ fst (callPlanner (answerAlways (js "```json" ++ nl ++ js "{}" ++ nl ++ js "```"))
            (js "hello") [] freshWorld) = Ok (JObject [])
  /\ is_valid_plan (JObject []) = false.
Proof. vm_compute. repeat split. Qed.

(* ================================================================== *)
(** * The similarity query *)
(* ================================================================== *)

(** The dot product is the sum of the products of the components at equal
    indices, taken from left to right, every product and every sum rounded
    to a double. *)
Lemma dotProduct_from_fold (a : list float) : forall b p,
  length a <= length b ->
  dotProduct_from p a b
  = fold_left (fun acc xy => (acc + fst xy * snd xy)%float) (combine a b) p.
Proof.
  induction a as [| x a IH]; intros b p Hlen; simpl; [reflexivity |].
  destruct b as [| y b]; simpl in Hlen; [lia |].
  simpl. apply IH. lia.
Qed.

Lemma dotProduct_from_nan (a : list float) : forall b, dotProduct_from nan a b = nan.
Proof.
  induction a as [| x a IH]; intros b; simpl; [reflexivity |].
  destruct b; rewrite float_add_nan_l; apply IH.
Qed.

Lemma dotProduct_from_short (a : list float) : forall b p,
  length b < length a -> dotProduct_from p a b = nan.
Proof.
  induction a as [| x a IH]; intros b p Hlen; simpl in *; [lia |].
  destruct b as [| y b]; simpl in Hlen.
  - rewrite float_mul_nan_r, float_add_nan_r. apply dotProduct_from_nan.
  - apply IH. lia.
Qed.

(** A score that is a number comes from an embedding with all the
    components of the query. *)
Lemma dotProduct_number_length (a b : list float) :
  is_nan (dotProduct a b) = false -> length a <= length b.
Proof.
  intros H. destruct (Nat.le_gt_cases (length a) (length b)) as [Hle | Hgt]; [exact Hle |].
  unfold dotProduct in H. rewrite dotProduct_from_short in H by exact Hgt. discriminate.
Qed.

Lemma combine_seq_stored (q : list float) (l : list VectorRecord) : forall k,
  map (fun x => (fst x, stored (snd x))) (combine (seq k (length l)) (map (scored q) l))
  = combine (seq k (length l)) l.
Proof.
  induction l as [| v l IH]; intros k; simpl; [reflexivity |].
  now rewrite IH.
Qed.

Lemma map_snd_combine_seq {A : Type} (l : list A) : forall k,
  map snd (combine (seq k (length l)) l) = l.
Proof.
  induction l as [| x l IH]; intros k; simpl; [reflexivity |].
  now rewrite IH.
Qed.

Lemma findSimilarChunks_unfold
    (embed : list Event -> jsstring -> option (list float))
    (snap : AppState) (query : jsstring) (q : list float) (w : World) :
  vectorStore snap <> [] ->
  ready (modelStatus snap) = true ->
  embed (trace w) query = Some q ->
  store_ok snap ->
  findSimilarChunks embed snap query w
  = (Ok (firstn 3 (sort bySimilarityDesc (map (scored q) (vectorStore snap)))),
     mkWorld (state w) (trace w ++ [EvEmbed query])).
Proof.
  intros Hne Hready Hq Hok. unfold findSimilarChunks.
  destruct (vectorStore snap) as [| v store] eqn:Es; [congruence |].
  rewrite Hready. cbn [length Nat.eqb negb orb].
  unfold bind at 1, getClientSideEmbedding. rewrite Hq.
  unfold bind at 1. rewrite mapM_score; [reflexivity |].
  unfold store_ok in Hok. now rewrite Es in Hok.
Qed.

(** The scores of the stored records are numbers: none is [NaN]. *)
Definition numericScores (q : list float) (store : list VectorRecord) : Prop :=
  Forall (fun v => exists e, embedding v = Some e /\ is_nan (dotProduct q e) = false) store.

Lemma numericScores_store_ok (q : list float) (snap : AppState) :
  numericScores q (vectorStore snap) -> store_ok snap.
Proof.
  unfold store_ok. apply Forall_impl.
  intros v (e & He & _). unfold hasEmbedding. now rewrite He.
Qed.

(** What the sort makes of the scored store when the scores are numbers:
    the one arrangement in which a higher score comes first and, of equal
    scores, the record stored earlier. *)
Lemma scored_ranking (q : list float) (store : list VectorRecord) :
  numericScores q store ->
  exists ranked : list (nat * SimilarChunk),
    Permutation (map (fun x => (fst x, stored (snd x))) ranked)
      (combine (seq 0 (length store)) store)
    /\ Forall (fun x => exists e,
                 embedding (stored (snd x)) = Some e
                 /\ similarity (snd x) = dotProduct q e
                 /\ dotProduct q e
                    = fold_left (fun acc xy => (acc + fst xy * snd xy)%float) (combine q e) 0%float)
              ranked
    /\ StronglySorted rankedBefore ranked
    /\ (forall other, Permutation other ranked -> StronglySorted rankedBefore other ->
          other = ranked)
    /\ map snd ranked = sort bySimilarityDesc (map (scored q) store).
Proof.
  intros Hdim.
  assert (Hscores : Forall (fun c => exists e,
                       embedding (stored c) = Some e
                       /\ similarity c = dotProduct q e
                       /\ is_nan (dotProduct q e) = false)
                      (map (scored q) store)).
  { rewrite Forall_map. eapply Forall_impl; [| exact Hdim].
    intros v (e & He & Hnum).
    exists e. unfold scored. cbn [stored similarity]. rewrite He. auto. }
  set (tagged := combine (seq 0 (length store)) (map (scored q) store)).
  exists (sort byTaggedSimilarity tagged).
  assert (Hsorted : StronglySorted rankedBefore (sort byTaggedSimilarity tagged)).
  { unfold tagged. rewrite <- (length_map (scored q) store).
    apply sort_ranked. eapply Forall_impl; [| exact Hscores].
    intros c (e & _ & Hs & Hnum). now rewrite Hs. }
  split; [| split; [| split; [| split]]].
  - rewrite (Permutation_map _ (sort_perm byTaggedSimilarity tagged)).
    unfold tagged. now rewrite combine_seq_stored.
  - rewrite Forall_forall. intros x Hx.
    apply (Permutation_in _ (sort_perm byTaggedSimilarity tagged)) in Hx.
    destruct x as [i c]. unfold tagged in Hx. apply in_combine_r in Hx.
    rewrite Forall_forall in Hscores. destruct (Hscores c Hx) as (e & He & Hs & Hnum).
    exists e. split; [exact He |]. split; [exact Hs |].
    apply dotProduct_from_fold. now apply dotProduct_number_length.
  - exact Hsorted.
  - intros other Hp Hs. now apply ranked_unique.
  - unfold byTaggedSimilarity. rewrite sort_map. unfold tagged.
    rewrite <- (length_map (scored q) store). now rewrite map_snd_combine_seq.
Qed.

(** C3.  With a non-empty store, the embedding model ready and the query
    embedded as [q], [findSimilarChunks] returns the first three of the
    stored chunks arranged as follows: each chunk carries as its score the
    dot product of [q] with its embedding, computed in doubles as the code
    computes it (the products added from left to right, each operation
    rounded); a chunk with a higher score comes first, and of two chunks
    with equal scores the one stored earlier comes first.  There is one
    such arrangement only, and it depends on the store and on [q] alone, so
    every call with that query embedding returns the same list.  (The
    scores are numbers, none is [NaN]: the comparator orders numbers, and
    leaves [NaN] unordered against everything.) *)
Theorem findSimilarChunks_ranking
    (embed : list Event -> jsstring -> option (list float))
    (snap : AppState) (query : jsstring) (q : list float) (w : World) :
  vectorStore snap <> [] ->
  ready (modelStatus snap) = true ->
  embed (trace w) query = Some q ->
  Forall (fun v => exists e, embedding v = Some e /\ is_nan (dotProduct q e) = false)
         (vectorStore snap) ->
  exists ranked : list (nat * SimilarChunk),
    Permutation (map (fun x => (fst x, stored (snd x))) ranked)
      (combine (seq 0 (length (vectorStore snap))) (vectorStore snap))
    /\ Forall (fun x => exists e,
                 embedding (stored (snd x)) = Some e
                 /\ similarity (snd x) = dotProduct q e
                 /\ dotProduct q e
                    = fold_left (fun acc xy => (acc + fst xy * snd xy)%float) (combine q e) 0%float)
              ranked
    /\ StronglySorted rankedBefore ranked
    /\ (forall other, Permutation other ranked -> StronglySorted rankedBefore other ->
          other = ranked)
    /\ findSimilarChunks embed snap query w
       = (Ok (firstn 3 (map snd ranked)), mkWorld (state w) (trace w ++ [EvEmbed query]))
    /\ (forall w2, embed (trace w2) query = Some q ->
          fst (findSimilarChunks embed snap query w2) = Ok (firstn 3 (map snd ranked))).
Proof.
  intros Hne Hready Hq Hdim.
  pose proof (numericScores_store_ok q snap Hdim) as Hok.
  destruct (scored_ranking q (vectorStore snap) Hdim)
    as (ranked & Hperm & Hscores & Hsorted & Huniq & Hsnd).
  exists ranked.
  split; [exact Hperm |]. split; [exact Hscores |]. split; [exact Hsorted |].
  split; [exact Huniq |]. split.
  - rewrite Hsnd. now apply findSimilarChunks_unfold.
  - intros w2 Hq2. rewrite Hsnd. now rewrite (findSimilarChunks_unfold embed snap query q w2).
Qed.

(** An embedding model that maps every text to the same vector. *)
Definition embedAlways (v : list float) : list Event -> jsstring -> option (list float) :=
  fun _ _ => Some v.

(** A store of four chunks; the first and the third score the same. *)
Definition sampleStore : list VectorRecord :=
  [mkVectorRecord (js "a.txt") (js "sky is blue") (Some [1; 0]);
   mkVectorRecord (js "a.txt") (js "grass is green") (Some [0; 1]);
   mkVectorRecord (js "b.txt") (js "the sky is blue") (Some [1; 0]);
   mkVectorRecord (js "b.txt") (js "blue and green") (Some [0.5; 0.5])]%float.

Definition stateWithStore : AppState :=
  with_vectorStore (fun _ => sampleStore) freshState.

Lemma findSimilarChunks_ranking_witness :
  exists ranked : list (nat * SimilarChunk),
    StronglySorted rankedBefore ranked
    /\ fst (findSimilarChunks (embedAlways [1; 0]%float) stateWithStore (js "What color is the sky?")
              freshWorld)
       = Ok (firstn 3 (map snd ranked))
    /\ map (fun c => chunk (stored c)) (firstn 3 (map snd ranked))
       = [js "sky is blue"; js "the sky is blue"; js "blue and green"].
Proof.
  destruct (findSimilarChunks_ranking (embedAlways [1; 0]%float) stateWithStore
              (js "What color is the sky?") [1; 0]%float freshWorld)
    as (ranked & _ & _ & Hsorted & _ & Hrun & _).
  - discriminate.
  - reflexivity.
  - reflexivity.
  - repeat constructor; eexists; (split; [reflexivity | vm_compute; reflexivity]).
  - exists ranked. split; [exact Hsorted |].
    split; [now rewrite Hrun |].
    apply (f_equal fst) in Hrun. cbn [fst] in Hrun.
    assert (Heval : fst (findSimilarChunks (embedAlways [1; 0]%float) stateWithStore
                           (js "What color is the sky?") freshWorld)
                    = Ok (firstn 3 (sort bySimilarityDesc
                                      (map (scored [1; 0]%float) sampleStore))))
      by reflexivity.
    assert (Hr : firstn 3 (map snd ranked)
                 = firstn 3 (sort bySimilarityDesc (map (scored [1; 0]%float) sampleStore)))
      by congruence.
    rewrite Hr. vm_compute. reflexivity.
Defined.

(** The scores are the rounded ones.  For the query [[1; 1; 1]] the exact
    sum of the second record below is [2^-53]; in doubles [1 + 2^-53] is
    [1], so its score is zero like the first record's: the two tie, and the
    record stored first stays first. *)
Definition roundingStore : list VectorRecord :=
  [mkVectorRecord (js "a.txt") (js "first") (Some [0; 0; 0]);
   mkVectorRecord (js "b.txt") (js "second") (Some [1; 0x1p-53; -1])]%float.

Lemma findSimilarChunks_rounded_scores :
  exists results,
    fst (findSimilarChunks (embedAlways [1; 1; 1]%float)
           (with_vectorStore (fun _ => roundingStore) freshState) (js "which?") freshWorld)
    = Ok results
    /\ map (fun c => (chunk (stored c), similarity c)) results
       = [(js "first", 0%float); (js "second", 0%float)].
Proof. eexists. split; vm_compute; reflexivity. Qed.

(** C4.  On an empty store, and whenever the embedding of the query fails,
    [findSimilarChunks] returns the empty list; it does not throw and it
    leaves the state as it was. *)
Theorem findSimilarChunks_empty
    (embed : list Event -> jsstring -> option (list float))
    (snap : AppState) (query : jsstring) (w : World) :
  vectorStore snap = [] \/ embed (trace w) query = None ->
  exists w', findSimilarChunks embed snap query w = (Ok [], w') /\ state w' = state w.
Proof.
  intros H. unfold findSimilarChunks.
  destruct ((length (vectorStore snap) =? 0) || negb (ready (modelStatus snap))) eqn:E.
  - exists w. split; reflexivity.
  - destruct H as [H | H].
    + rewrite H in E. discriminate.
    + unfold bind, getClientSideEmbedding. rewrite H. eexists. split; reflexivity.
Qed.

Lemma findSimilarChunks_empty_witness :
  (exists w', findSimilarChunks embedNever stateWithStore (js "sky") freshWorld = (Ok [], w')
              /\ state w' = state freshWorld)
  /\ (exists w', findSimilarChunks (embedAlways [1; 0]%float) freshState (js "sky") freshWorld = (Ok [], w')
                 /\ state w' = state freshWorld).
Proof.
  split.
  - exact (findSimilarChunks_empty embedNever stateWithStore (js "sky") freshWorld
             (or_intror eq_refl)).
  - exact (findSimilarChunks_empty (embedAlways [1; 0]%float) freshState (js "sky") freshWorld
             (or_introl eq_refl)).
Defined.

(* ================================================================== *)
(** * The vector store under the operations of the component *)
(* ================================================================== *)

Section IngestFacts.

Variable embed : list Event -> jsstring -> option (list float).
Variable extractText : list Event -> BrowserFile -> option jsstring.
Variable snap : AppState.

Lemma mapM_embed_runs (chunks : list jsstring) : forall w,
  exists es w',
    mapM (getClientSideEmbedding embed) chunks w = (Ok es, w') /\ state w' = state w.
Proof.
  induction chunks as [| c chunks IH]; intros w; simpl.
  - now exists [], w.
  - unfold bind at 1, getClientSideEmbedding at 1. cbv beta iota.
    unfold bind at 1.
    match goal with |- context [mapM _ chunks ?w0] => destruct (IH w0) as (es & w' & E & Hs) end.
    rewrite E. eexists _, _. split; [reflexivity | exact Hs].
Qed.

Lemma parseFileContent_runs (file : BrowserFile) (w : World) :
  exists r w',
    parseFileContent extractText file w = (Ok r, w')
    /\ vectorStore (state w') = vectorStore (state w).
Proof.
  unfold parseFileContent. destruct (extractText (trace w) file).
  - now eexists _, _.
  - eexists _, _. split; reflexivity.
Qed.

Lemma filter_hasEmbedding (l : list VectorRecord) :
  Forall (fun v => hasEmbedding v = true) (filter hasEmbedding l).
Proof. rewrite Forall_forall. intros v Hv. now apply filter_In in Hv. Qed.

(** One file adds to [newVectors] only records that have an embedding. *)
Lemma embedFile_runs (file : FileData) (newVectors : list VectorRecord) (w : World) :
  exists added w',
    embedFile embed extractText file newVectors w = (Ok (newVectors ++ added), w')
    /\ Forall (fun v => hasEmbedding v = true) added
    /\ vectorStore (state w') = vectorStore (state w).
Proof.
  unfold embedFile. destruct (isImageType (type_ file)).
  - exists [], w. rewrite app_nil_r. repeat split. constructor.
  - unfold bind at 1.
    destruct (parseFileContent_runs (fileObject file) w) as (r & w1 & -> & Hs1).
    destruct r as [[| c rest] |].
    + exists [], w1. rewrite app_nil_r. repeat split; [constructor | exact Hs1].
    + unfold bind at 1, setUploadedFiles at 1, update at 1.
      set (w2 := mkWorld _ (trace w1)).
      unfold bind at 1, chunkText_default.
      destruct (chunkText_default_returns (c :: rest)) as [chunks ->].
      unfold ret at 1.
      unfold bind at 1.
      destruct (mapM_embed_runs chunks w2) as (es & w3 & -> & Hs3).
      eexists _, w3. split; [reflexivity |]. split; [apply filter_hasEmbedding |].
      rewrite Hs3. unfold w2. cbn [state with_uploadedFiles vectorStore]. exact Hs1.
    + exists [], w1. rewrite app_nil_r. repeat split; [constructor | exact Hs1].
Qed.

Lemma forM_embedFile_runs (files : list FileData) : forall newVectors w,
  exists added w',
    forM files newVectors (embedFile embed extractText) w = (Ok (newVectors ++ added), w')
    /\ Forall (fun v => hasEmbedding v = true) added
    /\ vectorStore (state w') = vectorStore (state w).
Proof.
  induction files as [| f files IH]; intros nv w; simpl.
  - exists [], w. rewrite app_nil_r. repeat split. constructor.
  - unfold bind at 1.
    destruct (embedFile_runs f nv w) as (a1 & w1 & -> & Ha1 & Hs1).
    destruct (IH (nv ++ a1) w1) as (a2 & w2 & -> & Ha2 & Hs2).
    exists (a1 ++ a2), w2. rewrite app_assoc. split; [reflexivity |].
    split; [now apply Forall_app | congruence].
Qed.

(** [processAndEmbedFiles] returns normally and appends to the store only
    records whose embedding succeeded. *)
Lemma processAndEmbedFiles_runs (files : list FileData) (w : World) :
  exists added w',
    processAndEmbedFiles embed extractText snap files w = (Ok tt, w')
    /\ vectorStore (state w') = vectorStore (state w) ++ added
    /\ Forall (fun v => hasEmbedding v = true) added.
Proof.
  unfold processAndEmbedFiles. destruct (negb (ready (modelStatus snap))).
  - exists [], (mkWorld (with_error (Some (js "Document model not ready.")) (state w)) (trace w)).
    rewrite app_nil_r. repeat split. constructor.
  - unfold bind at 1, setIsIndexing at 1, update at 1.
    set (w1 := mkWorld _ (trace w)).
    unfold bind at 1.
    destruct (forM_embedFile_runs files [] w1) as (added & w2 & -> & Ha & Hs).
    cbn [app]. eexists added, _. split; [reflexivity |].
    split; [| exact Ha].
    cbn [state with_isIndexing with_vectorStore vectorStore]. rewrite Hs. reflexivity.
Qed.

Lemma removeFile_store (fname : jsstring) (w : World) :
  vectorStore (state (snd (removeFile snap fname w)))
  = filter (fun v => negb (str_eqb (fileName v) fname)) (vectorStore (state w)).
Proof.
  unfold removeFile, bind, setUploadedFiles, setVectorStore, update. cbn [snd fst].
  destruct (attachedImage snap) as [img |]; [destruct (str_eqb (name img) fname) |];
    reflexivity.
Qed.

End IngestFacts.

Lemma bind_world {A B : Type} (c : M A) (k : A -> M B) (w : World) :
  snd (c w) = w -> (forall a, snd (k a w) = w) -> snd (bind c k w) = w.
Proof.
  intros Hc Hk. unfold bind. destruct (c w) as [[a | e |] w1]; simpl in Hc; subst w1;
    try reflexivity. apply Hk.
Qed.

Lemma mapM_world {A B : Type} (f : A -> M B) (xs : list A) :
  (forall x w0, snd (f x w0) = w0) -> forall w0, snd (mapM f xs w0) = w0.
Proof.
  intros Hf. induction xs as [| x xs IH]; intros w0; simpl; [reflexivity |].
  apply bind_world; [apply Hf |]. intros b.
  apply bind_world; [apply IH |]. reflexivity.
Qed.

Lemma historyString_world (history : list Message) (w : World) :
  snd (historyString history w) = w.
Proof.
  unfold historyString. apply bind_world; [| reflexivity].
  apply mapM_world. intros m w0. apply bind_world; [| reflexivity].
  unfold first_text. destruct (parts m) as [[| p ps] |]; reflexivity.
Qed.

Lemma callPlanner_store
    (generate : list Event -> jsstring -> option FileData -> ApiOutcome)
    (request : jsstring) (history : list Message) (w : World) :
  vectorStore (state (snd (callPlanner generate request history w))) = vectorStore (state w).
Proof.
  unfold callPlanner. unfold bind at 1.
  pose proof (historyString_world history w) as Hw.
  destruct (historyString history w) as [[hs | e |] w0]; simpl in Hw; subst w0;
    try reflexivity.
  unfold bind at 1.
  destruct (callGeminiAPI_runs generate (plannerPrompt hs request) None w)
    as (w1 & -> & _ & Hq & _).
  destruct (parsePlan _); cbn [snd]; unfold bind, emit, ret; cbn [snd state]; frame_tac.
Qed.

(** The operations of the component that a user or a run can start. *)
Inductive Action : Type :=
| ActUpload (files : list FileData)
| ActRemove (fname : jsstring)
| ActPlan (request : jsstring) (history : list Message)
| ActExecute (plan : list PlanStep)
| ActQuery (query : jsstring)
| ActAttach (file : option FileData).

Section Session.

Variable generate : list Event -> jsstring -> option FileData -> ApiOutcome.
Variable embed : list Event -> jsstring -> option (list float).
Variable extractText : list Event -> BrowserFile -> option jsstring.

(** An operation run by the handlers of the current render. *)
Definition perform (a : Action) (w : World) : World :=
  match a with
  | ActUpload files => snd (processAndEmbedFiles embed extractText (state w) files w)
  | ActRemove fname => snd (removeFile (state w) fname w)
  | ActPlan request history => snd (callPlanner generate request history w)
  | ActExecute plan => snd (executePlan generate embed (state w) plan w)
  | ActQuery query => snd (findSimilarChunks embed (state w) query w)
  | ActAttach file => snd (setAttachedImage file w)
  end.

Definition session (actions : list Action) (w0 : World) : World :=
  fold_left (fun w a => perform a w) actions w0.

(** What an operation does to the store [store] it finds. *)
Definition storeAfter (a : Action) (store store' : list VectorRecord) : Prop :=
  match a with
  | ActUpload _ =>
      exists added, store' = store ++ added /\ Forall (fun v => embedding v <> None) added
  | ActRemove fname => store' = filter (fun v => negb (str_eqb (fileName v) fname)) store
  | ActPlan _ _ | ActExecute _ | ActQuery _ | ActAttach _ => store' = store
  end.

Lemma hasEmbedding_embedding (l : list VectorRecord) :
  Forall (fun v => hasEmbedding v = true) l -> Forall (fun v => embedding v <> None) l.
Proof.
  apply Forall_impl. intros v Hv. unfold hasEmbedding in Hv.
  destruct (embedding v); discriminate.
Qed.

Lemma embedding_hasEmbedding (l : list VectorRecord) :
  Forall (fun v => embedding v <> None) l -> Forall (fun v => hasEmbedding v = true) l.
Proof.
  apply Forall_impl. intros v Hv. unfold hasEmbedding.
  destruct (embedding v); [reflexivity | congruence].
Qed.

(** An upload appends records that have an embedding and touches no record
    of the store; a removal drops the records of the removed file and
    leaves the others as they are, in their order; no other operation
    changes the store. *)
Lemma perform_store (a : Action) (w : World) :
  store_ok (state w) ->
  storeAfter a (vectorStore (state w)) (vectorStore (state (perform a w))).
Proof.
  intros Hok. destruct a as [files | fname | request history | plan | query | file];
    cbn [perform storeAfter].
  - destruct (processAndEmbedFiles_runs embed extractText (state w) files w)
      as (added & w' & -> & Hs & Ha).
    exists added. split; [exact Hs | now apply hasEmbedding_embedding].
  - apply removeFile_store.
  - apply callPlanner_store.
  - unfold executePlan.
    destruct (executePlan_from_runs generate embed (state w) Hok (length plan) plan 0 [] w)
      as (outs & w' & -> & _ & _ & _ & Hv & _).
    exact Hv.
  - destruct (findSimilarChunks_runs embed (state w) query w Hok) as (r & w' & -> & Hs & _).
    cbn [snd]. now rewrite Hs.
  - reflexivity.
Qed.

Lemma perform_ok (a : Action) (w : World) :
  store_ok (state w) -> store_ok (state (perform a w)).
Proof.
  intros Hok. pose proof (perform_store a w Hok) as H.
  unfold store_ok in *.
  destruct a; cbn [storeAfter] in H; try (rewrite H; exact Hok).
  - destruct H as (added & -> & Ha). apply Forall_app. split; [exact Hok |].
    now apply embedding_hasEmbedding.
  - rewrite H. rewrite Forall_forall in *. intros v Hv.
    apply filter_In in Hv as [Hv _]. auto.
Qed.

Lemma session_ok (actions : list Action) : forall w0,
  store_ok (state w0) -> store_ok (state (session actions w0)).
Proof.
  induction actions as [| a actions IH]; intros w0 Hok; simpl; [exact Hok |].
  apply IH. now apply perform_ok.
Qed.

End Session.

(** C7.  Starting from an empty store, after any sequence of operations
    every stored record has an embedding.  No operation changes a stored
    record: an upload leaves the store as it is and appends records whose
    embedding succeeded; a removal drops the records of the removed file
    and keeps the others, as they are and in their order; planning,
    running a plan, querying and attaching leave the store unchanged.  And
    every chunk a query returns is a record of the store, with its
    embedding. *)
Theorem vector_store_invariant
    (generate : list Event -> jsstring -> option FileData -> ApiOutcome)
    (embed : list Event -> jsstring -> option (list float))
    (extractText : list Event -> BrowserFile -> option jsstring)
    (actions : list Action) (w0 : World) :
  vectorStore (state w0) = [] ->
  Forall (fun v => embedding v <> None)
    (vectorStore (state (session generate embed extractText actions w0)))
  /\ (forall a,
        storeAfter a
          (vectorStore (state (session generate embed extractText actions w0)))
          (vectorStore (state (perform generate embed extractText a
                                 (session generate embed extractText actions w0)))))
  /\ (forall query w, exists results w',
        findSimilarChunks embed (state (session generate embed extractText actions w0)) query w
        = (Ok results, w')
        /\ Forall (fun c =>
                     In (stored c)
                       (vectorStore (state (session generate embed extractText actions w0)))
                     /\ embedding (stored c) <> None) results).
Proof.
  intros Hempty.
  assert (Hok : store_ok (state (session generate embed extractText actions w0))).
  { apply session_ok. unfold store_ok. rewrite Hempty. constructor. }
  split; [now apply hasEmbedding_embedding |]. split.
  - intros a. now apply perform_store.
  - intros query w.
    destruct (findSimilarChunks_runs embed _ query w Hok) as (r & w' & E & _ & _ & _ & Hin).
    exists r, w'. split; [exact E |].
    rewrite Forall_forall in *. intros c Hc. split; [now apply Hin |].
    apply hasEmbedding_embedding in Hok. rewrite Forall_forall in Hok. apply Hok. now apply Hin.
Qed.

(** A plain-text document of 900 characters, a text extraction that decodes
    the bytes, and an embedding model that fails on texts shorter than 500
    characters: of the two chunks of the document only the first is stored. *)
Definition document : FileData :=
  mkFileData (js "notes.txt") (js "text/plain")
    (mkBrowserFile (js "notes.txt") (js "text/plain") (repeat 97%N 900)) None None.

Definition extractBytes : list Event -> BrowserFile -> option jsstring :=
  fun _ f => Some (bf_bytes f).

Definition embedLongTexts : list Event -> jsstring -> option (list float) :=
  fun _ t => if 500 <=? length t then Some [1; 0]%float else None.

Lemma vector_store_invariant_witness :
  Forall (fun v => embedding v <> None)
    (vectorStore (state (session (answerAlways (js "ok")) embedLongTexts extractBytes
                           [ActUpload [document]; ActQuery (js "notes")] freshWorld)))
  /\ map (fun v => length (chunk v))
       (vectorStore (state (session (answerAlways (js "ok")) embedLongTexts extractBytes
                              [ActUpload [document]; ActQuery (js "notes")] freshWorld)))
     = [900]
  /\ vectorStore (state (perform (answerAlways (js "ok")) embedLongTexts extractBytes
                           (ActRemove (js "notes.txt"))
                           (session (answerAlways (js "ok")) embedLongTexts extractBytes
                              [ActUpload [document]; ActQuery (js "notes")] freshWorld)))
     = [].
Proof.
  destruct (vector_store_invariant (answerAlways (js "ok")) embedLongTexts extractBytes
              [ActUpload [document]; ActQuery (js "notes")] freshWorld eq_refl)
    as (Hinv & Hstep & _).
  split; [exact Hinv |]. split; [vm_compute; reflexivity |].
  pose proof (Hstep (ActRemove (js "notes.txt"))) as Hremove.
  cbn [storeAfter] in Hremove. rewrite Hremove. vm_compute. reflexivity.
Defined.

(* ================================================================== *)
(** * Further properties of the code *)
(* ================================================================== *)

Lemma GetSubstitution_plain (matched before after r : jsstring) :
  ~ In dollar r -> GetSubstitution matched before after r = r.
Proof.
  induction r as [| c r IH]; intros Hno; simpl; [reflexivity |].
  destruct (N.eqb_spec c dollar) as [-> | Hc].
  - exfalso. apply Hno. now left.
  - f_equal. apply IH. intros Hin. apply Hno. now right.
Qed.

Lemma app_same_length {A : Type} (a a' x y : list A) :
  length a = length a' -> a ++ x = a' ++ y -> a = a' /\ x = y.
Proof.
  revert a'. induction a as [| c a IH]; intros [| c' a'] Hlen E; simpl in *;
    try discriminate.
  - now split.
  - injection E as -> E. injection Hlen as Hlen.
    destruct (IH a' Hlen E) as [-> ->]. now split.
Qed.

(** X1.  [replace] with a string pattern puts the replacement in the place
    of the leftmost occurrence of the pattern and leaves the rest of the
    string as it is (for a replacement text with no dollar sign). *)
Theorem replace_leftmost (a b p r : jsstring) :
  (forall a1 b1, a ++ p ++ b = a1 ++ p ++ b1 -> length a <= length a1) ->
  ~ In dollar r ->
  replace (a ++ p ++ b) p r = a ++ r ++ b.
Proof.
  intros Hleft Hno. unfold replace.
  destruct (split_first p (a ++ p ++ b)) as [[before after] |] eqn:E.
  - pose proof (split_first_leftmost p _ before after a b E eq_refl) as Hle.
    apply split_first_sound in E.
    pose proof (Hleft before after E) as Hge.
    destruct (app_same_length a before (p ++ b) (p ++ after) ltac:(lia) E) as [<- E'].
    apply app_inv_head in E'. subst after.
    now rewrite GetSubstitution_plain.
  - exfalso. exact (split_first_none p _ a b E eq_refl).
Qed.

Lemma replace_leftmost_witness :
  replace (js "use " ++ js "{{step_1_output}}" ++ js " twice: {{step_1_output}}")
    (js "{{step_1_output}}") (js "RESULT")
  = js "use " ++ js "RESULT" ++ js " twice: {{step_1_output}}".
Proof.
  apply (replace_leftmost (js "use ") (js " twice: {{step_1_output}}")
           (js "{{step_1_output}}") (js "RESULT")).
  - intros a1 b1 E.
    destruct a1 as [| c1 [| c2 [| c3 [| c4 a1]]]]; try (vm_compute in E; discriminate E).
    simpl. lia.
  - vm_compute. intuition discriminate.
Defined.

(** The plan message that [handleSendMessage] appends to the chat:
    [{ role: 'model', agent: 'Planner', plan }]. *)
Definition planMessage (plan : JSValue) : Message :=
  mkMessage (js "model") (Some (js "Planner")) None None (Some plan) false None None None.

Lemma mapM_throws {A B : Type} (f : A -> M B) (e : Error) (before after : list A) (m : A)
    (w : World) :
  (forall x, In x before -> exists y, f x w = (Ok y, w)) ->
  f m w = (Throw e, w) ->
  mapM f (before ++ m :: after) w = (Throw e, w).
Proof.
  intros Hf He. induction before as [| x xs IH]; simpl.
  - unfold bind at 1. now rewrite He.
  - destruct (Hf x (or_introl eq_refl)) as [y Hy].
    unfold bind at 1. rewrite Hy. unfold bind at 1.
    rewrite IH; [reflexivity |]. intros x0 Hx0. apply Hf. now right.
Qed.

(** X2.  A message without [parts] in the history makes [callPlanner] throw
    a [TypeError] before any request is sent to the language model.  The
    plan message that the chat holds after a planned request is such a
    message. *)
Theorem callPlanner_throws_on_missing_parts
    (generate : list Event -> jsstring -> option FileData -> ApiOutcome)
    (request : jsstring) (before after : list Message) (m : Message) (w : World) :
  Forall renderable before ->
  parts m = None ->
  callPlanner generate request (before ++ m :: after) w
  = (Throw (TypeError (js "Cannot read properties of undefined (reading '0')")), w).
Proof.
  intros Hb Hm.
  assert (Hhist : historyString (before ++ m :: after) w
                  = (Throw (TypeError (js "Cannot read properties of undefined (reading '0')")), w)).
  { unfold historyString. unfold bind at 1. rewrite mapM_throws
      with (e := TypeError (js "Cannot read properties of undefined (reading '0')")).
    - reflexivity.
    - intros x Hx. rewrite Forall_forall in Hb. destruct (Hb x Hx) as (p & ps & Hp).
      unfold bind, first_text. rewrite Hp. eexists. reflexivity.
    - unfold bind, first_text. now rewrite Hm. }
  unfold callPlanner. unfold bind at 1. now rewrite Hhist.
Qed.

Lemma callPlanner_throws_on_missing_parts_witness :
  callPlanner (answerAlways (js "[]")) (js "and tomorrow?")
    ([userMessage (js "weather in Oslo")] ++ planMessage (fallbackPlan (js "weather in Oslo")) :: [])
    freshWorld
  = (Throw (TypeError (js "Cannot read properties of undefined (reading '0')")), freshWorld).
Proof.
  exact (callPlanner_throws_on_missing_parts (answerAlways (js "[]")) (js "and tomorrow?")
           [userMessage (js "weather in Oslo")] []
           (planMessage (fallbackPlan (js "weather in Oslo"))) freshWorld
           (Forall_cons _ (renderable_userMessage _) (Forall_nil _)) eq_refl).
Defined.

(** X3.  In a state whose stored records have their embedding, [executePlan]
    returns normally for every plan.  It dispatches the steps in the order
    of the plan, each with its prompt resolved against the outputs recorded
    for the steps before it, and leaves one message per step in the chat,
    the last one marked as the final step; the store and the uploaded files
    are left as they were. *)
Theorem executePlan_completes
    (generate : list Event -> jsstring -> option FileData -> ApiOutcome)
    (embed : list Event -> jsstring -> option (list float))
    (snap : AppState) (plan : list PlanStep) (w : World) :
  store_ok snap ->
  exists (outs : list (JSText * option (list Source))) (w' : World),
    executePlan generate embed snap plan w = (Ok tt, w')
    /\ length outs = length plan
    /\ dispatches (trace w') = dispatches (trace w) ++ plan_dispatches plan (map fst outs) 0 []
    /\ chatHistory (state w') = chatHistory (state w) ++ plan_messages (length plan) plan outs 0
    /\ vectorStore (state w') = vectorStore (state w)
    /\ uploadedFiles (state w') = uploadedFiles (state w).
Proof.
  intros Hok. unfold executePlan.
  destruct (executePlan_from_runs generate embed snap Hok (length plan) plan 0 [] w)
    as (outs & w' & Hrun & Hlen & Hd & Hc & Hv & Hu & _).
  exists outs, w'. repeat split; assumption.
Qed.

Lemma executePlan_completes_witness :
  exists (outs : list (JSText * option (list Source))) (w' : World),
    executePlan (answerAlways (js "RESULT")) embedNever freshState
      [mkPlanStep (js "WebSearchAgent") (js "x");
       mkPlanStep (js "CodeGenerationAgent") (js "use {{step_1_output}}")] freshWorld
    = (Ok tt, w')
    /\ length outs = 2
    /\ dispatches (trace w')
       = [(js "WebSearchAgent", js "x"); (js "CodeGenerationAgent", js "use RESULT")].
Proof.
  destruct (executePlan_completes (answerAlways (js "RESULT")) embedNever freshState
              [mkPlanStep (js "WebSearchAgent") (js "x");
               mkPlanStep (js "CodeGenerationAgent") (js "use {{step_1_output}}")]
              freshWorld freshState_ok)
    as (outs & w' & Hrun & Hlen & _).
  exists outs, w'. split; [exact Hrun |]. split; [exact Hlen |].
  apply (f_equal snd) in Hrun. cbn [snd] in Hrun. rewrite <- Hrun.
  vm_compute. reflexivity.
Defined.

(** X4.  [removeFile] deletes from the store exactly the records of the
    named file, keeps the others in their order, and does nothing to a store
    that has no record of that name. *)
Theorem removeFile_cascades (snap : AppState) (fname : jsstring) (w : World) :
  vectorStore (state (snd (removeFile snap fname w)))
  = filter (fun v => negb (str_eqb (fileName v) fname)) (vectorStore (state w))
  /\ Forall (fun v => fileName v <> fname) (vectorStore (state (snd (removeFile snap fname w))))
  /\ (Forall (fun v => fileName v <> fname) (vectorStore (state w)) ->
      vectorStore (state (snd (removeFile snap fname w))) = vectorStore (state w)).
Proof.
  rewrite removeFile_store. split; [reflexivity |]. split.
  - rewrite Forall_forall. intros v Hv. apply filter_In in Hv as [_ Hv].
    apply negb_true_iff, str_eqb_neq in Hv. exact Hv.
  - intros Hall. induction Hall as [| v l Hv _ IH]; simpl; [reflexivity |].
    apply str_eqb_neq in Hv. rewrite Hv. simpl. now f_equal.
Qed.

(** X5.  With the default parameters ([chunkSize = 1000], [overlap = 200])
    [chunkText] returns for every text, with [ceil(L / 800)] chunks for a
    text of length [L]. *)
Theorem chunkText_default_terminates (text : jsstring) :
  exists chunks,
    chunkText text default_chunkSize default_overlap = Some chunks
    /\ Z.of_nat (length chunks) = ceil_div (Z.of_nat (length text)) 800.
Proof.
  eexists. split.
  - apply chunkText_windows. unfold default_chunkSize, default_overlap. lia.
  - rewrite windows_length.
    change (default_chunkSize - default_overlap)%Z with 800%Z.
    pose proof (ceil_div_nonneg (Z.of_nat (length text)) 800 ltac:(lia) (Nat2Z.is_nonneg _)).
    lia.
Qed.
(* ================================================================== *)
(** * The chunker and the dot product: further properties *)
(* ================================================================== *)

Lemma concat_strides {A : Type} (d n : nat) : forall (t : list A),
  concat (map (fun k => firstn d (skipn (k * d) t)) (seq 0 n)) = firstn (n * d) t.
Proof.
  induction n as [| n IH]; intros t; [reflexivity |].
  rewrite seq_S, map_app, concat_app, IH. cbn [map concat Nat.add].
  rewrite app_nil_r. replace (S n * d) with (n * d + d) by lia.
  now rewrite firstn_plus.
Qed.

Lemma windows_strides (text : jsstring) (chunkSize overlap : Z) (n : nat) :
  (0 <= overlap < chunkSize)%Z ->
  map (firstn (Z.to_nat (chunkSize - overlap))) (windows text chunkSize overlap n 0)
  = map (fun k => firstn (Z.to_nat (chunkSize - overlap))
                    (skipn (k * Z.to_nat (chunkSize - overlap)) text)) (seq 0 n).
Proof.
  intros Hso. apply nth_error_ext. intros k.
  rewrite !nth_error_map.
  destruct (Nat.lt_ge_cases k n) as [Hk | Hk].
  - rewrite windows_nth by exact Hk. rewrite nth_error_seq.
    replace (k <? n) with true by (symmetry; now apply Nat.ltb_lt).
    cbn [option_map Nat.add]. f_equal.
    rewrite window_as_list by lia. rewrite firstn_firstn. f_equal. lia.
  - pose proof (proj2 (nth_error_None (windows text chunkSize overlap n 0) k)) as H1.
    rewrite windows_length in H1. unfold jsstring in H1. rewrite (H1 Hk).
    rewrite (proj2 (nth_error_None (seq 0 n) k)) by now rewrite length_seq.
    reflexivity.
Qed.

(** X6.  For [0 <= overlap < chunkSize] the text can be put together again
    from its chunks: the first [chunkSize - overlap] characters of every
    chunk, one after the other, are the text.  With no overlap the chunks
    themselves, one after the other, are the text. *)
Theorem chunkText_reassembles (text : jsstring) (chunkSize overlap : Z) :
  (0 <= overlap < chunkSize)%Z ->
  exists chunks,
    chunkText text chunkSize overlap = Some chunks
    /\ concat (map (firstn (Z.to_nat (chunkSize - overlap))) chunks) = text
    /\ (overlap = 0%Z -> concat chunks = text).
Proof.
  intros Hso.
  set (d := (chunkSize - overlap)%Z).
  assert (Hd : (0 < d)%Z) by (unfold d; lia).
  set (n := Z.to_nat (ceil_div (Z.of_nat (length text)) d)).
  assert (Hall : concat (map (firstn (Z.to_nat d)) (windows text chunkSize overlap n 0)) = text).
  { unfold d. rewrite windows_strides by exact Hso. fold d.
    rewrite concat_strides. apply firstn_all2.
    pose proof (ceil_div_nonneg (Z.of_nat (length text)) d Hd (Nat2Z.is_nonneg _)) as Hn0.
    assert (Hcov : (Z.of_nat (length text) <= ceil_div (Z.of_nat (length text)) d * d)%Z).
    { unfold ceil_div.
      pose proof (Z.mod_pos_bound (Z.of_nat (length text) + d - 1) d Hd).
      pose proof (Z.div_mod (Z.of_nat (length text) + d - 1) d ltac:(lia)). nia. }
    unfold n. nia. }
  exists (windows text chunkSize overlap n 0).
  split; [apply chunkText_windows; exact Hd |].
  split; [exact Hall |].
  intros H0. rewrite <- Hall at 2. f_equal.
  rewrite <- (map_id (windows text chunkSize overlap n 0)) at 1.
  apply map_ext_in. intros c Hc.
  apply In_nth_error in Hc as [k Hk].
  assert (Hlt : k < n).
  { rewrite <- (windows_length text chunkSize overlap n 0). apply nth_error_Some.
    unfold jsstring in *. congruence. }
  rewrite windows_nth in Hk by exact Hlt. injection Hk as <-.
  pose proof (window_as_list text chunkSize (chunkSize - overlap) k ltac:(lia) ltac:(lia)) as Hw.
  rewrite !Z.add_0_l in Hw. rewrite Hw, firstn_firstn. f_equal. unfold d. lia.
Qed.

Lemma chunkText_reassembles_witness :
  exists chunks,
    chunkText (js "The sky is blue. Grass is green.") 20 5 = Some chunks
    /\ concat (map (firstn 15) chunks) = js "The sky is blue. Grass is green.".
Proof.
  destruct (chunkText_reassembles (js "The sky is blue. Grass is green.") 20 5 ltac:(lia))
    as (chunks & Hrun & Hcat & _).
  exists chunks. split; [exact Hrun | exact Hcat].
Defined.
(* ================================================================== *)
(** * The dot product: further properties *)
(* ================================================================== *)

Lemma dotProduct_from_comm (a : list float) : forall b p,
  length a = length b -> dotProduct_from p a b = dotProduct_from p b a.
Proof.
  induction a as [| x a IH]; intros [| y b] p Hlen; simpl in *; try reflexivity; try discriminate.
  rewrite (float_mul_comm x y). apply IH. lia.
Qed.

(** The result is the rounded one: adding [2^-53] to [1] gives [1], so the
    three products below add up to zero; and the sum of an infinite
    product and its opposite is [NaN], on vectors of one length. *)
Lemma dotProduct_rounds :
  dotProduct [1; 1; 1]%float [1; 0x1p-53; -1]%float = 0%float
  /\ dotProduct [1; 1]%float [infinity; neg_infinity] = nan.
Proof. split; vm_compute; reflexivity. Qed.

(** X7.  When the second vector has fewer components than the first,
    [dotProduct] does not fail: it returns [NaN].  The comparator of
    [findSimilarChunks] leaves a chunk with that score unordered against
    every other chunk, whatever their scores. *)
Theorem dotProduct_short_operand (vecA vecB : list float) :
  length vecB < length vecA ->
  dotProduct vecA vecB = nan
  /\ forall c c' : SimilarChunk,
       similarity c = dotProduct vecA vecB ->
       sign_of (bySimilarityDesc c c') = Eq /\ sign_of (bySimilarityDesc c' c) = Eq.
Proof.
  intros Hlen.
  assert (E : dotProduct vecA vecB = nan) by (now apply dotProduct_from_short).
  split; [exact E |].
  intros c c' Hc. rewrite E in Hc. unfold bySimilarityDesc. rewrite Hc.
  rewrite float_sub_nan_r, float_sub_nan_l. split; reflexivity.
Qed.

Lemma dotProduct_short_operand_witness :
  dotProduct [1; 2; 3]%float [1; 2]%float = nan.
Proof.
  exact (proj1 (dotProduct_short_operand [1; 2; 3]%float [1; 2]%float (Nat.lt_succ_diag_r 2))).
Defined.

(** X8.  On two vectors of the same length [dotProduct] returns the sum of
    the products of the components at the same index, added from left to
    right in doubles (each product and each sum rounded; the result may be
    an infinity or [NaN]), and the order of the two arguments does not
    matter. *)
Theorem dotProduct_symmetric (vecA vecB : list float) :
  length vecA = length vecB ->
  dotProduct vecA vecB
  = fold_left (fun acc xy => (acc + fst xy * snd xy)%float) (combine vecA vecB) 0%float
  /\ dotProduct vecA vecB = dotProduct vecB vecA.
Proof.
  intros Hlen. split.
  - apply dotProduct_from_fold. lia.
  - now apply dotProduct_from_comm.
Qed.

Lemma dotProduct_symmetric_witness :
  dotProduct [1; 2]%float [3; 4]%float = 11%float
  /\ dotProduct [3; 4]%float [1; 2]%float = 11%float.
Proof.
  destruct (dotProduct_symmetric [1; 2]%float [3; 4]%float eq_refl) as [Hsum Hcomm].
  rewrite <- Hcomm. rewrite Hsum. split; vm_compute; reflexivity.
Defined.

(* ================================================================== *)
(** * Retrieval and the knowledge handler: further properties *)
(* ================================================================== *)

Lemma sort_length {A : Type} (comparefn : A -> A -> Num) (l : list A) :
  length (sort comparefn l) = length l.
Proof. apply Permutation_length, sort_perm. Qed.

Lemma contains_refl (s : jsstring) : contains s s.
Proof. exists [], []. now rewrite app_nil_r. Qed.

Lemma contains_take (q x t : jsstring) : contains q x -> contains q (x ++ t).
Proof. intros (a & b & ->). exists a, (b ++ t). now rewrite <- !app_assoc. Qed.

Lemma contains_skip (q x t : jsstring) : contains q t -> contains q (x ++ t).
Proof. intros (a & b & ->). exists (x ++ a), b. now rewrite <- !app_assoc. Qed.

Lemma contains_join (sep x : jsstring) (xs : list jsstring) :
  In x xs -> contains x (join sep xs).
Proof.
  induction xs as [| y [| z xs] IH]; intros Hin.
  - destruct Hin.
  - destruct Hin as [-> | []]. apply contains_refl.
  - destruct Hin as [-> | Hin].
    + cbn [join]. apply contains_take, contains_refl.
    + change (join sep (y :: z :: xs)) with (y ++ sep ++ join sep (z :: xs)).
      apply contains_skip, contains_skip, IH, Hin.
Qed.

(** The text the knowledge handler answers with when it has no context. *)
Definition nothingFound : jsstring :=
  js "I couldn't find any relevant information in the uploaded documents to answer that.".

(** X9.  [findSimilarChunks] returns at most three chunks.  While the
    embedding model is not ready it returns none and does not ask for an
    embedding, whatever the store holds; with the model ready and the query
    embedded it returns three chunks, or all of them when the store has
    fewer. *)
Theorem findSimilarChunks_at_most_three
    (embed : list Event -> jsstring -> option (list float))
    (snap : AppState) (query : jsstring) (w : World) :
  store_ok snap ->
  exists (r : list SimilarChunk) (w' : World),
    findSimilarChunks embed snap query w = (Ok r, w')
    /\ length r <= 3
    /\ (ready (modelStatus snap) = false -> r = [] /\ w' = w)
    /\ (ready (modelStatus snap) = true -> embed (trace w) query <> None ->
        length r = Nat.min 3 (length (vectorStore snap))).
Proof.
  intros Hok. unfold findSimilarChunks.
  destruct (vectorStore snap) as [| v store] eqn:Es.
  - exists [], w. cbn. repeat split; lia.
  - destruct (ready (modelStatus snap)) eqn:Er; cbn [length Nat.eqb negb orb].
    + unfold bind at 1, getClientSideEmbedding.
      destruct (embed (trace w) query) as [q |].
      * unfold bind at 1. rewrite mapM_score by (unfold store_ok in Hok; now rewrite Es in Hok).
        eexists _, _. split; [reflexivity |].
        rewrite length_firstn, sort_length, length_map.
        repeat split; try lia; discriminate.
      * eexists _, _. split; [reflexivity |]. cbn. repeat split; try lia; try discriminate.
        intros _ H. now contradiction H.
    + exists [], w. cbn. repeat split; try lia; discriminate.
Qed.

Lemma findSimilarChunks_at_most_three_witness :
  exists (r : list SimilarChunk) (w' : World),
    findSimilarChunks (embedAlways [1; 0]%float) stateWithStore (js "sky") freshWorld = (Ok r, w')
    /\ length r = 3.
Proof.
  destruct (findSimilarChunks_at_most_three (embedAlways [1; 0]%float) stateWithStore (js "sky")
              freshWorld)
    as (r & w' & Hrun & _ & _ & Hlen).
  - unfold store_ok. vm_compute. repeat constructor.
  - exists r, w'. split; [exact Hrun |]. rewrite Hlen; [reflexivity | reflexivity | discriminate].
Defined.

(** X10.  When the retrieval gives nothing (the store is empty, the
    embedding model is not ready, or the query cannot be embedded) the
    knowledge handler answers with its fixed text and no sources; it sends
    nothing to the language model and changes no state. *)
Theorem knowledge_query_without_context
    (generate : list Event -> jsstring -> option FileData -> ApiOutcome)
    (embed : list Event -> jsstring -> option (list float))
    (snap : AppState) (prompt : jsstring) (w : World) :
  vectorStore snap = [] \/ ready (modelStatus snap) = false \/ embed (trace w) prompt = None ->
  exists w' : World,
    handleKnowledgeQuery generate embed snap prompt w
    = (Ok (agentMessage (js "KnowledgeAgent") (TStr nothingFound) None), w')
    /\ state w' = state w
    /\ requests (trace w') = requests (trace w).
Proof.
  intros H. unfold handleKnowledgeQuery, findSimilarChunks.
  destruct ((length (vectorStore snap) =? 0) || negb (ready (modelStatus snap))) eqn:E.
  - exists w. repeat split.
  - destruct H as [H | [H | H]].
    + rewrite H in E. discriminate.
    + rewrite H in E. rewrite orb_true_r in E. discriminate.
    + unfold bind, getClientSideEmbedding. rewrite H. cbn.
      eexists. split; [reflexivity |]. cbn. split; [reflexivity |].
      rewrite requests_app. cbn. now rewrite app_nil_r.
Qed.

Lemma knowledge_query_without_context_witness :
  exists w' : World,
    handleKnowledgeQuery (answerAlways (js "RESULT")) (embedAlways [1; 0]%float) freshState
      (js "what is in the report?") freshWorld
    = (Ok (agentMessage (js "KnowledgeAgent") (TStr nothingFound) None), w')
    /\ state w' = state freshWorld
    /\ requests (trace w') = requests (trace freshWorld).
Proof.
  exact (knowledge_query_without_context (answerAlways (js "RESULT")) (embedAlways [1; 0]%float)
           freshState (js "what is in the report?") freshWorld (or_introl eq_refl)).
Defined.

(** The prompt the knowledge handler builds from the chunks it retrieved. *)
Definition augmentedPromptOf (similarChunks : list SimilarChunk) (prompt : jsstring) : jsstring :=
  js "Based *only* on the context below, answer the user's question." ++ nl ++ nl
  ++ js "--- CONTEXT ---" ++ nl
  ++ join (nl ++ nl ++ js "---" ++ nl ++ nl)
       (map (fun c => js "Source: " ++ fileName (stored c) ++ nl ++ js "Content:" ++ nl ++ chunk (stored c))
          similarChunks)
  ++ nl ++ js "--- END CONTEXT ---" ++ nl ++ nl
  ++ js "User Question: " ++ dq ++ prompt ++ dq.

(** X11.  With a non-empty store whose scores for the query are numbers
    (none is [NaN]), the embedding model ready and the query embedded, the
    knowledge handler sends one request to the language model, with no
    attachment.  The request holds the question and, for each of the chunks
    retrieved (the three best, or all when the store has fewer), the name
    of its file and its text.  The answer is the model's text, and its
    sources are those chunks in the order of their rank: a higher score
    first and, of equal scores, the chunk stored earlier. *)
Theorem knowledge_query_grounded
    (generate : list Event -> jsstring -> option FileData -> ApiOutcome)
    (embed : list Event -> jsstring -> option (list float))
    (snap : AppState) (prompt : jsstring) (q : list float) (w : World) :
  numericScores q (vectorStore snap) ->
  vectorStore snap <> [] ->
  ready (modelStatus snap) = true ->
  embed (trace w) prompt = Some q ->
  exists (ranked : list (nat * SimilarChunk)) (top : list SimilarChunk)
         (request : jsstring) (w' : World),
    Permutation (map (fun x => (fst x, stored (snd x))) ranked)
      (combine (seq 0 (length (vectorStore snap))) (vectorStore snap))
    /\ StronglySorted rankedBefore ranked
    /\ top = firstn 3 (map snd ranked)
    /\ top = firstn 3 (sort bySimilarityDesc (map (scored q) (vectorStore snap)))
    /\ 0 < length top <= 3
    /\ handleKnowledgeQuery generate embed snap prompt w
       = (Ok (agentMessage (js "KnowledgeAgent")
                (textOf (generate (trace w ++ [EvEmbed prompt]) request None))
                (Some (map (fun c => mkSource (fileName (stored c)) (chunk (stored c))) top))),
          w')
    /\ requests (trace w') = requests (trace w) ++ [(request, None)]
    /\ contains prompt request
    /\ Forall (fun c => contains (fileName (stored c)) request
                        /\ contains (chunk (stored c)) request) top.
Proof.
  intros Hnum Hne Hready Hq.
  pose proof (numericScores_store_ok q snap Hnum) as Hok.
  destruct (scored_ranking q (vectorStore snap) Hnum)
    as (ranked & Hperm & _ & Hsorted & _ & Hsnd).
  set (top := firstn 3 (sort bySimilarityDesc (map (scored q) (vectorStore snap)))).
  assert (Hlen : 0 < length top <= 3).
  { unfold top. rewrite length_firstn, sort_length, length_map.
    destruct (vectorStore snap); [congruence | cbn [length]; lia]. }
  exists ranked, top, (augmentedPromptOf top prompt).
  unfold handleKnowledgeQuery. unfold bind at 1.
  rewrite (findSimilarChunks_unfold embed snap prompt q w Hne Hready Hq Hok). fold top.
  destruct (Nat.eqb_spec (length top) 0) as [E | _]; [lia |].
  unfold bind at 1. fold (augmentedPromptOf top prompt).
  destruct (callGeminiAPI_runs generate (augmentedPromptOf top prompt) None
              (mkWorld (state w) (trace w ++ [EvEmbed prompt])))
    as (w' & -> & Htr & _).
  exists w'. cbn [trace] in *.
  split; [exact Hperm |]. split; [exact Hsorted |].
  split; [unfold top; now rewrite Hsnd |].
  split; [reflexivity |]. split; [exact Hlen |]. split; [reflexivity |]. split; [| split].
  - rewrite Htr, !requests_app. cbn. now rewrite app_nil_r.
  - unfold augmentedPromptOf.
    do 12 apply contains_skip. apply contains_take, contains_refl.
  - rewrite Forall_forall. intros c Hc.
    assert (Hline : contains (js "Source: " ++ fileName (stored c) ++ nl ++ js "Content:" ++ nl ++ chunk (stored c))
                      (augmentedPromptOf top prompt)).
    { unfold augmentedPromptOf. do 5 apply contains_skip. apply contains_take.
      apply contains_join.
      apply (in_map (fun c => js "Source: " ++ fileName (stored c) ++ nl ++ js "Content:" ++ nl ++ chunk (stored c))).
      exact Hc. }
    destruct Hline as (a & b & Hline). split.
    + exists (a ++ js "Source: "), (nl ++ js "Content:" ++ nl ++ chunk (stored c) ++ b).
      rewrite Hline. now rewrite <- !app_assoc.
    + exists (a ++ js "Source: " ++ fileName (stored c) ++ nl ++ js "Content:" ++ nl), b.
      rewrite Hline. now rewrite <- !app_assoc.
Qed.

Lemma knowledge_query_grounded_witness :
  exists (request : jsstring) (w' : World),
    handleKnowledgeQuery (answerAlways (js "RESULT")) (embedAlways [1; 0]%float) stateWithStore
      (js "sky") freshWorld
    = (Ok (agentMessage (js "KnowledgeAgent") (TStr (js "RESULT"))
             (Some (map (fun c => mkSource (fileName (stored c)) (chunk (stored c)))
                      (firstn 3 (sort bySimilarityDesc (map (scored [1; 0]%float) sampleStore)))))),
       w')
    /\ requests (trace w') = [(request, None)]
    /\ contains (js "sky") request.
Proof.
  destruct (knowledge_query_grounded (answerAlways (js "RESULT")) (embedAlways [1; 0]%float)
              stateWithStore (js "sky") [1; 0]%float freshWorld)
    as (ranked & top & request & w' & _ & _ & _ & -> & _ & Hrun & Hreq & Hq & _).
  - repeat constructor; eexists; (split; [reflexivity | vm_compute; reflexivity]).
  - discriminate.
  - reflexivity.
  - reflexivity.
  - exists request, w'. split; [exact Hrun |]. split; [exact Hreq | exact Hq].
Defined.

(* ================================================================== *)
(** * Ingestion: further properties *)
(* ================================================================== *)

Lemma contains_window (n k : nat) (t : jsstring) : contains (firstn n (skipn k t)) t.
Proof.
  exists (firstn k t), (skipn n (skipn k t)).
  now rewrite firstn_skipn, firstn_skipn.
Qed.

(** The chunks of a text under the default parameters: pieces of the text,
    none empty, none longer than 1000 characters. *)
Lemma chunkText_default_chunks (t : jsstring) :
  exists chunks,
    chunkText t default_chunkSize default_overlap = Some chunks
    /\ Forall (fun c => contains c t /\ c <> [] /\ length c <= 1000) chunks.
Proof.
  set (n := Z.to_nat (ceil_div (Z.of_nat (length t)) (default_chunkSize - default_overlap))).
  exists (windows t default_chunkSize default_overlap n 0).
  split; [apply chunkText_windows; unfold default_chunkSize, default_overlap; lia |].
  rewrite Forall_forall. intros c Hc. apply In_nth_error in Hc as [k Hk].
  assert (Hlt : k < n).
  { rewrite <- (windows_length t default_chunkSize default_overlap n 0).
    apply nth_error_Some. unfold jsstring in *. congruence. }
  rewrite windows_nth in Hk by exact Hlt.
  pose proof (window_as_list t default_chunkSize (default_chunkSize - default_overlap) k
                ltac:(unfold default_chunkSize, default_overlap; lia)
                ltac:(unfold default_chunkSize; lia)) as Hw.
  remember (Z.to_nat default_chunkSize) as S1 eqn:HS.
  remember (Z.to_nat (default_chunkSize - default_overlap)) as D1 eqn:HD.
  rewrite Hw in Hk. injection Hk as <-.
  split; [apply contains_window |].
  assert (HS' : S1 = 1000) by (subst S1; reflexivity).
  assert (HD' : D1 = 800) by (subst D1; reflexivity).
  clear HS HD.
  rewrite length_firstn, length_skipn. split; [| lia].
  assert (Hcov : (Z.of_nat k * 800 < Z.of_nat (length t))%Z).
  { apply (ceil_div_covers _ 800 _ ltac:(lia)).
    pose proof (ceil_div_nonneg (Z.of_nat (length t)) 800 ltac:(lia) (Nat2Z.is_nonneg _)).
    unfold n in Hlt. change (default_chunkSize - default_overlap)%Z with 800%Z in Hlt. lia. }
  intros Hnil. apply (f_equal (@length N)) in Hnil.
  rewrite length_firstn, length_skipn in Hnil. simpl in Hnil. lia.
Qed.

(** A record made from a chunk of the text of one of the [files]. *)
Definition recordOf (extractText : list Event -> BrowserFile -> option jsstring)
    (files : list FileData) (v : VectorRecord) : Prop :=
  exists (f : FileData) (tr : list Event) (t : jsstring),
    In f files /\ isImageType (type_ f) = false /\ fileName v = name f
    /\ extractText tr (fileObject f) = Some t
    /\ contains (chunk v) t /\ chunk v <> [] /\ length (chunk v) <= 1000.

Lemma recordOf_more extractText (f : FileData) (files : list FileData) (v : VectorRecord) :
  recordOf extractText files v -> recordOf extractText (f :: files) v.
Proof.
  intros (f0 & tr & t & Hin & H). exists f0, tr, t. split; [now right | exact H].
Qed.

Section IngestMore.

Variable embed : list Event -> jsstring -> option (list float).
Variable extractText : list Event -> BrowserFile -> option jsstring.
Variable snap : AppState.

Lemma mapM_embed_trace (chunks : list jsstring) : forall w,
  exists es w',
    mapM (getClientSideEmbedding embed) chunks w = (Ok es, w') /\ state w' = state w
    /\ requests (trace w') = requests (trace w).
Proof.
  induction chunks as [| c chunks IH]; intros w; simpl.
  - now exists [], w.
  - unfold bind at 1, getClientSideEmbedding at 1. cbv beta iota.
    unfold bind at 1.
    match goal with |- context [mapM _ chunks ?w0] => destruct (IH w0) as (es & w' & E & Hs & Hr) end.
    rewrite E. eexists _, _. split; [reflexivity |]. split; [exact Hs |].
    rewrite Hr. cbn [trace]. rewrite requests_app. cbn. now rewrite app_nil_r.
Qed.

(** One turn of the loop: what it adds comes from the file, and of the
    state it touches the uploaded files and the error only. *)
Lemma embedFile_records (file : FileData) (newVectors : list VectorRecord) (w : World) :
  exists added w',
    embedFile embed extractText file newVectors w = (Ok (newVectors ++ added), w')
    /\ Forall (recordOf extractText [file]) added
    /\ vectorStore (state w') = vectorStore (state w)
    /\ isIndexing (state w') = isIndexing (state w)
    /\ map name (uploadedFiles (state w')) = map name (uploadedFiles (state w))
    /\ requests (trace w') = requests (trace w).
Proof.
  unfold embedFile. destruct (isImageType (type_ file)) eqn:Eimg.
  - exists [], w. rewrite app_nil_r. repeat split. constructor.
  - unfold bind at 1, parseFileContent.
    destruct (extractText (trace w) (fileObject file)) as [[| c rest] |] eqn:Et.
    + exists [], w. rewrite app_nil_r. repeat split. constructor.
    + unfold bind at 1, setUploadedFiles at 1, update at 1.
      set (w2 := mkWorld _ (trace w)).
      unfold bind at 1, chunkText_default.
      destruct (chunkText_default_chunks (c :: rest)) as (chunks & -> & Hchunks).
      unfold ret at 1. unfold bind at 1.
      destruct (mapM_embed_trace chunks w2) as (es & w3 & -> & Hs3 & Hr3).
      eexists _, w3. split; [reflexivity |].
      split; [| rewrite Hs3, Hr3; unfold w2; cbn [state trace with_uploadedFiles vectorStore isIndexing uploadedFiles];
                repeat split].
      * rewrite Forall_forall. intros v Hv. apply filter_In in Hv as [Hv _].
        unfold zipRecords in Hv. apply in_map_iff in Hv as ([ch e] & <- & Hin).
        apply in_combine_l in Hin. rewrite Forall_forall in Hchunks.
        destruct (Hchunks ch Hin) as (Hc1 & Hc2 & Hc3).
        exists file, (trace w), (c :: rest). cbn [fileName chunk fst snd].
        repeat split; auto. now left.
      * rewrite map_map. apply map_ext. intros f.
        now destruct (str_eqb (name f) (name file)).
    + unfold bind, emit, setError, update, ret. cbn.
      eexists [], _. rewrite app_nil_r. split; [reflexivity |].
      repeat split; [constructor |]. cbn. rewrite requests_app. cbn. now rewrite app_nil_r.
Qed.

Lemma forM_embedFile_records (files : list FileData) : forall newVectors w,
  exists added w',
    forM files newVectors (embedFile embed extractText) w = (Ok (newVectors ++ added), w')
    /\ Forall (recordOf extractText files) added
    /\ vectorStore (state w') = vectorStore (state w)
    /\ isIndexing (state w') = isIndexing (state w)
    /\ map name (uploadedFiles (state w')) = map name (uploadedFiles (state w))
    /\ requests (trace w') = requests (trace w).
Proof.
  induction files as [| f files IH]; intros nv w; simpl.
  - exists [], w. rewrite app_nil_r. repeat split. constructor.
  - unfold bind at 1.
    destruct (embedFile_records f nv w) as (a1 & w1 & -> & Ha1 & Hs1 & Hi1 & Hu1 & Hr1).
    destruct (IH (nv ++ a1) w1) as (a2 & w2 & -> & Ha2 & Hs2 & Hi2 & Hu2 & Hr2).
    exists (a1 ++ a2), w2. rewrite app_assoc. split; [reflexivity |].
    split; [| repeat split; congruence].
    apply Forall_app. split.
    + eapply Forall_impl; [| exact Ha1].
      intros v (f0 & tr & t & [<- | []] & H). exists f, tr, t. split; [now left | exact H].
    + eapply Forall_impl; [| exact Ha2]. intros v. apply recordOf_more.
Qed.

Lemma processAndEmbedFiles_records (files : list FileData) (w : World) :
  exists added w',
    processAndEmbedFiles embed extractText snap files w = (Ok tt, w')
    /\ vectorStore (state w') = vectorStore (state w) ++ added
    /\ Forall (recordOf extractText files) added
    /\ Forall (fun v => hasEmbedding v = true) added
    /\ map name (uploadedFiles (state w')) = map name (uploadedFiles (state w))
    /\ requests (trace w') = requests (trace w)
    /\ (ready (modelStatus snap) = true -> isIndexing (state w') = false)
    /\ (ready (modelStatus snap) = false ->
        added = [] /\ trace w' = trace w
        /\ state w' = with_error (Some (js "Document model not ready.")) (state w)).
Proof.
  unfold processAndEmbedFiles. destruct (ready (modelStatus snap)); cbn [negb].
  - unfold bind at 1, setIsIndexing at 1, update at 1.
    set (w1 := mkWorld _ (trace w)).
    unfold bind at 1.
    destruct (forM_embedFile_records files [] w1) as (added & w2 & E & Ha & Hs & Hi & Hu & Hr).
    destruct (forM_embedFile_runs embed extractText files [] w1) as (added' & w2' & E' & Ha' & _).
    rewrite E in E'. injection E' as <- <-. rewrite E.
    cbn [app]. eexists added, _. split; [reflexivity |].
    cbn [state trace with_isIndexing with_vectorStore vectorStore isIndexing uploadedFiles].
    rewrite Hs, Hu, Hr. unfold w1. cbn [state trace with_isIndexing vectorStore uploadedFiles].
    repeat split; auto; discriminate.
  - exists [], (mkWorld (with_error (Some (js "Document model not ready.")) (state w)) (trace w)).
    rewrite app_nil_r. repeat split; try constructor; discriminate.
Qed.

End IngestMore.

(** X12.  [processAndEmbedFiles] returns normally and only appends to the
    store.  Every record it appends carries the name of a file of the batch
    that is no image, and its chunk is a piece of the text extracted from
    that file, not empty and at most 1000 characters long; nothing is sent
    to the language model.  With the embedding model ready the indexing flag
    is off at the end; with the model not ready nothing is read or stored:
    the call sets the error text and does nothing else. *)
Theorem processAndEmbedFiles_provenance
    (embed : list Event -> jsstring -> option (list float))
    (extractText : list Event -> BrowserFile -> option jsstring)
    (snap : AppState) (files : list FileData) (w : World) :
  exists (added : list VectorRecord) (w' : World),
    processAndEmbedFiles embed extractText snap files w = (Ok tt, w')
    /\ vectorStore (state w') = vectorStore (state w) ++ added
    /\ Forall (recordOf extractText files) added
    /\ requests (trace w') = requests (trace w)
    /\ (ready (modelStatus snap) = true -> isIndexing (state w') = false)
    /\ (ready (modelStatus snap) = false ->
        added = [] /\ trace w' = trace w
        /\ state w' = with_error (Some (js "Document model not ready.")) (state w)).
Proof.
  destruct (processAndEmbedFiles_records embed extractText snap files w)
    as (added & w' & Hrun & Hs & Ha & _ & _ & Hr & Hi & Hn).
  exists added, w'. repeat split; auto; now apply Hn.
Qed.

(** X13.  Uploading documents of one name and then removing that name
    leaves the store as it was before the upload, when the store had no
    record of that name. *)
Theorem upload_then_remove
    (embed : list Event -> jsstring -> option (list float))
    (extractText : list Event -> BrowserFile -> option jsstring)
    (snap snap' : AppState) (files : list FileData) (fname : jsstring) (w : World) :
  Forall (fun v => fileName v <> fname) (vectorStore (state w)) ->
  Forall (fun f => isImageType (type_ f) = false -> name f = fname) files ->
  exists w1 : World,
    processAndEmbedFiles embed extractText snap files w = (Ok tt, w1)
    /\ vectorStore (state (snd (removeFile snap' fname w1))) = vectorStore (state w).
Proof.
  intros Hstore Hfiles.
  destruct (processAndEmbedFiles_records embed extractText snap files w)
    as (added & w1 & Hrun & Hs & Ha & _).
  exists w1. split; [exact Hrun |].
  rewrite removeFile_store, Hs, filter_app.
  assert (Hkeep : forall l, Forall (fun v => fileName v <> fname) l ->
            filter (fun v => negb (str_eqb (fileName v) fname)) l = l).
  { intros l Hl. induction Hl as [| v l Hv _ IH]; simpl; [reflexivity |].
    apply str_eqb_neq in Hv. rewrite Hv. simpl. now f_equal. }
  assert (Hdrop : filter (fun v => negb (str_eqb (fileName v) fname)) added = []).
  { clear Hs. induction Ha as [| v l Hv _ IH]; simpl; [reflexivity |].
    destruct Hv as (f & tr & t & Hin & Himg & Hname & _).
    rewrite Forall_forall in Hfiles. rewrite Hname, (Hfiles f Hin Himg), str_eqb_refl.
    simpl. exact IH. }
  rewrite Hkeep by exact Hstore. rewrite Hdrop. apply app_nil_r.
Qed.

Lemma upload_then_remove_witness :
  exists w1 : World,
    processAndEmbedFiles embedLongTexts extractBytes freshState [document] freshWorld = (Ok tt, w1)
    /\ vectorStore (state (snd (removeFile freshState (name document) w1))) = [].
Proof.
  refine (upload_then_remove embedLongTexts extractBytes freshState freshState [document]
            (name document) freshWorld _ _).
  - constructor.
  - repeat constructor.
Defined.

(* ================================================================== *)
(** * The summarization handler: further properties *)
(* ================================================================== *)

(** The request the summarization handler sends for a text. *)
Definition summaryPromptOf (textToSummarize : jsstring) : jsstring :=
  js "Provide a concise, professional summary of the following text:" ++ nl ++ nl
  ++ js "--- TEXT ---" ++ nl ++ textToSummarize ++ nl ++ js "--- END TEXT ---".

(** The text of the handler's soft failure. *)
Definition nothingToSummarize (prompt : jsstring) : jsstring :=
  js "Error: Could not find document or text to summarize for " ++ dq ++ prompt ++ dq ++ js ".".

Lemma handleSummarizationQuery_text
    (generate : list Event -> jsstring -> option FileData -> ApiOutcome)
    (snap : AppState) (prompt t : jsstring) (w : World) :
  t <> [] ->
  match find_file (fun f => str_eqb (name f) prompt) (uploadedFiles snap) with
  | Some f => textContent f
  | None => Some prompt
  end = Some t ->
  exists w',
    handleSummarizationQuery generate snap prompt w
    = (Ok (agentMessage (js "SummarizationAgent")
             (textOf (generate (trace w) (summaryPromptOf t) None)) None), w')
    /\ requests (trace w') = requests (trace w) ++ [(summaryPromptOf t, None)].
Proof.
  intros Hne Ht. unfold handleSummarizationQuery. rewrite Ht.
  destruct t as [| c rest]; [congruence |].
  unfold bind. fold (summaryPromptOf (c :: rest)).
  destruct (callGeminiAPI_runs generate (summaryPromptOf (c :: rest)) None w)
    as (w' & -> & Htr & _).
  exists w'. split; [reflexivity |].
  rewrite Htr, requests_app. reflexivity.
Qed.

(** X14.  What the summarization handler summarises.  A prompt that is the
    name of no uploaded file is summarised as it is.  A prompt that is the
    name of an uploaded file stands for the text of the first file of that
    name.  When that file has no text (an image, or a document whose text
    was not extracted), and when the prompt is empty, the handler answers
    with its error text and sends nothing to the language model. *)
Theorem summarization_input
    (generate : list Event -> jsstring -> option FileData -> ApiOutcome)
    (snap : AppState) (prompt : jsstring) (w : World) :
  (Forall (fun f => name f <> prompt) (uploadedFiles snap) -> prompt <> [] ->
   exists w',
     handleSummarizationQuery generate snap prompt w
     = (Ok (agentMessage (js "SummarizationAgent")
              (textOf (generate (trace w) (summaryPromptOf prompt) None)) None), w')
     /\ requests (trace w') = requests (trace w) ++ [(summaryPromptOf prompt, None)])
  /\ (forall before f after t,
        uploadedFiles snap = before ++ f :: after ->
        Forall (fun f0 => name f0 <> prompt) before -> name f = prompt ->
        textContent f = Some t -> t <> [] ->
        exists w',
          handleSummarizationQuery generate snap prompt w
          = (Ok (agentMessage (js "SummarizationAgent")
                   (textOf (generate (trace w) (summaryPromptOf t) None)) None), w')
          /\ requests (trace w') = requests (trace w) ++ [(summaryPromptOf t, None)])
  /\ (forall before f after,
        uploadedFiles snap = before ++ f :: after ->
        Forall (fun f0 => name f0 <> prompt) before -> name f = prompt ->
        textContent f = None \/ textContent f = Some [] ->
        handleSummarizationQuery generate snap prompt w
        = (Ok (agentMessage (js "SummarizationAgent") (TStr (nothingToSummarize prompt)) None), w))
  /\ (prompt = [] -> Forall (fun f => name f <> prompt) (uploadedFiles snap) ->
      handleSummarizationQuery generate snap prompt w
      = (Ok (agentMessage (js "SummarizationAgent") (TStr (nothingToSummarize prompt)) None), w)).
Proof.
  assert (Hnone : Forall (fun f => name f <> prompt) (uploadedFiles snap) ->
            find_file (fun f => str_eqb (name f) prompt) (uploadedFiles snap) = None).
  { intros Hall. unfold find_file. induction Hall as [| f l Hf _ IH]; simpl; [reflexivity |].
    apply str_eqb_neq in Hf. now rewrite Hf. }
  assert (Hfirst : forall before f after,
            uploadedFiles snap = before ++ f :: after ->
            Forall (fun f0 => name f0 <> prompt) before -> name f = prompt ->
            find_file (fun f => str_eqb (name f) prompt) (uploadedFiles snap) = Some f).
  { intros before f after -> Hb Hf. unfold find_file.
    induction Hb as [| f0 l Hf0 _ IH]; simpl.
    - rewrite Hf, str_eqb_refl. reflexivity.
    - apply str_eqb_neq in Hf0. now rewrite Hf0. }
  split; [| split; [| split]].
  - intros Hall Hne. apply handleSummarizationQuery_text; [exact Hne |].
    now rewrite (Hnone Hall).
  - intros before f after t Hu Hb Hf Ht Hne.
    apply handleSummarizationQuery_text; [exact Hne |].
    now rewrite (Hfirst before f after Hu Hb Hf).
  - intros before f after Hu Hb Hf Ht.
    unfold handleSummarizationQuery. rewrite (Hfirst before f after Hu Hb Hf).
    destruct Ht as [-> | ->]; reflexivity.
  - intros -> Hall. unfold handleSummarizationQuery. rewrite (Hnone Hall). reflexivity.
Qed.

(** X15.  Upload, then summarise by name.  After [processAndEmbedFiles] has
    run on a document whose text [t] is extracted and not empty, every entry
    of the uploaded files with the document's name holds [t]; a render that
    follows sees it, and its summarization handler, given the document's
    name as the prompt, sends the text [t] (not the name) to the language
    model and answers with the model's text. *)
Theorem upload_then_summarize
    (generate : list Event -> jsstring -> option FileData -> ApiOutcome)
    (embed : list Event -> jsstring -> option (list float))
    (extractText : list Event -> BrowserFile -> option jsstring)
    (snap : AppState) (file : FileData) (t : jsstring) (w : World) :
  ready (modelStatus snap) = true ->
  isImageType (type_ file) = false ->
  extractText (trace w) (fileObject file) = Some t ->
  t <> [] ->
  (exists f, In f (uploadedFiles (state w)) /\ name f = name file) ->
  exists w1 : World,
    processAndEmbedFiles embed extractText snap [file] w = (Ok tt, w1)
    /\ Forall (fun f => name f = name file -> textContent f = Some t) (uploadedFiles (state w1))
    /\ forall w2 : World, exists w3 : World,
         handleSummarizationQuery generate (state w1) (name file) w2
         = (Ok (agentMessage (js "SummarizationAgent")
                  (textOf (generate (trace w2) (summaryPromptOf t) None)) None), w3)
         /\ requests (trace w3) = requests (trace w2) ++ [(summaryPromptOf t, None)].
Proof.
  intros Hready Himg Ht Hne (f0 & Hin0 & Hname0).
  unfold processAndEmbedFiles. rewrite Hready. cbn [negb].
  unfold bind at 1, setIsIndexing at 1, update at 1.
  set (w0 := mkWorld _ (trace w)).
  unfold bind at 1. cbn [forM]. unfold bind at 1.
  unfold embedFile. rewrite Himg. unfold bind at 1, parseFileContent.
  change (trace w0) with (trace w). rewrite Ht.
  destruct t as [| c rest]; [congruence |].
  unfold bind at 1, setUploadedFiles at 1, update at 1.
  set (w2 := mkWorld _ (trace w0)).
  unfold bind at 1, chunkText_default.
  destruct (chunkText_default_returns (c :: rest)) as [chunks ->].
  unfold ret at 1. unfold bind at 1.
  destruct (mapM_embed_runs embed chunks w2) as (es & w3 & -> & Hs3).
  unfold ret at 1. unfold bind at 1. unfold ret at 1.
  unfold bind, setVectorStore, setIsIndexing, update. cbn [app].
  eexists. split; [reflexivity |].
  cbn [state with_isIndexing with_vectorStore uploadedFiles]. rewrite Hs3.
  unfold w2. cbn [state with_uploadedFiles uploadedFiles]. unfold w0. cbn [state with_isIndexing uploadedFiles].
  set (files' := map _ (uploadedFiles (state w))).
  assert (Hall : Forall (fun f => name f = name file -> textContent f = Some (c :: rest)) files').
  { unfold files'. rewrite Forall_forall. intros f Hf.
    apply in_map_iff in Hf as (g & <- & _).
    destruct (str_eqb (name g) (name file)) eqn:E; cbn.
    - reflexivity.
    - intros Hg. apply str_eqb_neq in E. contradiction. }
  split; [exact Hall |].
  intros w4.
  apply handleSummarizationQuery_text; [exact Hne |].
  cbn [uploadedFiles with_vectorStore with_isIndexing with_uploadedFiles].
  fold files'.
  destruct (find_file (fun f => str_eqb (name f) (name file)) files') as [f |] eqn:Ef.
  - unfold find_file in Ef. apply find_some in Ef as [Hf Hn].
    apply str_eqb_eq in Hn. rewrite Forall_forall in Hall. exact (Hall f Hf Hn).
  - exfalso. unfold find_file in Ef.
    assert (Hin' : In (if str_eqb (name f0) (name file) then withTextContent f0 (c :: rest) else f0) files')
      by (unfold files'; apply (in_map (fun f => if str_eqb (name f) (name file) then withTextContent f (c :: rest) else f)); exact Hin0).
    pose proof (find_none _ _ Ef _ Hin') as Hno. cbn beta in Hno.
    rewrite Hname0, str_eqb_refl in *. cbn in Hno. rewrite Hname0, str_eqb_refl in Hno. discriminate.
Qed.

Lemma upload_then_summarize_witness :
  exists w1 : World,
    processAndEmbedFiles embedLongTexts extractBytes freshState [document]
      (mkWorld (with_uploadedFiles (fun _ => [document]) freshState) [])
    = (Ok tt, w1)
    /\ fst (handleSummarizationQuery (answerAlways (js "a summary")) (state w1) (name document)
              freshWorld)
       = Ok (agentMessage (js "SummarizationAgent") (TStr (js "a summary")) None).
Proof.
  destruct (upload_then_summarize (answerAlways (js "a summary")) embedLongTexts extractBytes
              freshState document (repeat 97%N 900)
              (mkWorld (with_uploadedFiles (fun _ => [document]) freshState) []))
    as (w1 & Hrun & _ & Hsum).
  - reflexivity.
  - reflexivity.
  - reflexivity.
  - discriminate.
  - exists document. split; [now left | reflexivity].
  - exists w1. split; [exact Hrun |].
    destruct (Hsum freshWorld) as (w3 & -> & _). reflexivity.
Defined.

(* ================================================================== *)
(** * The plan executor: further properties *)
(* ================================================================== *)

(** The request a handler that only asks the language model sends for a
    prompt. *)
Definition wrappedPrompt (agentName prompt : jsstring) : jsstring :=
  if str_eqb agentName (js "WebSearchAgent") then
    js "You are a web search agent. Find relevant information for the query and provide a concise answer with 2-3 simulated markdown links. Query: "
    ++ dq ++ prompt ++ dq
  else
    js "You are a code generation agent. Generate a code snippet for the request. Provide only the code in a markdown block. Request: "
    ++ dq ++ prompt ++ dq.

(** The two agents whose handler does nothing but ask the language model. *)
Definition asksModelOnly (agentName : jsstring) : Prop :=
  agentName = js "WebSearchAgent" \/ agentName = js "CodeGenerationAgent".

Section FailingModel.

Variable generate : list Event -> jsstring -> option FileData -> ApiOutcome.
Variable embed : list Event -> jsstring -> option (list float).
Variable snap : AppState.
Variable errMessage : jsstring.
Hypothesis generate_fails : forall tr r i, generate tr r i = ApiError errMessage.

(** The state after a failed call: the error text is set and [isLoading]
    is off. *)
Definition afterFailure (s : AppState) : AppState :=
  with_isLoading false (with_error (Some (js "Generation failed: " ++ errMessage)) s).

Lemma callAgent_failing (a p : jsstring) (w : World) :
  asksModelOnly a ->
  callAgent generate embed snap a p w
  = (Ok (agentMessage a TNull None),
     mkWorld (afterFailure (state w))
       ((trace w ++ [EvDispatch a p]) ++ [EvGenerate (wrappedPrompt a p) None])).
Proof.
  assert (E1 : str_eqb (js "WebSearchAgent") (js "KnowledgeAgent") = false) by reflexivity.
  assert (E2 : str_eqb (js "WebSearchAgent") (js "WebSearchAgent") = true) by reflexivity.
  assert (E3 : str_eqb (js "CodeGenerationAgent") (js "KnowledgeAgent") = false) by reflexivity.
  assert (E4 : str_eqb (js "CodeGenerationAgent") (js "WebSearchAgent") = false) by reflexivity.
  assert (E5 : str_eqb (js "CodeGenerationAgent") (js "CodeGenerationAgent") = true) by reflexivity.
  intros [-> | ->]; unfold callAgent, wrappedPrompt, bind at 1, emit.
  - rewrite E1, E2. unfold handleWebSearchQuery, bind, callGeminiAPI. cbn [trace state].
    rewrite generate_fails. reflexivity.
  - rewrite E3, E4, E5. unfold handleCodeGenerationQuery, bind, callGeminiAPI. cbn [trace state].
    rewrite generate_fails. reflexivity.
Qed.

Lemma executePlan_from_failing (n : nat) (steps : list PlanStep) : forall i so w,
  Forall (fun st => asksModelOnly (agent st)) steps ->
  exists w' : World,
    executePlan_from generate embed snap n steps i so w = (Ok tt, w')
    /\ dispatches (trace w') = dispatches (trace w)
                               ++ plan_dispatches steps (repeat TNull (length steps)) i so
    /\ chatHistory (state w') = chatHistory (state w)
                                ++ plan_messages n steps (repeat (TNull, None) (length steps)) i
    /\ length (requests (trace w')) = length (requests (trace w)) + length steps
    /\ (steps = [] -> w' = w)
    /\ (steps <> [] ->
        error (state w') = Some (js "Generation failed: " ++ errMessage)
        /\ isLoading (state w') = false).
Proof.
  induction steps as [| st steps IH]; intros i so w Hall.
  - exists w. cbn [length repeat plan_dispatches plan_messages executePlan_from ret].
    rewrite !app_nil_r. split; [reflexivity |]. split; [reflexivity |]. split; [reflexivity |].
    split; [lia |]. split; [reflexivity |]. intros Hx. now contradiction Hx.
  - inversion Hall as [| ? ? Hst Hrest]; subst.
    cbn [executePlan_from]. unfold bind at 1, setChatHistory at 1, update at 1.
    set (w1 := mkWorld _ (trace w)).
    unfold bind at 1. rewrite (callAgent_failing _ _ w1 Hst).
    unfold bind at 1. cbn [first_text agentMessage parts ret text].
    unfold bind at 1, setChatHistory at 1, update at 1.
    set (w3 := mkWorld _ _).
    destruct (IH (S i) (obj_set so (stepKey (i + 1)) TNull) w3 Hrest)
      as (w' & -> & Hd & Hc & Hr & Hnil & Hcons).
    exists w'. split; [reflexivity |].
    split; [| split; [| split; [| split]]].
    + rewrite Hd. unfold w3, w1. cbn [trace length repeat plan_dispatches].
      rewrite !dispatches_app. cbn. rewrite app_nil_r, <- app_assoc. reflexivity.
    + rewrite Hc. unfold w3, w1.
      cbn [state afterFailure with_isLoading with_error with_chatHistory chatHistory
           length repeat plan_messages].
      rewrite removelast_last, <- app_assoc. reflexivity.
    + rewrite Hr. unfold w3, w1. cbn [trace length].
      rewrite !requests_app, !length_app. cbn. lia.
    + discriminate.
    + intros _. destruct steps as [| st' steps].
      * rewrite (Hnil eq_refl). unfold w3. cbn. split; reflexivity.
      * apply Hcons. discriminate.
Qed.

End FailingModel.

(** X16.  A failure of the language model does not stop a plan.  When every
    request fails, a plan of steps for the agents that only ask the model
    (web search, code generation) still runs to its end: every step is
    dispatched, each failed step records [null] as its output, so that a
    placeholder for it resolves to the text [null] in later prompts; one
    message per step is left in the chat with [null] as its text; one
    request is made per step; at the end the error text is
    [Generation failed: <message>] and [isLoading] is off. *)
Theorem generation_failure_does_not_stop_plan
    (generate : list Event -> jsstring -> option FileData -> ApiOutcome)
    (embed : list Event -> jsstring -> option (list float))
    (snap : AppState) (errMessage : jsstring) (plan : list PlanStep) (w : World) :
  (forall tr r i, generate tr r i = ApiError errMessage) ->
  Forall (fun st => asksModelOnly (agent st)) plan ->
  plan <> [] ->
  exists w' : World,
    executePlan generate embed snap plan w = (Ok tt, w')
    /\ dispatches (trace w')
       = dispatches (trace w) ++ plan_dispatches plan (repeat TNull (length plan)) 0 []
    /\ chatHistory (state w')
       = chatHistory (state w)
         ++ plan_messages (length plan) plan (repeat (TNull, None) (length plan)) 0
    /\ length (requests (trace w')) = length (requests (trace w)) + length plan
    /\ error (state w') = Some (js "Generation failed: " ++ errMessage)
    /\ isLoading (state w') = false.
Proof.
  intros Hfail Hall Hne. unfold executePlan.
  destruct (executePlan_from_failing generate embed snap errMessage Hfail (length plan) plan 0 [] w Hall)
    as (w' & Hrun & Hd & Hc & Hr & _ & He).
  exists w'. destruct (He Hne) as [He1 He2]. repeat split; assumption.
Qed.

Lemma generation_failure_does_not_stop_plan_witness :
  exists w' : World,
    executePlan (fun _ _ _ => ApiError (js "API Error: 500")) embedNever freshState
      [mkPlanStep (js "WebSearchAgent") (js "x");
       mkPlanStep (js "CodeGenerationAgent") (js "use {{step_1_output}}")] freshWorld
    = (Ok tt, w')
    /\ dispatches (trace w')
       = [(js "WebSearchAgent", js "x"); (js "CodeGenerationAgent", js "use null")]
    /\ error (state w') = Some (js "Generation failed: API Error: 500")
    /\ isLoading (state w') = false.
Proof.
  destruct (generation_failure_does_not_stop_plan
              (fun _ _ _ => ApiError (js "API Error: 500")) embedNever freshState
              (js "API Error: 500")
              [mkPlanStep (js "WebSearchAgent") (js "x");
               mkPlanStep (js "CodeGenerationAgent") (js "use {{step_1_output}}")] freshWorld)
    as (w' & Hrun & Hd & _ & _ & He & Hl).
  - reflexivity.
  - constructor; [left; reflexivity |]. constructor; [right; reflexivity | constructor].
  - discriminate.
  - exists w'. split; [exact Hrun |]. split; [| split; [exact He | exact Hl]].
    rewrite Hd. vm_compute. reflexivity.
Defined.

(* ================================================================== *)
(** * Resolving a placeholder *)
(* ================================================================== *)

(** The object [stepOutputs] after the steps whose texts are [outs]: the
    key [step_N_output] of step [N], numbered from [first], with its text. *)
Definition keyed (first : nat) (outs : list JSText) : StepOutputs :=
  combine (map stepKey (seq first (length outs))) outs.

Lemma keyed_app (first : nat) (pre post : list JSText) :
  keyed first (pre ++ post) = keyed first pre ++ keyed (first + length pre) post.
Proof.
  revert first. induction pre as [| o pre IH]; intros first.
  - cbn. now rewrite Nat.add_0_r.
  - unfold keyed in *. cbn [length app seq map combine]. rewrite IH.
    cbn [app]. replace (first + S (length pre)) with (S first + length pre) by lia.
    reflexivity.
Qed.

Lemma keyed_keys (first : nat) (outs : list JSText) (key : jsstring) :
  In key (map fst (keyed first outs)) ->
  exists j, first <= j < first + length outs /\ key = stepKey j.
Proof.
  revert first. induction outs as [| o outs IH]; intros first; cbn; [intros [] |].
  intros [<- | H].
  - exists first. split; [lia | reflexivity].
  - destruct (IH (S first) H) as (j & Hj & ->). exists j. split; [lia | reflexivity].
Qed.

Lemma obj_set_fresh (so : StepOutputs) (key : jsstring) (v : JSText) :
  ~ In key (map fst so) -> obj_set so key v = so ++ [(key, v)].
Proof.
  induction so as [| [k0 v0] so IH]; intros Hno; cbn; [reflexivity |].
  destruct (str_eqb k0 key) eqn:E.
  - apply str_eqb_eq in E. exfalso. apply Hno. now left.
  - f_equal. apply IH. intros H. apply Hno. now right.
Qed.

(** Step [length prev + k + 1] is dispatched with its prompt resolved
    against the outputs of all the steps before it, in their order. *)
Lemma plan_dispatches_keyed (steps : list PlanStep) : forall outs prev k st,
  nth_error steps k = Some st -> k < length outs ->
  nth_error (plan_dispatches steps outs (length prev) (keyed 1 prev)) k
  = Some (agent st, substitute (keyed 1 (prev ++ firstn k outs)) (prompt st)).
Proof.
  induction steps as [| st0 steps IH]; intros [| t outs] prev [| k] st Hs Hk;
    cbn in Hs, Hk; try discriminate; try lia.
  - injection Hs as ->. cbn. now rewrite app_nil_r.
  - cbn [plan_dispatches nth_error firstn].
    rewrite obj_set_fresh.
    + replace (keyed 1 prev ++ [(stepKey (length prev + 1), t)]) with (keyed 1 (prev ++ [t]))
        by (rewrite keyed_app; replace (1 + length prev) with (length prev + 1) by lia;
            reflexivity).
      replace (S (length prev)) with (length (prev ++ [t])) by (rewrite length_app; cbn; lia).
      rewrite (IH outs (prev ++ [t]) k st Hs ltac:(lia)).
      now rewrite <- app_assoc.
    + intros Hin. apply keyed_keys in Hin as (j & Hj & Heq).
      apply stepKey_inj in Heq. lia.
Qed.

Lemma replace_absent (s p r : jsstring) : ~ contains p s -> replace s p r = s.
Proof.
  intros Hno. unfold replace.
  destruct (split_first p s) as [[before after] |] eqn:E; [| reflexivity].
  exfalso. apply Hno. apply split_first_sound in E. now exists before, after.
Qed.

Lemma placeholder_needs_lbrace (k s : jsstring) :
  ~ In lbrace s -> ~ contains (placeholder k) s.
Proof.
  intros Hno (a & b & ->). apply Hno. apply in_or_app. right.
  rewrite placeholder_unfold. now left.
Qed.

(** Outputs substituted into a text with no left brace change nothing. *)
Lemma substitute_no_lbrace (so : StepOutputs) (s : jsstring) :
  ~ In lbrace s -> substitute so s = s.
Proof.
  unfold substitute. induction so as [| [k v] so IH]; intros Hno; cbn; [reflexivity |].
  rewrite replace_absent by (now apply placeholder_needs_lbrace). now apply IH.
Qed.

(** Outputs of other steps leave a text with one placeholder as it is. *)
Lemma substitute_other_keys (so : StepOutputs) (key a b : jsstring) :
  braceFree key ->
  Forall (fun kv => braceFree (fst kv) /\ fst kv <> key) so ->
  ~ In lbrace a -> ~ In lbrace b ->
  substitute so (a ++ placeholder key ++ b) = a ++ placeholder key ++ b.
Proof.
  intros Hkey Hso Ha Hb. unfold substitute.
  induction Hso as [| [k v] so [Hk Hne] _ IH]; cbn; [reflexivity |].
  rewrite replace_absent; [exact IH |].
  intros (before & after & E). cbn in Hk, Hne.
  destruct (placeholders_apart k key a b before after Hk Hkey Hne E) as [[m [-> _]] | [m [_ ->]]].
  - apply Ha. apply in_or_app. right. apply in_or_app. left.
    rewrite placeholder_unfold. now left.
  - apply Hb. apply in_or_app. right. apply in_or_app. left.
    rewrite placeholder_unfold. now left.
Qed.

(** [replace] at an occurrence that nothing of the pattern precedes. *)
Lemma replace_after_clean_prefix (a b key r : jsstring) :
  ~ In lbrace a -> ~ In dollar r ->
  replace (a ++ placeholder key ++ b) (placeholder key) r = a ++ r ++ b.
Proof.
  intros Ha Hr. unfold replace.
  destruct (split_first (placeholder key) (a ++ placeholder key ++ b)) as [[before after] |] eqn:E.
  - pose proof (split_first_leftmost _ _ before after a b E eq_refl) as Hle.
    apply split_first_sound in E.
    assert (Hge : length a <= length before).
    { destruct (Nat.le_gt_cases (length a) (length before)) as [H | H]; [exact H | exfalso].
      apply Ha. rewrite <- (firstn_skipn (length before) a) in E |- *.
      rewrite <- app_assoc in E.
      destruct (app_same_length (firstn (length before) a) before _ _
                  ltac:(rewrite length_firstn; lia) E) as [_ E'].
      destruct (skipn (length before) a) as [| c rest] eqn:Es.
      - apply (f_equal (@length N)) in Es. rewrite length_skipn in Es. cbn in Es. lia.
      - rewrite placeholder_unfold in E'. cbn in E'. injection E' as -> _.
        apply in_or_app. right. now left. }
    destruct (app_same_length a before _ _ ltac:(lia) E) as [<- E'].
    apply app_inv_head in E'. subst after.
    now rewrite GetSubstitution_plain.
  - exfalso. exact (split_first_none _ _ a b E eq_refl).
Qed.

(** The outputs of the steps run so far resolve the one placeholder of a
    prompt that names one of them. *)
Lemma substitute_single (outs : list JSText) (j : nat) (o : JSText) (a b : jsstring) :
  nth_error outs j = Some o ->
  ~ In lbrace a -> ~ In lbrace b ->
  ~ In lbrace (ToString o) -> ~ In dollar (ToString o) ->
  substitute (keyed 1 outs) (a ++ placeholder (stepKey (S j)) ++ b) = a ++ ToString o ++ b.
Proof.
  intros Hj Ha Hb Ho Hd.
  apply nth_error_split in Hj as (pre & post & -> & Hlen).
  rewrite keyed_app. unfold substitute. rewrite fold_left_app.
  fold (substitute (keyed 1 pre) (a ++ placeholder (stepKey (S j)) ++ b)).
  rewrite substitute_other_keys; try assumption; [| apply stepKey_braceFree |].
  - unfold keyed at 1. cbn [length seq map combine fold_left fst snd].
    replace (1 + length pre) with (S j) by lia.
    rewrite replace_after_clean_prefix by assumption.
    match goal with |- fold_left _ ?so _ = _ => change (substitute so (a ++ ToString o ++ b) = a ++ ToString o ++ b) end.
    apply substitute_no_lbrace.
    intros Hin. apply in_app_or in Hin as [Hin | Hin]; [contradiction |].
    apply in_app_or in Hin as [Hin | Hin]; contradiction.
  - rewrite Forall_forall. intros [key v] Hin. cbn [fst].
    assert (Hk : In key (map fst (keyed 1 pre)))
      by (apply in_map_iff; now exists (key, v)).
    apply keyed_keys in Hk as (i & Hi & ->).
    split; [apply stepKey_braceFree |].
    intros Heq. apply stepKey_inj in Heq. lia.
Qed.

(** X17.  A placeholder is resolved to the output of its step.  When the
    prompt of a step is [a {{step_j_output}} b] with [j] the number of a step
    before it, and neither [a] nor [b] nor the text recorded for step [j] has
    a left brace, and that text has no dollar sign, then the step is
    dispatched with [a], the text of step [j], and [b]: the text is the one
    of the message that step [j] left in the chat. *)
Theorem placeholder_resolved
    (generate : list Event -> jsstring -> option FileData -> ApiOutcome)
    (embed : list Event -> jsstring -> option (list float))
    (snap : AppState) (plan : list PlanStep) (w : World)
    (k j : nat) (st : PlanStep) (a b : jsstring) :
  store_ok snap ->
  nth_error plan k = Some st ->
  prompt st = a ++ placeholder (stepKey (S j)) ++ b ->
  j < k ->
  ~ In lbrace a -> ~ In lbrace b ->
  exists (outs : list (JSText * option (list Source))) (w' : World),
    executePlan generate embed snap plan w = (Ok tt, w')
    /\ chatHistory (state w') = chatHistory (state w) ++ plan_messages (length plan) plan outs 0
    /\ exists o : JSText,
         nth_error (map fst outs) j = Some o
         /\ (~ In lbrace (ToString o) -> ~ In dollar (ToString o) ->
             nth_error (dispatches (trace w')) (length (dispatches (trace w)) + k)
             = Some (agent st, a ++ ToString o ++ b)).
Proof.
  intros Hok Hk Hprompt Hjk Ha Hb. unfold executePlan.
  destruct (executePlan_from_runs generate embed snap Hok (length plan) plan 0 [] w)
    as (outs & w' & Hrun & Hlen & Hd & Hc & _).
  exists outs, w'. split; [exact Hrun |]. split; [exact Hc |].
  assert (Hko : k < length (map fst outs)).
  { rewrite length_map, Hlen. apply nth_error_Some. congruence. }
  destruct (nth_error (map fst outs) j) as [o |] eqn:Ej.
  2:{ apply nth_error_None in Ej. lia. }
  exists o. split; [reflexivity |]. intros Ho Hdol.
  rewrite Hd, nth_error_app2 by lia.
  replace (_ + k - _) with k by lia.
  change (plan_dispatches plan (map fst outs) 0 [])
    with (plan_dispatches plan (map fst outs) (length (@nil JSText)) (keyed 1 [])).
  rewrite (plan_dispatches_keyed plan (map fst outs) [] k st Hk Hko).
  cbn [app]. rewrite Hprompt. f_equal. f_equal.
  apply substitute_single; try assumption.
  rewrite nth_error_firstn. replace (j <? k) with true by (symmetry; now apply Nat.ltb_lt).
  exact Ej.
Qed.

Lemma placeholder_resolved_witness :
  exists w' : World,
    executePlan (answerAlways (js "RESULT")) embedNever freshState
      [mkPlanStep (js "WebSearchAgent") (js "x");
       mkPlanStep (js "CodeGenerationAgent") (js "use {{step_1_output}} now")] freshWorld
    = (Ok tt, w')
    /\ nth_error (dispatches (trace w')) 1
       = Some (js "CodeGenerationAgent", js "use RESULT now").
Proof.
  destruct (placeholder_resolved (answerAlways (js "RESULT")) embedNever freshState
              [mkPlanStep (js "WebSearchAgent") (js "x");
               mkPlanStep (js "CodeGenerationAgent") (js "use {{step_1_output}} now")] freshWorld
              1 0 (mkPlanStep (js "CodeGenerationAgent") (js "use {{step_1_output}} now"))
              (js "use ") (js " now") freshState_ok eq_refl eq_refl (Nat.lt_0_succ 0))
    as (outs & w' & Hrun & Hc & o & Ho & Hres).
  - vm_compute. intuition discriminate.
  - vm_compute. intuition discriminate.
  - exists w'. split; [exact Hrun |].
    assert (Ho' : o = TStr (js "RESULT")).
    { apply (f_equal (fun r => chatHistory (state (snd r)))) in Hrun. cbn [snd] in Hrun.
      rewrite Hc in Hrun. vm_compute in Hrun.
      destruct outs as [| [o1 s1] outs]; [discriminate Ho |].
      cbn in Ho. injection Ho as ->. cbn in Hrun. injection Hrun as Hrun _.
      vm_compute. congruence. }
    subst o. apply Hres; vm_compute; intuition discriminate.
Defined.

(* ================================================================== *)
(** * The messages a run leaves in the chat *)
(* ================================================================== *)

Lemma plan_messages_shape (n : nat) (steps : list PlanStep) : forall outs i,
  Forall (fun m => thinking m = false /\ renderable m /\ role m = js "model")
    (plan_messages n steps outs i).
Proof.
  induction steps as [| st steps IH]; intros [| [t srcs] outs] i; cbn [plan_messages];
    try constructor.
  - repeat split. now exists (mkPart t), [].
  - apply IH.
Qed.

(** X18.  After a run of [executePlan] the chat holds, after the messages
    it held before, one message per step and nothing else: no progress
    message is left.  The message of a step carries the step's agent, the
    role [model] and a text part (so [callPlanner] can read it later), and
    [finalStep] is set on the message of the last step and on no other. *)
Theorem executePlan_leaves_results
    (generate : list Event -> jsstring -> option FileData -> ApiOutcome)
    (embed : list Event -> jsstring -> option (list float))
    (snap : AppState) (plan : list PlanStep) (w : World) :
  store_ok snap ->
  exists (msgs : list Message) (w' : World),
    executePlan generate embed snap plan w = (Ok tt, w')
    /\ chatHistory (state w') = chatHistory (state w) ++ msgs
    /\ length msgs = length plan
    /\ Forall (fun m => thinking m = false /\ renderable m /\ role m = js "model") msgs
    /\ forall k m, nth_error msgs k = Some m ->
         finalStep m = Some (k =? length plan - 1)
         /\ exists st, nth_error plan k = Some st /\ msg_agent m = Some (agent st).
Proof.
  intros Hok. unfold executePlan.
  destruct (executePlan_from_runs generate embed snap Hok (length plan) plan 0 [] w)
    as (outs & w' & Hrun & Hlen & _ & Hc & _).
  exists (plan_messages (length plan) plan outs 0), w'.
  split; [exact Hrun |]. split; [exact Hc |].
  split; [now apply plan_messages_length |].
  split; [apply plan_messages_shape |].
  intros k m Hm.
  assert (Hk : k < length plan).
  { rewrite <- (plan_messages_length (length plan) plan outs 0 Hlen).
    apply nth_error_Some. congruence. }
  destruct (nth_error plan k) as [st |] eqn:Es; [| apply nth_error_None in Es; lia].
  destruct (nth_error outs k) as [[t srcs] |] eqn:Eo; [| apply nth_error_None in Eo; lia].
  rewrite (plan_messages_nth (length plan) plan outs 0 k st t srcs Es Eo) in Hm.
  injection Hm as <-. cbn [finalStep withFinalStep msg_agent agentMessage Nat.add].
  split; [reflexivity |]. now exists st.
Qed.

Lemma executePlan_leaves_results_witness :
  exists (msgs : list Message) (w' : World),
    executePlan (answerAlways (js "RESULT")) embedNever freshState
      [mkPlanStep (js "WebSearchAgent") (js "x");
       mkPlanStep (js "NoSuchAgent") (js "y")] freshWorld
    = (Ok tt, w')
    /\ chatHistory (state w') = msgs
    /\ map finalStep msgs = [Some false; Some true]
    /\ map thinking msgs = [false; false].
Proof.
  destruct (executePlan_leaves_results (answerAlways (js "RESULT")) embedNever freshState
              [mkPlanStep (js "WebSearchAgent") (js "x");
               mkPlanStep (js "NoSuchAgent") (js "y")] freshWorld freshState_ok)
    as (msgs & w' & Hrun & Hc & _).
  exists msgs, w'. split; [exact Hrun |]. split; [exact Hc |].
  apply (f_equal (fun r => chatHistory (state (snd r)))) in Hrun. cbn [snd] in Hrun.
  rewrite Hc in Hrun. cbn [freshWorld state freshState chatHistory app] in Hrun.
  rewrite <- Hrun. vm_compute. split; reflexivity.
Defined.

(* ================================================================== *)
(** * The fenced block of the planner's response *)
(* ================================================================== *)

(** The opening and the closing of the block: [```json] and a line feed; a
    line feed and [```]. *)
Definition fenceOpen : jsstring := js "```json" ++ nl.
Definition fenceClose : jsstring := nl ++ js "```".

Lemma split_first_fenceClose (body post : jsstring) :
  ~ contains fenceClose body ->
  split_first fenceClose (body ++ fenceClose ++ post) = Some (body, post).
Proof.
  intros Hno.
  destruct (split_first fenceClose (body ++ fenceClose ++ post)) as [[before after] |] eqn:E.
  2:{ exfalso. exact (split_first_none _ _ body post E eq_refl). }
  pose proof (split_first_leftmost _ _ before after body post E eq_refl) as Hle.
  apply split_first_sound in E.
  assert (Hcut : body = firstn (length before) body ++ skipn (length before) body)
    by (symmetry; apply firstn_skipn).
  rewrite Hcut in E at 1. rewrite <- app_assoc in E.
  destruct (app_same_length (firstn (length before) body) before _ _
              ltac:(rewrite length_firstn; lia) E) as [Hb E'].
  destruct (skipn (length before) body) as [| c1 u] eqn:Eu.
  - cbn [app] in E'. apply app_inv_head in E'. subst after.
    rewrite app_nil_r in Hcut. rewrite Hb in Hcut. now subst before.
  - exfalso.
    destruct u as [| c2 [| c3 [| c4 u]]]; cbn in E'; try discriminate E'.
    injection E' as -> -> -> -> E'.
    apply Hno. exists before, u. rewrite Hcut, Hb. reflexivity.
Qed.

Lemma fence_match_after_prose (pre body post : jsstring) :
  ~ In backtick pre ->
  ~ contains fenceClose body ->
  fence_match (pre ++ fenceOpen ++ body ++ fenceClose ++ post) = Some body.
Proof.
  intros Hpre Hbody. induction pre as [| c pre IH].
  - cbn [app]. destruct (fenceOpen ++ body ++ fenceClose ++ post) as [| x s] eqn:Es.
    + discriminate Es.
    + cbn [fence_match]. fold fenceOpen. rewrite <- Es.
      rewrite strip_prefix_app. fold fenceClose.
      now rewrite split_first_fenceClose.
  - cbn [app fence_match]. fold fenceOpen.
    assert (Hc : c <> backtick) by (intros ->; apply Hpre; now left).
    assert (Hs : strip_prefix fenceOpen (c :: pre ++ fenceOpen ++ body ++ fenceClose ++ post) = None).
    { change fenceOpen with (backtick :: tl fenceOpen). cbn [strip_prefix].
      destruct (N.eqb_spec backtick c) as [E |]; [now contradiction Hc | reflexivity]. }
    rewrite Hs. apply IH. intros Hin. apply Hpre. now right.
Qed.

(** X19.  What [callPlanner] reads from a response with a fenced block.
    When the response is some prose without a backtick, then [```json], a
    line feed, a body, a line feed and [```], then anything, and the body is
    not empty and has no line feed followed by [```] in it, the planner
    parses the body and nothing else: it returns the JSON value of the body,
    or the one-step fallback plan when the body is no JSON.  The prose
    around the block plays no role, and the state is left as it was. *)
Theorem callPlanner_reads_fenced_block
    (generate : list Event -> jsstring -> option FileData -> ApiOutcome)
    (request : jsstring) (history : list Message) (w : World)
    (pre body post : jsstring) :
  Forall renderable history ->
  generate (trace w) (plannerPrompt (join nl (map historyLine history)) request) None
  = ApiText (pre ++ js "```json" ++ nl ++ body ++ nl ++ js "```" ++ post) ->
  ~ In backtick pre ->
  body <> [] ->
  ~ contains (nl ++ js "```") body ->
  fence_match (pre ++ js "```json" ++ nl ++ body ++ nl ++ js "```" ++ post) = Some body
  /\ exists w' : World,
       callPlanner generate request history w
       = (Ok match JSON_parse body with
             | Some plan => plan
             | None => fallbackPlan request
             end, w')
       /\ state w' = state w.
Proof.
  intros Hall Hgen Hpre Hne Hbody.
  assert (Hf : fence_match (pre ++ js "```json" ++ nl ++ body ++ nl ++ js "```" ++ post) = Some body).
  { pose proof (fence_match_after_prose pre body post Hpre Hbody) as H.
    unfold fenceOpen, fenceClose in H. rewrite <- !app_assoc in H. exact H. }
  split; [exact Hf |].
  unfold callPlanner. unfold bind at 1. rewrite (historyString_runs history w Hall).
  unfold bind at 1, callGeminiAPI. rewrite Hgen.
  unfold parsePlan. rewrite Hf.
  destruct body as [| c body]; [congruence |].
  destruct (JSON_parse (c :: body)) as [plan |].
  - eexists. split; reflexivity.
  - unfold bind, emit, ret. eexists. split; reflexivity.
Qed.

Lemma callPlanner_reads_fenced_block_witness :
  exists w' : World,
    callPlanner
      (answerAlways (js "Here is the plan:" ++ nl ++ js "```json" ++ nl
                     ++ js "[{" ++ dq ++ js "agent" ++ dq ++ js ": " ++ dq ++ js "WebSearchAgent" ++ dq
                     ++ js ", " ++ dq ++ js "prompt" ++ dq ++ js ": " ++ dq ++ js "weather" ++ dq ++ js "}]"
                     ++ nl ++ js "```" ++ js " Done."))
      (js "weather in Oslo") [] freshWorld
    = (Ok (JArray [JObject [(js "agent", JString (js "WebSearchAgent"));
                            (js "prompt", JString (js "weather"))]]), w')
    /\ state w' = state freshWorld.
Proof.
  destruct (callPlanner_reads_fenced_block
              (answerAlways (js "Here is the plan:" ++ nl ++ js "```json" ++ nl
                     ++ js "[{" ++ dq ++ js "agent" ++ dq ++ js ": " ++ dq ++ js "WebSearchAgent" ++ dq
                     ++ js ", " ++ dq ++ js "prompt" ++ dq ++ js ": " ++ dq ++ js "weather" ++ dq ++ js "}]"
                     ++ nl ++ js "```" ++ js " Done."))
              (js "weather in Oslo") [] freshWorld
              (js "Here is the plan:" ++ nl)
              (js "[{" ++ dq ++ js "agent" ++ dq ++ js ": " ++ dq ++ js "WebSearchAgent" ++ dq
               ++ js ", " ++ dq ++ js "prompt" ++ dq ++ js ": " ++ dq ++ js "weather" ++ dq ++ js "}]")
              (js " Done."))
    as (_ & w' & Hrun & Hs).
  - constructor.
  - unfold answerAlways. now rewrite <- !app_assoc.
  - vm_compute. intuition discriminate.
  - discriminate.
  - intros (a & b & E).
    assert (Hin : In 96%N (js "[{" ++ dq ++ js "agent" ++ dq ++ js ": " ++ dq ++ js "WebSearchAgent" ++ dq
               ++ js ", " ++ dq ++ js "prompt" ++ dq ++ js ": " ++ dq ++ js "weather" ++ dq ++ js "}]")).
    { rewrite E. apply in_or_app. right. right. now left. }
    vm_compute in Hin. intuition discriminate.
  - exists w'. split; [| exact Hs]. rewrite Hrun. f_equal.
Defined.

(* ================================================================== *)
(** * Facts about the message renderer *)
(* ================================================================== *)


(** ** Facts about the renderer *)

Lemma span_spec (p : N -> bool) (s : jsstring) :
  s = fst (span p s) ++ snd (span p s)
  /\ Forall (fun c => p c = true) (fst (span p s))
  /\ match snd (span p s) with
     | [] => True
     | c :: _ => p c = false
     end.
Proof.
  induction s as [| c s IH]; cbn [span].
  - repeat split. constructor.
  - destruct (p c) eqn:Ec.
    + destruct (span p s) as [run rest]. cbn [fst snd] in *.
      destruct IH as (E & Hrun & Hrest). repeat split.
      * cbn. now f_equal.
      * now constructor.
      * exact Hrest.
    + cbn [fst snd]. repeat split; [constructor | exact Ec].
Qed.

Lemma span_stop (p : N -> bool) (run rest : jsstring) (c : N) :
  Forall (fun x => p x = true) run -> p c = false ->
  span p (run ++ c :: rest) = (run, c :: rest).
Proof.
  intros Hrun Hc. induction Hrun as [| x run Hx _ IH]; cbn [app span].
  - now rewrite Hc.
  - now rewrite Hx, IH.
Qed.

(** The text of a link: [[label](href)]. *)
Definition linkText (label href : jsstring) : jsstring :=
  [lbracket] ++ label ++ [rbracket; lparen] ++ href ++ [rparen].

Definition linkOk (label href : jsstring) : Prop :=
  label <> [] /\ ~ In rbracket label /\ href <> [] /\ ~ In rparen href.

Lemma not_in_run (x : N) (run : jsstring) :
  Forall (fun c => negb (N.eqb c x) = true) run -> ~ In x run.
Proof.
  intros Hrun Hin. rewrite Forall_forall in Hrun. specialize (Hrun x Hin).
  now rewrite N.eqb_refl in Hrun.
Qed.

Lemma match_link_sound (s label href rest : jsstring) :
  match_link s = Some (label, href, rest) ->
  s = linkText label href ++ rest /\ linkOk label href.
Proof.
  unfold match_link, linkText, linkOk. destruct s as [| c s1]; [discriminate |].
  destruct (N.eqb_spec c lbracket) as [-> |]; [| discriminate].
  destruct (span_spec (fun c => negb (N.eqb c rbracket)) s1) as (E1 & Hrun1 & _).
  destruct (span (fun c => negb (N.eqb c rbracket)) s1) as [l r1]. cbn [fst snd] in *.
  destruct l as [| l0 l]; [discriminate |].
  destruct r1 as [| c1 [| c2 r2]]; try discriminate.
  destruct (N.eqb_spec c1 rbracket) as [-> |]; [| discriminate].
  destruct (N.eqb_spec c2 lparen) as [-> |]; [| discriminate]. cbn [andb].
  destruct (span_spec (fun c => negb (N.eqb c rparen)) r2) as (E2 & Hrun2 & _).
  destruct (span (fun c => negb (N.eqb c rparen)) r2) as [h r3]. cbn [fst snd] in *.
  destruct h as [| h0 h]; [discriminate |].
  destruct r3 as [| c3 r4]; [discriminate |].
  destruct (N.eqb_spec c3 rparen) as [-> |]; [| discriminate].
  intros H. injection H as <- <- <-.
  split.
  - rewrite E1, E2. cbn [app]. repeat (rewrite <- app_assoc; cbn [app]). reflexivity.
  - repeat split; try discriminate; now apply not_in_run.
Qed.

(** The array of the split, read as a first text and, for every link, its
    two captures and the text after it. *)
Definition flat (t0 : jsstring) (links : list (jsstring * jsstring * jsstring)) : list jsstring :=
  t0 :: flat_map (fun x => [fst (fst x); snd (fst x); snd x]) links.

Lemma split_from_spec (fuel : nat) : forall cur s,
  length s <= fuel ->
  exists t0 links,
    split_from fuel cur s = flat t0 links
    /\ cur ++ s
       = t0 ++ concat (map (fun x => linkText (fst (fst x)) (snd (fst x)) ++ snd x) links)
    /\ Forall (fun x => linkOk (fst (fst x)) (snd (fst x))) links
    /\ (~ In lbracket s -> t0 = cur ++ s /\ links = []).
Proof.
  induction fuel as [| fuel IH]; intros cur s Hlen.
  - destruct s; [| cbn in Hlen; lia]. exists cur, []. cbn. rewrite !app_nil_r.
    repeat split. constructor.
  - destruct s as [| c s']; cbn [split_from].
    + exists cur, []. cbn. rewrite !app_nil_r. repeat split. constructor.
    + destruct (match_link (c :: s')) as [[[label href] rest] |] eqn:Em.
      * destruct (match_link_sound _ _ _ _ Em) as [Es Hok].
        assert (Hr : length rest <= fuel).
        { apply (f_equal (@length N)) in Es. unfold linkText in Es.
          rewrite !length_app in Es. cbn in Es, Hlen. lia. }
        destruct (IH [] rest Hr) as (t1 & links & E & Hsrc & Hall & _).
        exists cur, ((label, href, t1) :: links). rewrite E. split; [reflexivity |].
        split; [| split].
        -- cbn [map concat fst snd]. rewrite Es. cbn [app] in Hsrc. rewrite Hsrc.
           now rewrite <- !app_assoc.
        -- now constructor.
        -- intros Hno. exfalso. apply Hno. rewrite Es. now left.
      * destruct (IH (cur ++ [c]) s' ltac:(cbn in Hlen; lia)) as (t0 & links & E & Hsrc & Hall & Hplain).
        exists t0, links. split; [exact E |]. split; [| split; [exact Hall |]].
        -- rewrite <- Hsrc, <- app_assoc. reflexivity.
        -- intros Hno. destruct Hplain as [-> ->].
           ++ intros Hin. apply Hno. now right.
           ++ rewrite <- app_assoc. now split.
Qed.

Lemma split_from_fuel (fuel1 : nat) : forall fuel2 cur s,
  length s <= fuel1 -> length s <= fuel2 ->
  split_from fuel1 cur s = split_from fuel2 cur s.
Proof.
  induction fuel1 as [| fuel1 IH]; intros fuel2 cur s H1 H2.
  - destruct s; [| cbn in H1; lia]. destruct fuel2; cbn; now rewrite ?app_nil_r.
  - destruct s as [| c s'].
    + destruct fuel2; cbn; now rewrite ?app_nil_r.
    + destruct fuel2 as [| fuel2]; [cbn in H2; lia |]. cbn [split_from].
      destruct (match_link (c :: s')) as [[[label href] rest] |] eqn:Em.
      * destruct (match_link_sound _ _ _ _ Em) as [Es _].
        assert (Hr : length rest <= length s').
        { apply (f_equal (@length N)) in Es. unfold linkText in Es.
          rewrite !length_app in Es. cbn in Es. lia. }
        cbn in H1, H2. now rewrite (IH fuel2 [] rest) by lia.
      * cbn in H1, H2. apply IH; lia.
Qed.

(** More turns than the text has characters change nothing. *)
Lemma split_from_enough (fuel : nat) (cur s : jsstring) :
  length s <= fuel -> split_from fuel cur s = split_from (length s) cur s.
Proof. intros H. now apply split_from_fuel. Qed.

(** What the paragraph shows for the array of the split. *)
Definition childrenOf (t0 : jsstring) (links : list (jsstring * jsstring * jsstring)) : list Inline :=
  Plain t0
  :: flat_map (fun x => [Anchor (fst (fst x)) (Some (snd (fst x))); Null; Plain (snd x)]) links.

Lemma render_parts_flat (parts : list jsstring) (links : list (jsstring * jsstring * jsstring)) :
  forall t0 q,
    skipn (3 * q) parts = flat t0 links ->
    render_parts parts (flat t0 links) (3 * q) = childrenOf t0 links.
Proof.
  induction links as [| [[label href] t1] links IH]; intros t0 q Hskip.
  - cbn [flat flat_map render_parts childrenOf].
    replace ((3 * q) mod 3) with 0 by (rewrite Nat.mul_comm; now rewrite Nat.Div0.mod_mul).
    reflexivity.
  - assert (H0 : (3 * q) mod 3 = 0) by (rewrite Nat.mul_comm; now rewrite Nat.Div0.mod_mul).
    assert (H1 : (S (3 * q)) mod 3 = 1).
    { replace (S (3 * q)) with (1 + q * 3) by lia. now rewrite Nat.Div0.mod_add. }
    assert (H2 : (S (S (3 * q))) mod 3 = 2).
    { replace (S (S (3 * q))) with (2 + q * 3) by lia. now rewrite Nat.Div0.mod_add. }
    assert (Hh : nth_error parts (S (3 * q) + 1) = Some href).
    { replace (S (3 * q) + 1) with (3 * q + 2) by lia.
      rewrite <- nth_error_skipn, Hskip. reflexivity. }
    assert (Hnext : skipn (3 * S q) parts = flat t1 links).
    { replace (3 * S q) with (3 + 3 * q) by lia.
      rewrite <- skipn_skipn, Hskip. reflexivity. }
    change (flat t0 ((label, href, t1) :: links)) with (t0 :: label :: href :: flat t1 links).
    change (childrenOf t0 ((label, href, t1) :: links))
      with (Plain t0 :: Anchor label (Some href) :: Null :: childrenOf t1 links).
    cbn [render_parts]. rewrite H0, H1, H2, Hh. cbn [Nat.eqb].
    do 3 f_equal.
    replace (S (S (S (3 * q)))) with (3 * S q) by lia.
    exact (IH t1 (S q) Hnext).
Qed.

(** The text a child of the paragraph stands for. *)
Definition markdownOf (i : Inline) : jsstring :=
  match i with
  | Plain s => s
  | Anchor label (Some href) => linkText label href
  | Anchor label None => [lbracket] ++ label ++ [rbracket]
  | Null => []
  end.

Lemma markdownOf_children (t0 : jsstring) (links : list (jsstring * jsstring * jsstring)) :
  concat (map markdownOf (childrenOf t0 links))
  = t0 ++ concat (map (fun x => linkText (fst (fst x)) (snd (fst x)) ++ snd x) links).
Proof.
  unfold childrenOf. cbn [map concat]. f_equal.
  induction links as [| [[label href] t1] links IH]; [reflexivity |].
  cbn [flat_map app map concat fst snd markdownOf]. rewrite IH.
  now rewrite <- app_assoc.
Qed.

(** A child as the renderer makes them: a link has a label and an address,
    neither empty, the label without a right bracket and the address
    without a right parenthesis. *)
Definition wellFormedChild (i : Inline) : Prop :=
  match i with
  | Anchor label href =>
      exists h, href = Some h /\ linkOk label h
  | _ => True
  end.

(** X20.  A message that is not shown as a code block is shown in full:
    the renderer cuts the text at its markdown links [[label](address)] into
    strings and anchors, and the strings and the links of the anchors, one
    after the other, are the text of the message.  Every anchor has a label
    and an address, and a text with no left bracket is shown as one
    string. *)
Theorem message_shown_in_full (t : jsstring) (agentName : option jsstring) :
  t <> [] ->
  agentName <> Some (js "CodeGenerationAgent") \/ includes ticks t = false ->
  exists children : list Inline,
    _MessageContent (TStr t) agentName = RParagraph children
    /\ concat (map markdownOf children) = t
    /\ Forall wellFormedChild children
    /\ (~ In lbracket t -> children = [Plain t]).
Proof.
  intros Hne Hcase.
  destruct (split_from_spec (length t) [] t (Nat.le_refl _)) as (t0 & links & E & Hsrc & Hall & Hplain).
  exists (childrenOf t0 links).
  split; [| split; [| split]].
  - destruct t as [| c t]; [congruence |]. unfold _MessageContent.
    assert (Hc : (match agentName with
                  | Some a => str_eqb a (js "CodeGenerationAgent")
                  | None => false
                  end && includes ticks (c :: t)) = false).
    { destruct Hcase as [Ha | ->]; [| apply andb_false_r].
      destruct agentName as [a |]; [| reflexivity].
      replace (str_eqb a (js "CodeGenerationAgent")) with false; [reflexivity |].
      symmetry. apply str_eqb_neq. congruence. }
    rewrite Hc. unfold split_links. rewrite E. f_equal.
    apply (render_parts_flat (flat t0 links) links t0 0). reflexivity.
  - rewrite markdownOf_children. symmetry. exact Hsrc.
  - unfold childrenOf. constructor; [exact I |].
    clear E Hsrc Hplain.
    induction Hall as [| [[label href] t1] links Hok _ IH]; cbn [flat_map app]; [constructor |].
    constructor; [now exists href |]. constructor; [exact I |]. constructor; [exact I |].
    exact IH.
  - intros Hno. destruct (Hplain Hno) as [-> ->]. reflexivity.
Qed.

Lemma message_shown_in_full_witness :
  exists children : list Inline,
    _MessageContent (TStr (js "see [the docs](http://x.y/z) now")) (Some (js "WebSearchAgent"))
    = RParagraph children
    /\ concat (map markdownOf children) = js "see [the docs](http://x.y/z) now".
Proof.
  destruct (message_shown_in_full (js "see [the docs](http://x.y/z) now") (Some (js "WebSearchAgent")))
    as (children & Hrun & Hcat & _).
  - discriminate.
  - left. discriminate.
  - exists children. split; [exact Hrun | exact Hcat].
Defined.

Lemma split_first_clean_prefix (c0 : N) (pat pre after : jsstring) :
  ~ In c0 pre ->
  split_first (c0 :: pat) (pre ++ (c0 :: pat) ++ after) = Some (pre, after).
Proof.
  intros Hpre. induction pre as [| c pre IH].
  - cbn [app split_first].
    change (c0 :: pat ++ after) with ((c0 :: pat) ++ after).
    now rewrite strip_prefix_app.
  - rewrite <- app_comm_cons. cbn [split_first].
    assert (Hs : strip_prefix (c0 :: pat) (c :: pre ++ (c0 :: pat) ++ after) = None).
    { cbn [strip_prefix]. destruct (N.eqb_spec c0 c) as [<- |]; [| reflexivity].
      exfalso. apply Hpre. now left. }
    rewrite Hs, IH; [reflexivity |]. intros Hin. apply Hpre. now right.
Qed.

Lemma strip_fence_end_app (x : jsstring) : strip_fence_end (x ++ ticks) = x.
Proof.
  induction x as [| c x IH]; [reflexivity |].
  cbn [app strip_fence_end].
  destruct (strip_prefix ticks (c :: x ++ ticks)) as [[| r0 r] |] eqn:E.
  - apply strip_prefix_sound in E. apply (f_equal (@length N)) in E.
    rewrite app_nil_r in E. cbn in E. rewrite length_app in E. cbn in E. lia.
  - now rewrite IH.
  - now rewrite IH.
Qed.

Lemma match_lang_after_prose (pre lang rest : jsstring) :
  ~ In backtick pre -> lang <> [] -> Forall (fun c => isWord c = true) lang ->
  match_lang (pre ++ ticks ++ lang ++ nl ++ rest) = Some lang.
Proof.
  intros Hpre Hlang Hword. induction pre as [| c pre IH].
  - cbn [app]. destruct (ticks ++ lang ++ nl ++ rest) eqn:Es; [discriminate Es |].
    cbn [match_lang]. rewrite <- Es. rewrite strip_prefix_app.
    change (nl ++ rest) with (10%N :: rest).
    rewrite (span_stop isWord lang rest 10%N Hword eq_refl).
    destruct lang; [congruence | reflexivity].
  - cbn [app match_lang].
    assert (Hs : strip_prefix ticks (c :: pre ++ ticks ++ lang ++ nl ++ rest) = None).
    { change ticks with (backtick :: tl ticks). cbn [strip_prefix].
      destruct (N.eqb_spec backtick c) as [<- |]; [| reflexivity].
      exfalso. apply Hpre. now left. }
    rewrite Hs. apply IH. intros Hin. apply Hpre. now right.
Qed.

Lemma MessageContent_text (t : jsstring) (agentName : option jsstring) :
  t <> [] ->
  _MessageContent (TStr t) agentName
  = if match agentName with
       | Some a => str_eqb a (js "CodeGenerationAgent")
       | None => false
       end && includes ticks t
    then RCodeBlock match match_lang t with Some l => l | None => [] end
           (strip_fence_end (strip_fence_open t))
    else RParagraph (render_parts (split_links t) (split_links t) 0).
Proof. destruct t; [congruence | reflexivity]. Qed.

(** X21.  A code answer in a fenced block.  For the code generation agent,
    a text made of some prose without a backtick, a fence [```] with a
    language name, a line feed, the code and a closing fence at the very end
    is shown as a code block with that language.  The block holds the code
    without the two fences, with the prose put before it: the prose is not
    taken out. *)
Theorem code_block_extracted (pre lang code : jsstring) :
  ~ In backtick pre ->
  lang <> [] ->
  Forall (fun c => isWord c = true) lang ->
  _MessageContent (TStr (pre ++ js "```" ++ lang ++ nl ++ code ++ js "```"))
    (Some (js "CodeGenerationAgent"))
  = RCodeBlock lang (pre ++ code).
Proof.
  intros Hpre Hlang Hword. fold ticks.
  assert (Hsplit : split_first ticks (pre ++ ticks ++ lang ++ nl ++ code ++ ticks)
                   = Some (pre, lang ++ nl ++ code ++ ticks))
    by (apply (split_first_clean_prefix backtick (tl ticks)); exact Hpre).
  rewrite MessageContent_text by (destruct pre; discriminate).
  change (str_eqb (js "CodeGenerationAgent") (js "CodeGenerationAgent")) with true.
  unfold includes. rewrite Hsplit. cbn [andb].
  rewrite (match_lang_after_prose pre lang (code ++ ticks) Hpre Hlang Hword).
  unfold strip_fence_open. rewrite Hsplit.
  change (nl ++ code ++ ticks) with (10%N :: code ++ ticks).
  rewrite (span_stop isWord lang (code ++ ticks) 10%N Hword eq_refl).
  cbn [N.eqb Pos.eqb]. rewrite app_assoc, strip_fence_end_app. reflexivity.
Qed.

Lemma code_block_extracted_witness :
  _MessageContent
    (TStr (js "Here you go: " ++ js "```" ++ js "python" ++ nl ++ (js "print(1)" ++ nl) ++ js "```"))
    (Some (js "CodeGenerationAgent"))
  = RCodeBlock (js "python") (js "Here you go: " ++ (js "print(1)" ++ nl)).
Proof.
  apply (code_block_extracted (js "Here you go: ") (js "python") (js "print(1)" ++ nl)).
  - vm_compute. intuition discriminate.
  - discriminate.
  - vm_compute. repeat constructor.
Defined.

(* ================================================================== *)
(** * Removing a file, and dollar signs in a step's output *)
(* ================================================================== *)

Lemma filter_keeps_others (fname : jsstring) (l : list FileData) :
  Forall (fun f => name f <> fname) (filter (fun f => negb (str_eqb (name f) fname)) l).
Proof.
  rewrite Forall_forall. intros f Hf. apply filter_In in Hf as [_ Hf].
  now apply negb_true_iff, str_eqb_neq in Hf.
Qed.

Lemma find_file_absent (prompt : jsstring) (l : list FileData) :
  Forall (fun f => name f <> prompt) l ->
  find_file (fun f => str_eqb (name f) prompt) l = None.
Proof.
  intros Hall. unfold find_file. induction Hall as [| f l Hf _ IH]; cbn [find]; [reflexivity |].
  apply str_eqb_neq in Hf. now rewrite Hf.
Qed.

(** X22.  Remove, then summarise by name.  [removeFile] takes every entry
    of that name out of the uploaded files and keeps the others in their
    order.  A render that follows has no file of that name, so its
    summarization handler, given the name as the prompt, does not fail: it
    sends the name itself to the language model as the text to summarise. *)
Theorem remove_then_summarize
    (generate : list Event -> jsstring -> option FileData -> ApiOutcome)
    (snap : AppState) (fname : jsstring) (w w2 : World) :
  fname <> [] ->
  uploadedFiles (state (snd (removeFile snap fname w)))
  = filter (fun f => negb (str_eqb (name f) fname)) (uploadedFiles (state w))
  /\ exists w3 : World,
       handleSummarizationQuery generate (state (snd (removeFile snap fname w))) fname w2
       = (Ok (agentMessage (js "SummarizationAgent")
                (textOf (generate (trace w2) (summaryPromptOf fname) None)) None), w3)
       /\ requests (trace w3) = requests (trace w2) ++ [(summaryPromptOf fname, None)].
Proof.
  intros Hne.
  assert (Hfiles : uploadedFiles (state (snd (removeFile snap fname w)))
                   = filter (fun f => negb (str_eqb (name f) fname)) (uploadedFiles (state w))).
  { unfold removeFile, bind, setUploadedFiles, setVectorStore, update. cbn [snd fst].
    destruct (attachedImage snap) as [img |]; [destruct (str_eqb (name img) fname) |];
      reflexivity. }
  split; [exact Hfiles |].
  apply handleSummarizationQuery_text; [exact Hne |].
  rewrite Hfiles.
  now rewrite (find_file_absent fname _ (filter_keeps_others fname (uploadedFiles (state w)))).
Qed.

Lemma remove_then_summarize_witness :
  exists w3 : World,
    handleSummarizationQuery (answerAlways (js "a summary"))
      (state (snd (removeFile freshState (js "notes.txt")
                     (mkWorld (with_uploadedFiles (fun _ => [document]) freshState) []))))
      (js "notes.txt") freshWorld
    = (Ok (agentMessage (js "SummarizationAgent") (TStr (js "a summary")) None), w3)
    /\ requests (trace w3) = [(summaryPromptOf (js "notes.txt"), None)].
Proof.
  destruct (remove_then_summarize (answerAlways (js "a summary")) freshState (js "notes.txt")
              (mkWorld (with_uploadedFiles (fun _ => [document]) freshState) []) freshWorld)
    as (_ & w3 & Hrun & Hreq).
  - discriminate.
  - exists w3. split; [exact Hrun | exact Hreq].
Defined.

Lemma GetSubstitution_app_plain (matched before after x t : jsstring) :
  ~ In dollar x ->
  GetSubstitution matched before after (x ++ t) = x ++ GetSubstitution matched before after t.
Proof.
  induction x as [| c x IH]; intros Hno; [reflexivity |].
  cbn [app GetSubstitution].
  destruct (N.eqb_spec c dollar) as [-> | Hc].
  - exfalso. apply Hno. now left.
  - f_equal. apply IH. intros Hin. apply Hno. now right.
Qed.

Lemma replace_at_leftmost (a b p r : jsstring) :
  (forall a1 b1, a ++ p ++ b = a1 ++ p ++ b1 -> length a <= length a1) ->
  replace (a ++ p ++ b) p r = a ++ GetSubstitution p a b r ++ b.
Proof.
  intros Hleft. unfold replace.
  destruct (split_first p (a ++ p ++ b)) as [[before after] |] eqn:E.
  - pose proof (split_first_leftmost p _ before after a b E eq_refl) as Hle.
    apply split_first_sound in E.
    pose proof (Hleft before after E) as Hge.
    destruct (app_same_length a before (p ++ b) (p ++ after) ltac:(lia) E) as [<- E'].
    apply app_inv_head in E'. now subst after.
  - exfalso. exact (split_first_none p _ a b E eq_refl).
Qed.

(** X23.  A dollar sign in the output of a step.  [replace] reads the
    output as a replacement pattern, so where the placeholder stood the
    prompt gets, for [$$] in the output, one dollar sign; for [$&], the
    placeholder itself; for [$`], the prompt text before the placeholder;
    and for [$'], the prompt text after it.  (The placeholder occurs first
    at the place shown; [x] and [y] are the output text around the pattern,
    with no dollar sign.) *)
Theorem replace_dollar_patterns (a b p x y : jsstring) :
  (forall a1 b1, a ++ p ++ b = a1 ++ p ++ b1 -> length a <= length a1) ->
  ~ In dollar x -> ~ In dollar y ->
  replace (a ++ p ++ b) p (x ++ [dollar; dollar] ++ y) = a ++ (x ++ [dollar] ++ y) ++ b
  /\ replace (a ++ p ++ b) p (x ++ [dollar; ampersand] ++ y) = a ++ (x ++ p ++ y) ++ b
  /\ replace (a ++ p ++ b) p (x ++ [dollar; backtick] ++ y) = a ++ (x ++ a ++ y) ++ b
  /\ replace (a ++ p ++ b) p (x ++ [dollar; apostrophe] ++ y) = a ++ (x ++ b ++ y) ++ b.
Proof.
  intros Hleft Hx Hy.
  repeat split; rewrite replace_at_leftmost by exact Hleft;
    rewrite GetSubstitution_app_plain by exact Hx;
    cbn [app GetSubstitution N.eqb Pos.eqb dollar ampersand backtick apostrophe];
    rewrite GetSubstitution_plain by exact Hy; reflexivity.
Qed.

Lemma replace_dollar_patterns_witness :
  replace (js "use " ++ js "{{step_1_output}}" ++ js "!") (js "{{step_1_output}}")
    (js "costs " ++ [dollar; dollar] ++ js "5")
  = js "use " ++ (js "costs " ++ [dollar] ++ js "5") ++ js "!".
Proof.
  refine (proj1 (replace_dollar_patterns (js "use ") (js "!") (js "{{step_1_output}}")
                   (js "costs ") (js "5") _ _ _)).
  - intros a1 b1 E.
    destruct a1 as [| c1 [| c2 [| c3 [| c4 a1]]]]; try (vm_compute in E; discriminate E).
    simpl. lia.
  - vm_compute. intuition discriminate.
  - vm_compute. intuition discriminate.
Defined.

(* ================================================================== *)
(** * The sources of a knowledge answer *)
(* ================================================================== *)

(** A source that names a stored record. *)
Definition cites (store : list VectorRecord) (s : Source) : Prop :=
  exists v, In v store /\ source_fileName s = fileName v /\ source_chunk s = chunk v.

Lemma handleKnowledgeQuery_sources
    (generate : list Event -> jsstring -> option FileData -> ApiOutcome)
    (embed : list Event -> jsstring -> option (list float))
    (snap : AppState) (prompt : jsstring) (w : World) :
  store_ok snap ->
  exists (t : JSText) (srcs : option (list Source)) (w' : World),
    handleKnowledgeQuery generate embed snap prompt w
    = (Ok (agentMessage (js "KnowledgeAgent") t srcs), w')
    /\ match srcs with
       | None => t = TStr nothingFound /\ requests (trace w') = requests (trace w)
       | Some l => 0 < length l <= 3 /\ Forall (cites (vectorStore snap)) l
       end.
Proof.
  intros Hok. unfold handleKnowledgeQuery. unfold bind at 1.
  assert (Hres : exists r w1,
            findSimilarChunks embed snap prompt w = (Ok r, w1)
            /\ length r <= 3
            /\ requests (trace w1) = requests (trace w)
            /\ Forall (fun c => In (stored c) (vectorStore snap)) r).
  { unfold findSimilarChunks.
    destruct ((length (vectorStore snap) =? 0) || negb (ready (modelStatus snap))).
    - exists [], w. cbn [length]. repeat split; [lia | constructor].
    - unfold bind, getClientSideEmbedding.
      destruct (embed (trace w) prompt) as [q |].
      + rewrite mapM_score by exact Hok. eexists _, _. split; [reflexivity |].
        cbn [trace]. rewrite requests_app, length_firstn. cbn [requests flat_map].
        rewrite app_nil_r. repeat split; [lia |].
        rewrite Forall_forall. intros c Hc. apply In_firstn in Hc.
        apply (Permutation_in _ (sort_perm _ _)) in Hc.
        apply in_map_iff in Hc as (v & <- & Hv). exact Hv.
      + eexists _, _. split; [reflexivity |]. cbn [trace length].
        rewrite requests_app. cbn [requests flat_map]. rewrite app_nil_r.
        repeat split; [lia | constructor]. }
  destruct Hres as (r & w1 & -> & Hlen & Hreq & Hin).
  destruct (Nat.eqb_spec (length r) 0) as [E0 | E0].
  - eexists _, None, w1. split; [reflexivity |]. split; [reflexivity | exact Hreq].
  - unfold bind at 1.
    match goal with |- context [callGeminiAPI generate ?p ?a w1] =>
      destruct (callGeminiAPI_runs generate p a w1) as (w2 & -> & _) end.
    eexists _, (Some _), w2. split; [reflexivity |].
    rewrite length_map. split; [lia |].
    rewrite Forall_forall. intros s Hs. apply in_map_iff in Hs as (c & <- & Hc).
    rewrite Forall_forall in Hin. exists (stored c). split; [now apply Hin | now split].
Qed.

(** X24.  The sources of a knowledge answer.  In a state whose stored
    records have their embedding the knowledge handler returns normally.
    Its answer either has no sources, and then it is the fixed text and
    nothing was sent to the language model, or it has between one and three
    sources, each of them the file name and the chunk of a record of the
    store. *)
Theorem knowledge_sources_are_stored
    (generate : list Event -> jsstring -> option FileData -> ApiOutcome)
    (embed : list Event -> jsstring -> option (list float))
    (snap : AppState) (prompt : jsstring) (w : World) :
  store_ok snap ->
  exists (m : Message) (w' : World),
    handleKnowledgeQuery generate embed snap prompt w = (Ok m, w')
    /\ msg_agent m = Some (js "KnowledgeAgent")
    /\ match sources m with
       | None =>
           parts m = Some [mkPart (TStr nothingFound)]
           /\ requests (trace w') = requests (trace w)
       | Some l => 0 < length l <= 3 /\ Forall (cites (vectorStore snap)) l
       end.
Proof.
  intros Hok.
  destruct (handleKnowledgeQuery_sources generate embed snap prompt w Hok)
    as (t & srcs & w' & Hrun & Hs).
  exists (agentMessage (js "KnowledgeAgent") t srcs), w'.
  split; [exact Hrun |]. split; [reflexivity |].
  cbn [sources agentMessage parts]. destruct srcs as [l |]; [exact Hs |].
  destruct Hs as [-> Hr]. now split.
Qed.

Lemma knowledge_sources_are_stored_witness :
  exists (m : Message) (w' : World),
    handleKnowledgeQuery (answerAlways (js "RESULT")) (embedAlways [1; 0]%float) stateWithStore
      (js "sky") freshWorld = (Ok m, w')
    /\ msg_agent m = Some (js "KnowledgeAgent")
    /\ option_map (@length Source) (sources m) = Some 3.
Proof.
  destruct (knowledge_sources_are_stored (answerAlways (js "RESULT")) (embedAlways [1; 0]%float)
              stateWithStore (js "sky") freshWorld)
    as (m & w' & Hrun & Ha & _).
  - unfold store_ok. vm_compute. repeat constructor.
  - exists m, w'. split; [exact Hrun |]. split; [exact Ha |].
    vm_compute in Hrun. injection Hrun as <- _. reflexivity.
Defined.

(** X25.  Upload, then ask.  After [processAndEmbedFiles] has run on a
    batch of files over an empty store, a render that follows answers a
    knowledge question only from that batch: every source of the answer
    names a file of the batch that is no image, and its chunk is a piece of
    the text extracted from that file. *)
Theorem upload_then_ask
    (generate : list Event -> jsstring -> option FileData -> ApiOutcome)
    (embed : list Event -> jsstring -> option (list float))
    (extractText : list Event -> BrowserFile -> option jsstring)
    (snap : AppState) (files : list FileData) (w : World) :
  vectorStore (state w) = [] ->
  exists w1 : World,
    processAndEmbedFiles embed extractText snap files w = (Ok tt, w1)
    /\ forall (prompt : jsstring) (w2 : World),
       exists (m : Message) (w3 : World),
         handleKnowledgeQuery generate embed (state w1) prompt w2 = (Ok m, w3)
         /\ forall l, sources m = Some l ->
              Forall (fun s => exists (f : FileData) (tr : list Event) (t : jsstring),
                               In f files /\ isImageType (type_ f) = false
                               /\ source_fileName s = name f
                               /\ extractText tr (fileObject f) = Some t
                               /\ contains (source_chunk s) t) l.
Proof.
  intros Hempty.
  destruct (processAndEmbedFiles_records embed extractText snap files w)
    as (added & w1 & Hrun & Hs & Ha & Hemb & _).
  exists w1. split; [exact Hrun |]. intros prompt w2.
  rewrite Hempty in Hs. cbn [app] in Hs.
  assert (Hok : store_ok (state w1)) by (unfold store_ok; now rewrite Hs).
  destruct (handleKnowledgeQuery_sources generate embed (state w1) prompt w2 Hok)
    as (t & srcs & w3 & Hq & Hsrc).
  exists (agentMessage (js "KnowledgeAgent") t srcs), w3. split; [exact Hq |].
  cbn [sources agentMessage]. intros l ->. destruct Hsrc as [_ Hc].
  eapply Forall_impl; [| exact Hc].
  intros s (v & Hv & Hn & Hch). rewrite Hs in Hv.
  rewrite Forall_forall in Ha. destruct (Ha v Hv) as (f & tr & t0 & Hf & Himg & Hname & Ht & Hcon & _).
  exists f, tr, t0. rewrite Hn, Hch. repeat split; assumption.
Qed.

Lemma upload_then_ask_witness :
  exists w1 : World,
    processAndEmbedFiles embedLongTexts extractBytes freshState [document] freshWorld = (Ok tt, w1)
    /\ exists (m : Message) (w3 : World),
         handleKnowledgeQuery (answerAlways (js "RESULT")) embedLongTexts (state w1)
           (repeat 98%N 600) freshWorld = (Ok m, w3)
         /\ option_map (map source_fileName) (sources m) = Some [js "notes.txt"].
Proof.
  destruct (upload_then_ask (answerAlways (js "RESULT")) embedLongTexts extractBytes freshState
              [document] freshWorld eq_refl)
    as (w1 & Hrun & Hask).
  exists w1. split; [exact Hrun |].
  destruct (Hask (repeat 98%N 600) freshWorld) as (m & w3 & Hq & _).
  exists m, w3. split; [exact Hq |].
  vm_compute in Hrun. injection Hrun as <-.
  vm_compute in Hq. injection Hq as <- _. reflexivity.
Defined.
